(** * PortaDJ: the per-deck playback engine of [src/hooks/useAudioDeck.ts]

    A shallow embedding of the [useAudioDeck] hook: the transport
    (play / pause / seek / position query), the scratch engine, the cue
    point manager, the load protocol and the autocorrelation BPM estimator.

    JavaScript numbers are modelled as rationals ([Q]).  Continuous
    quantities (times, positions, gains, sums of samples) are computed
    exactly; where the rounding of IEEE doubles decides a branch, an
    index or a displayed value, the operation is the binary64 one
    ([js_add], [js_sub], [js_mul], [js_div]: the exact result rounded to
    the nearest double, ties to even).  Integral quantities the source
    uses as array indices or loop counters (sample indices, lags, the
    sample rate) are integers ([Z]).  The audio clock
    [audioContext.currentTime] is an explicit argument [now] of the
    operations that read it.

    The model describes a deck whose audio context and node graph exist
    ([audioContext] and [refs.current] are non-null), which is the case as
    soon as the mount effects of the application have run. *)

From Stdlib Require Import ZArith QArith Qround Qabs Qminmax Qpower Qreduction.
From Stdlib Require Import Lqa Lia List Bool String Sorted Permutation.
Import ListNotations.

Local Open Scope Q_scope.

(** ** JavaScript numeric primitives *)

Definition Qltb (x y : Q) : bool := negb (Qle_bool y x).
Definition Qgtb (x y : Q) : bool := Qltb y x.
Definition Qgeb (x y : Q) : bool := Qle_bool y x.

(** [Math.floor], [Math.round] (half-way cases go up), [Math.abs]. *)
Definition Math_floor (x : Q) : Z := Qfloor x.
Definition Math_round (x : Q) : Z := Qfloor (x + (1 # 2)).
Definition Math_abs (x : Q) : Q := Qabs x.
Definition Math_min (x y : Q) : Q := Qmin x y.
Definition Math_max (x y : Q) : Q := Qmax x y.

(** *** Binary64 arithmetic

    A finite double is [m * 2^e] with [|m| <= 2^53] and [e >= -1074].
    [fl x] is the double nearest to the rational [x], ties going to the
    even significand: what an IEEE operation returns for an exact result
    [x].  Results of magnitude [2^1024] and above, which JavaScript turns
    into [Infinity], and the sign of zero are not represented. *)

Definition Qpow2 (e : Z) : Q := 2 ^ e.

(** [floor (log2 x)] for a positive [x]. *)
Definition ilog2 (x : Q) : Z :=
  let k := (Z.log2 (Qnum x) - Z.log2 (Zpos (Qden x)))%Z in
  if Qle_bool (Qpow2 k) x then k else (k - 1)%Z.

(** The nearest integer, ties to even. *)
Definition round_half_even (x : Q) : Z :=
  let f := Qfloor x in
  match Qcompare (x - inject_Z f) (1 # 2) with
  | Lt => f
  | Gt => (f + 1)%Z
  | Eq => if Z.even f then f else (f + 1)%Z
  end.

(** The exponent of the last place of a positive [x]: 52 binary places
    below its leading bit, and never below that of the subnormals. *)
Definition fexp (x : Q) : Z := Z.max (ilog2 x - 52) (-1074).

Definition fl_pos (x : Q) : Q :=
  let e := fexp x in
  inject_Z (round_half_even (x / Qpow2 e)) * Qpow2 e.

Definition fl (x : Q) : Q :=
  match Qcompare x 0 with
  | Eq => 0
  | Gt => Qred (fl_pos x)
  | Lt => Qred (- fl_pos (- x))
  end.

(** [x] is a double. *)
Definition is_double (x : Q) : Prop := fl x == x.

(** The four operations of JavaScript on doubles, and the double a
    decimal literal denotes. *)
Definition js_add (x y : Q) : Q := fl (x + y).
Definition js_sub (x y : Q) : Q := fl (x - y).
Definition js_mul (x y : Q) : Q := fl (x * y).
Definition js_div (x y : Q) : Q := fl (x / y).
Definition js_literal (x : Q) : Q := fl x.

(** ** Data model *)

(** A decoded [AudioBuffer]: sample rate and per-channel sample arrays.
    [buffer.length] is the length of channel 0 and
    [buffer.duration = length / sampleRate]. *)
Record AudioBuffer := mkAudioBuffer {
  sampleRate : Z;
  channelData : list (list Q)
}.

Definition getChannelData (b : AudioBuffer) (n : nat) : list Q :=
  nth n (channelData b) [].
Definition numberOfChannels (b : AudioBuffer) : nat :=
  List.length (channelData b).
Definition buffer_length (b : AudioBuffer) : Z :=
  Z.of_nat (List.length (getChannelData b 0)).
Definition buffer_duration (b : AudioBuffer) : Q :=
  inject_Z (buffer_length b) / inject_Z (sampleRate b).

(** What the Web Audio API guarantees of every [AudioBuffer]: a positive
    sample rate, at least one channel, at least one frame, and all
    channels of the same length. *)
Definition wf_buffer (b : AudioBuffer) : Prop :=
  (0 < sampleRate b)%Z /\
  (0 < buffer_length b)%Z /\
  Forall (fun ch => Z.of_nat (List.length ch) = buffer_length b) (channelData b).

(** A [File]: its name and what [decodeAudioData] makes of its bytes
    ([None] when decoding throws). *)
Record File := mkFile {
  file_name : string;
  file_decode : option AudioBuffer
}.

(** The live [AudioBufferSourceNode]: the offset it was started at and its
    [playbackRate] parameter. *)
Record SourceNode := mkSource {
  src_offset : Q;
  src_rate : Q
}.

(** The deck: the React state cells, [refs.current] and
    [scratchState.current] of one [useAudioDeck] instance. *)
Record Deck := mkDeck {
  (* useState cells *)
  isPlaying : bool;
  currentTime : Q;
  buffer : option AudioBuffer;
  duration : Q;
  cuePoints : list Q;
  fileName : option string;
  bpm : Q;
  playbackRate : Q;
  (* refs.current *)
  source : option SourceNode;
  startTime : Q;
  pausedAt : Q;
  (* scratchState.current *)
  isScratching : bool;
  currentSample : Q;
  targetSample : Q;
  wasPlayingBeforeScratch : bool;
  processor : bool
}.

(** The deck right after the hook is mounted. *)
Definition initial_deck : Deck :=
  {| isPlaying := false; currentTime := 0; buffer := None; duration := 0;
     cuePoints := []; fileName := None; bpm := 0; playbackRate := 1;
     source := None; startTime := 0; pausedAt := 0;
     isScratching := false; currentSample := 0; targetSample := 0;
     wasPlayingBeforeScratch := false; processor := false |}.

(** Field setters, one per cell the hook writes. *)
Definition setIsPlaying (v : bool) (d : Deck) : Deck :=
  mkDeck v (currentTime d) (buffer d) (duration d) (cuePoints d) (fileName d)
    (bpm d) (playbackRate d) (source d) (startTime d) (pausedAt d)
    (isScratching d) (currentSample d) (targetSample d)
    (wasPlayingBeforeScratch d) (processor d).
Definition setCurrentTime (v : Q) (d : Deck) : Deck :=
  mkDeck (isPlaying d) v (buffer d) (duration d) (cuePoints d) (fileName d)
    (bpm d) (playbackRate d) (source d) (startTime d) (pausedAt d)
    (isScratching d) (currentSample d) (targetSample d)
    (wasPlayingBeforeScratch d) (processor d).
Definition setBuffer (v : option AudioBuffer) (d : Deck) : Deck :=
  mkDeck (isPlaying d) (currentTime d) v (duration d) (cuePoints d) (fileName d)
    (bpm d) (playbackRate d) (source d) (startTime d) (pausedAt d)
    (isScratching d) (currentSample d) (targetSample d)
    (wasPlayingBeforeScratch d) (processor d).
Definition setDuration (v : Q) (d : Deck) : Deck :=
  mkDeck (isPlaying d) (currentTime d) (buffer d) v (cuePoints d) (fileName d)
    (bpm d) (playbackRate d) (source d) (startTime d) (pausedAt d)
    (isScratching d) (currentSample d) (targetSample d)
    (wasPlayingBeforeScratch d) (processor d).
Definition setCuePoints (v : list Q) (d : Deck) : Deck :=
  mkDeck (isPlaying d) (currentTime d) (buffer d) (duration d) v (fileName d)
    (bpm d) (playbackRate d) (source d) (startTime d) (pausedAt d)
    (isScratching d) (currentSample d) (targetSample d)
    (wasPlayingBeforeScratch d) (processor d).
Definition setFileName (v : option string) (d : Deck) : Deck :=
  mkDeck (isPlaying d) (currentTime d) (buffer d) (duration d) (cuePoints d) v
    (bpm d) (playbackRate d) (source d) (startTime d) (pausedAt d)
    (isScratching d) (currentSample d) (targetSample d)
    (wasPlayingBeforeScratch d) (processor d).
Definition setBpm (v : Q) (d : Deck) : Deck :=
  mkDeck (isPlaying d) (currentTime d) (buffer d) (duration d) (cuePoints d)
    (fileName d) v (playbackRate d) (source d) (startTime d) (pausedAt d)
    (isScratching d) (currentSample d) (targetSample d)
    (wasPlayingBeforeScratch d) (processor d).
Definition setPlaybackRateState (v : Q) (d : Deck) : Deck :=
  mkDeck (isPlaying d) (currentTime d) (buffer d) (duration d) (cuePoints d)
    (fileName d) (bpm d) v (source d) (startTime d) (pausedAt d)
    (isScratching d) (currentSample d) (targetSample d)
    (wasPlayingBeforeScratch d) (processor d).
Definition set_source (v : option SourceNode) (d : Deck) : Deck :=
  mkDeck (isPlaying d) (currentTime d) (buffer d) (duration d) (cuePoints d)
    (fileName d) (bpm d) (playbackRate d) v (startTime d) (pausedAt d)
    (isScratching d) (currentSample d) (targetSample d)
    (wasPlayingBeforeScratch d) (processor d).
Definition set_startTime (v : Q) (d : Deck) : Deck :=
  mkDeck (isPlaying d) (currentTime d) (buffer d) (duration d) (cuePoints d)
    (fileName d) (bpm d) (playbackRate d) (source d) v (pausedAt d)
    (isScratching d) (currentSample d) (targetSample d)
    (wasPlayingBeforeScratch d) (processor d).
Definition set_pausedAt (v : Q) (d : Deck) : Deck :=
  mkDeck (isPlaying d) (currentTime d) (buffer d) (duration d) (cuePoints d)
    (fileName d) (bpm d) (playbackRate d) (source d) (startTime d) v
    (isScratching d) (currentSample d) (targetSample d)
    (wasPlayingBeforeScratch d) (processor d).
Definition set_isScratching (v : bool) (d : Deck) : Deck :=
  mkDeck (isPlaying d) (currentTime d) (buffer d) (duration d) (cuePoints d)
    (fileName d) (bpm d) (playbackRate d) (source d) (startTime d) (pausedAt d)
    v (currentSample d) (targetSample d)
    (wasPlayingBeforeScratch d) (processor d).
Definition set_currentSample (v : Q) (d : Deck) : Deck :=
  mkDeck (isPlaying d) (currentTime d) (buffer d) (duration d) (cuePoints d)
    (fileName d) (bpm d) (playbackRate d) (source d) (startTime d) (pausedAt d)
    (isScratching d) v (targetSample d)
    (wasPlayingBeforeScratch d) (processor d).
Definition set_targetSample (v : Q) (d : Deck) : Deck :=
  mkDeck (isPlaying d) (currentTime d) (buffer d) (duration d) (cuePoints d)
    (fileName d) (bpm d) (playbackRate d) (source d) (startTime d) (pausedAt d)
    (isScratching d) (currentSample d) v
    (wasPlayingBeforeScratch d) (processor d).
Definition set_wasPlayingBeforeScratch (v : bool) (d : Deck) : Deck :=
  mkDeck (isPlaying d) (currentTime d) (buffer d) (duration d) (cuePoints d)
    (fileName d) (bpm d) (playbackRate d) (source d) (startTime d) (pausedAt d)
    (isScratching d) (currentSample d) (targetSample d)
    v (processor d).
Definition set_processor (v : bool) (d : Deck) : Deck :=
  mkDeck (isPlaying d) (currentTime d) (buffer d) (duration d) (cuePoints d)
    (fileName d) (bpm d) (playbackRate d) (source d) (startTime d) (pausedAt d)
    (isScratching d) (currentSample d) (targetSample d)
    (wasPlayingBeforeScratch d) v.

(** ** Loading a file

    [loadFile] is an [async] function.  [loadFile_sync] is what runs up to
    the first [await]; [loadFile_resume] is the continuation that runs once
    the bytes are read and [decodeAudioData] has settled: the [try] body on
    success, the [catch] body (which only reports the error) on failure. *)

Definition loadFile_sync (f : File) (d : Deck) : Deck :=
  let d := setFileName (Some (file_name f)) d in
  let d := setIsPlaying false d in
  let d := set_isScratching false d in
  match source d with
  | Some _ => set_source None d
  | None => d
  end.

(** The effect on [playbackRate]: the live source, if any, gets the new
    rate, unless a scratch is in progress. *)
Definition playbackRate_effect (d : Deck) : Deck :=
  match source d with
  | Some s =>
      if isScratching d then d
      else set_source (Some (mkSource (src_offset s) (playbackRate d))) d
  | None => d
  end.

Definition setPlaybackRate (value : Q) (d : Deck) : Deck :=
  playbackRate_effect (setPlaybackRateState value d).

Definition loadFile_resume (f : File) (d : Deck) : Deck :=
  match file_decode f with
  | Some decodedBuffer =>
      let d := setBuffer (Some decodedBuffer) d in
      let d := setDuration (buffer_duration decodedBuffer) d in
      let d := set_pausedAt 0 d in
      let d := setCurrentTime 0 d in
      let d := setPlaybackRate 1 d in
      let d := setCuePoints [] d in
      setBpm 0 d
  | None => d
  end.

(** A load that nothing interrupts. *)
Definition loadFile (f : File) (d : Deck) : Deck :=
  loadFile_resume f (loadFile_sync f d).

(** The completion handler of the analysis started by a successful load:
    [detected => setBpm(detected > 0 ? detected : 0)]. *)
Definition onAnalysed (detected : Q) (d : Deck) : Deck :=
  setBpm (if Qgtb detected 0 then detected else 0) d.

(** ** Transport *)

Definition handlePlay (now : Q) (d : Deck) : Deck :=
  match buffer d with
  | None => d
  | Some b =>
      if isPlaying d then d
      else if isScratching d then d
      else
        let offset := pausedAt d in
        let '(d, start) :=
          if Qgeb offset (buffer_duration b)
          then (setCurrentTime 0 (set_pausedAt 0 d), 0)
          else (setCurrentTime offset d, offset) in
        let d := set_source (Some (mkSource start (playbackRate d))) d in
        let d := set_startTime now d in
        setIsPlaying true d
  end.

Definition handlePause (now : Q) (d : Deck) : Deck :=
  if negb (isPlaying d) then d
  else
    let d :=
      match source d with
      | Some _ =>
          let elapsed := (now - startTime d) * playbackRate d in
          let d := set_pausedAt (Math_min (pausedAt d + elapsed) (duration d)) d in
          set_source None d
      | None => d
      end in
    let d := setCurrentTime (pausedAt d) d in
    setIsPlaying false d.

(** One run of the animation-frame callback [update]: the position query. *)
Definition update (now : Q) (d : Deck) : Deck :=
  if isScratching d then
    match buffer d with
    | Some b =>
        let time := currentSample d / inject_Z (sampleRate b) in
        let d := setCurrentTime (Math_max 0 (Math_min time (buffer_duration b))) d in
        set_pausedAt time d
    | None => d
    end
  else if isPlaying d then
    match source d with
    | Some _ =>
        let calculatedTime :=
          pausedAt d + (now - startTime d) * playbackRate d in
        if Qgeb calculatedTime (duration d) && Qgtb (duration d) 0 then
          let d := handlePause now d in
          let d := setCurrentTime 0 d in
          set_pausedAt 0 d
        else setCurrentTime calculatedTime d
    | None => d
    end
  else d.

(** [seek] as a closure: [isPlaying0] is the value of the [isPlaying] cell
    the callback captured when it was created. *)
Definition seek_closure (isPlaying0 : bool) (time now : Q) (d : Deck) : Deck :=
  match buffer d with
  | None => d
  | Some b =>
      let newTime := Math_max 0 (Math_min time (duration d)) in
      if isScratching d then
        set_targetSample (newTime * inject_Z (sampleRate b)) d
      else
        let d := setCurrentTime newTime d in
        let d := set_pausedAt newTime d in
        if isPlaying0 then
          let d := set_source (Some (mkSource newTime (playbackRate d))) d in
          set_startTime now d
        else d
  end.

Definition seek (time now : Q) (d : Deck) : Deck :=
  seek_closure (isPlaying d) time now d.

(** ** Scratch engine *)

Definition startScratch (d : Deck) : Deck :=
  match buffer d with
  | None => d
  | Some b =>
      let wasPlaying := isPlaying d in
      let d := set_wasPlayingBeforeScratch wasPlaying d in
      let d := set_isScratching true d in
      let d :=
        match source d with
        | Some _ => if wasPlaying then set_source None d else d
        | None => d
        end in
      let d := setIsPlaying false d in
      let startSample := pausedAt d * inject_Z (sampleRate b) in
      let d := set_currentSample startSample d in
      let d := set_targetSample startSample d in
      set_processor true d
  end.

Definition stopScratch (now : Q) (d : Deck) : Deck :=
  if negb (isScratching d) then d
  else
    let d := set_processor false d in
    let d := set_isScratching false d in
    let d :=
      match buffer d with
      | Some b =>
          let d := set_pausedAt (currentSample d / inject_Z (sampleRate b)) d in
          setCurrentTime (pausedAt d) d
      | None => d
      end in
    if wasPlayingBeforeScratch d then handlePlay now d else d.

(** The gesture update of the platter: the relative angular motion, already
    converted to a time delta, moves the displayed time. *)
Definition gestureUpdate (timeDelta now : Q) (d : Deck) : Deck :=
  seek (currentTime d + timeDelta) now d.

(** *** The render callback [onaudioprocess] *)

(** The physics of one output frame: move [currentSample] towards
    [targetSample].  [physics_step] is the step in exact arithmetic, the
    position the engine aims at; [physics_step_f64] is the step as the
    engine computes it, each of the three operations on doubles. *)
Definition physics_step (target current : Q) : Q :=
  let diff := target - current in
  let step := diff * (1 # 2) in
  current + step.

Definition physics_step_f64 (target current : Q) : Q :=
  let diff := js_sub target current in
  let step := js_mul diff (1 # 2) in
  js_add current step.

Fixpoint physics_iter (n : nat) (target current : Q) : Q :=
  match n with
  | O => current
  | S n' => physics_iter n' target (physics_step target current)
  end.

(** The position after [n] frames of a render block, on doubles. *)
Fixpoint physics_iter_f64 (n : nat) (target current : Q) : Q :=
  match n with
  | O => current
  | S n' => physics_iter_f64 n' target (physics_step_f64 target current)
  end.

(** Reading a typed array: [None] is JavaScript's [undefined], the result
    of an index outside the array. *)
Definition array_read (a : list Q) (i : Z) : option Q :=
  if (i <? 0)%Z then None else nth_error a (Z.to_nat i).

(** One output frame: the two samples written ([None] would be the [NaN]
    an [undefined] operand produces) and the indices read from the
    buffer's channels. *)
Record Frame := mkFrame {
  outL : option Q;
  outR : option Q;
  reads : list Z
}.

Definition interpolate (chan : list Q) (idxFloor idxCeil : Z) (frac : Q)
  : option Q :=
  match array_read chan idxFloor, array_read chan idxCeil with
  | Some lo, Some hi => Some (lo * (1 - frac) + hi * frac)
  | _, _ => None
  end.

Definition render_frame (b : AudioBuffer) (idx : Q) : Frame :=
  let chanL := getChannelData b 0 in
  let chanR :=
    if (1 <? numberOfChannels b)%nat then getChannelData b 1 else chanL in
  let maxSample := (buffer_length b - 1)%Z in
  if Qltb idx 0 || Qgtb idx (inject_Z maxSample) then
    mkFrame (Some 0) (Some 0) []
  else
    let idxFloor := Math_floor idx in
    let frac := idx - inject_Z idxFloor in
    let idxCeil := Z.min (idxFloor + 1) maxSample in
    mkFrame (interpolate chanL idxFloor idxCeil frac)
            (interpolate chanR idxFloor idxCeil frac)
            [idxFloor; idxCeil].

(** A block of [n] output frames rendered from buffer [b]: the scratch
    state afterwards and the frames written, first frame first. *)
Fixpoint onaudioprocess (b : AudioBuffer) (n : nat) (d : Deck)
  : Deck * list Frame :=
  match n with
  | O => (d, [])
  | S n' =>
      let d := set_currentSample
                 (physics_step (targetSample d) (currentSample d)) d in
      let fr := render_frame b (currentSample d) in
      let '(d', frs) := onaudioprocess b n' d in
      (d', fr :: frs)
  end.

(** ** Cue points *)

(** [Array.prototype.sort] with the comparator [(a, b) => a - b]: a stable
    sort into ascending order. *)
Fixpoint sort_insert (x : Q) (l : list Q) : list Q :=
  match l with
  | [] => [x]
  | y :: l' => if Qle_bool x y then x :: y :: l' else y :: sort_insert x l'
  end.

Fixpoint js_sort (l : list Q) : list Q :=
  match l with
  | [] => []
  | x :: l' => sort_insert x (js_sort l')
  end.

Definition near_cue (t c : Q) : bool := Qltb (Math_abs (c - t)) (1 # 10).

Definition addCuePoint (d : Deck) : Deck :=
  let exists_ := existsb (near_cue (currentTime d)) (cuePoints d) in
  if negb exists_ then
    setCuePoints (js_sort (cuePoints d ++ [currentTime d])) d
  else d.

Definition removeCuePoint (d : Deck) : Deck :=
  setCuePoints
    (filter (fun c => Qgeb (Math_abs (c - currentTime d)) (1 # 10)) (cuePoints d))
    d.

(** The seek target [jumpToNextCue] computes; [currentTime + 0.05] is the
    sum of two doubles. *)
Definition nextCueTarget (cues : list Q) (t : Q) : Q :=
  match cues with
  | [] => 0
  | first :: _ =>
      match find (fun c => Qgtb c (js_add t (js_literal (1 # 20)))) cues with
      | Some nextCue => nextCue
      | None => first
      end
  end.

Definition jumpToNextCue (now : Q) (d : Deck) : Deck :=
  let target := nextCueTarget (cuePoints d) (currentTime d) in
  let wasScratching := isScratching d in
  let isPlaying0 := isPlaying d in
  let d := if wasScratching then stopScratch now d else d in
  seek_closure isPlaying0 target now d.

(** ** BPM estimator ([analyzeBPM]) *)

(** The indices a counting loop [for (i = start; i < stop; i += step)]
    visits, for a positive [step]. *)
Fixpoint count_up (n : nat) (start step : Z) : list Z :=
  match n with
  | O => []
  | S n' => start :: count_up n' (start + step) step
  end.

Definition for_range (start stop step : Z) : list Z :=
  count_up (Z.to_nat ((stop - start + step - 1) / step)) start step.

(** An in-range read of a numeric array. *)
Definition sample (a : list Q) (i : Z) : Q := nth (Z.to_nat i) a 0.

(** [while (c < 70) c *= 2] and [while (c > 160) c /= 2]; [None] when the
    loop is still running after [fuel] iterations. *)
Fixpoint double_while (fuel : nat) (c : Q) : option Q :=
  match fuel with
  | O => if Qltb c 70 then None else Some c
  | S fuel' => if Qltb c 70 then double_while fuel' (js_mul c 2) else Some c
  end.

Fixpoint halve_while (fuel : nat) (c : Q) : option Q :=
  match fuel with
  | O => if Qgtb c 160 then None else Some c
  | S fuel' => if Qgtb c 160 then halve_while fuel' (js_div c 2) else Some c
  end.

(** Step 1: offset of the loudest 10-second window, scanned every two
    seconds on every 100th sample. *)
Definition window_energy (rawData : list Q) (windowSize i : Z) : Q :=
  fold_left (fun sum j => let val := sample rawData (i + j) in sum + val * val)
            (for_range 0 windowSize 100) 0.

Definition loudest_offset (rawData : list Q) (sampleRate : Z) : Z :=
  let windowSize := (sampleRate * 10)%Z in
  let scanStep := (sampleRate * 2)%Z in
  snd (fold_left
         (fun '(maxEnergy, bestOffset) i =>
            let sum := window_energy rawData windowSize i in
            if Qgtb sum maxEnergy then (sum, i) else (maxEnergy, bestOffset))
         (for_range 0 (Z.of_nat (List.length rawData) - windowSize) scanStep)
         (0, 0%Z)).

(** The segment handed to the offline context: [subarray] of the raw data
    copied into a zero-filled buffer of [windowSize] frames. *)
Definition segment (rawData : list Q) (bestOffset windowSize : Z) : list Q :=
  let segmentData :=
    firstn (Z.to_nat windowSize) (skipn (Z.to_nat bestOffset) rawData) in
  segmentData ++ repeat 0 (Z.to_nat windowSize - List.length segmentData).

(** Step 3: rectify and keep every [step]-th sample. *)
Definition envelope (filteredData : list Q) (step : Z) : list Q :=
  map (fun i => Math_abs (sample filteredData i))
      (for_range 0 (Z.of_nat (List.length filteredData)) step).

(** Step 4: the correlation of one lag, and the search over the lags. *)
Definition correlation (downsampled : list Q) (lag : Z) : Q :=
  let len := Z.of_nat (List.length downsampled) in
  let limit := Z.min (len - lag) len in
  fold_left
    (fun correlation i => correlation + sample downsampled i * sample downsampled (i + lag))
    (for_range 0 limit 1) 0.

Definition lag_step (downsampled : list Q) (st : Q * Z) (lag : Z) : Q * Z :=
  let '(maxCorrelation, bestLag) := st in
  let c := correlation downsampled lag in
  if Qgtb c maxCorrelation then (c, lag) else (maxCorrelation, bestLag).

Definition search_lags (downsampled : list Q) (minLag maxLag : Z) : Q * Z :=
  fold_left (lag_step downsampled) (for_range minLag (maxLag + 1) 1) (0, 0%Z).

(** The ends of the lag window; the quotients and the products are the
    rounded ones. *)
Definition minLag_of (effectiveRate : Q) : Z :=
  Math_floor (js_mul effectiveRate (js_div 60 160)).
Definition maxLag_of (effectiveRate : Q) : Z :=
  Math_floor (js_mul effectiveRate (js_div 60 70)).

(** Step 5: lag to tempo, on doubles. *)
Definition lag_to_bpm (fuel : nat) (effectiveRate : Q) (bestLag : Z) : option Q :=
  let calculatedBpm := js_div (js_mul 60 effectiveRate) (inject_Z bestLag) in
  let calculatedBpm := js_div (inject_Z (Math_round (js_mul calculatedBpm 10))) 10 in
  match double_while fuel calculatedBpm with
  | None => None
  | Some c =>
      match halve_while fuel c with
      | None => None
      | Some c => Some (inject_Z (Math_round c))
      end
  end.

(** Steps 3 to 5 on the filtered segment. *)
Definition bpm_of_filtered (fuel : nat) (sampleRate : Z) (filteredData : list Q)
  : option Q :=
  let targetRate := 6000%Z in
  let step := (sampleRate / targetRate)%Z in
  if (step <=? 0)%Z then None (* [i += 0]: the downsampling loop never ends *)
  else
    let downsampled := envelope filteredData step in
    let effectiveRate := js_div (inject_Z sampleRate) (inject_Z step) in
    let '(_, bestLag) :=
      search_lags downsampled (minLag_of effectiveRate) (maxLag_of effectiveRate) in
    if (bestLag =? 0)%Z then Some 0
    else lag_to_bpm fuel effectiveRate bestLag.

Section Estimator.

(** The offline rendering of the selected segment through the cascade
    [highpass 40 Hz, Q = 1] then [lowpass 150 Hz, Q = 1], done by the
    browser's [OfflineAudioContext]: the filtered samples, or [None]
    when rendering fails (the [catch] turns that into 0). *)
Variable startRendering : Z -> list Q -> option (list Q).

(** The filtered segment [analyzeBPM] works on. *)
Definition filtered_segment (b : AudioBuffer) : option (list Q) :=
  let rawData := getChannelData b 0 in
  let sr := sampleRate b in
  let windowSize := (sr * 10)%Z in
  let bestOffset := loudest_offset rawData sr in
  startRendering sr (segment rawData bestOffset windowSize).

(** [analyzeBPM buffer]: [Some v] when the promise resolves with [v]
    within [fuel] iterations of each of the two normalisation loops. *)
Definition analyzeBPM (fuel : nat) (b : AudioBuffer) : option Q :=
  if Qltb (buffer_duration b) 10 then Some 0
  else
    match filtered_segment b with
    | None => Some 0
    | Some filteredData => bpm_of_filtered fuel (sampleRate b) filteredData
    end.

End Estimator.

(** *** The estimator as the specification words it *)


(** [corr_sum env lag n] is the sum of [env[i] * env[i + lag]] for [i < n]. *)
Fixpoint corr_sum (env : list Q) (lag : Z) (n : nat) : Q :=
  match n with
  | O => 0
  | S n' => corr_sum env lag n' + sample env (Z.of_nat n') * sample env (Z.of_nat n' + lag)
  end.

(** The sum over the envelope: every [i] for which both factors exist. *)
Definition corr_ref (env : list Q) (lag : Z) : Q :=
  corr_sum env lag (Z.to_nat (Z.of_nat (List.length env) - lag)).

(** [L] is the best lag of the window [[lo, hi]]: a lag of the window with
    positive correlation that maximises the correlation, the first such
    lag on ties. *)
Definition best_lag (env : list Q) (lo hi L : Z) : Prop :=
  (lo <= L <= hi)%Z /\
  0 < corr_ref env L /\
  (forall l, (lo <= l <= hi)%Z -> corr_ref env l <= corr_ref env L) /\
  (forall l, (lo <= l < L)%Z -> corr_ref env l < corr_ref env L).

(** No lag of the window has positive correlation. *)
Definition no_positive_lag (env : list Q) (lo hi : Z) : Prop :=
  forall l, (lo <= l <= hi)%Z -> corr_ref env l <= 0.

(** [60 * effectiveRate / lag] rounded to one decimal: the product, the
    quotient, the product by 10 and the quotient by 10 are the rounded
    ones. *)
Definition one_decimal_tempo (effectiveRate : Q) (L : Z) : Q :=
  let tempo := js_div (js_mul 60 effectiveRate) (inject_Z L) in
  js_div (inject_Z (Math_round (js_mul tempo 10))) 10.

(** [y] is [x] folded into [[70, 160]]: doubled as long as it is below 70,
    then halved as long as it is above 160. *)
Definition doubled_into (x y : Q) : Prop :=
  exists k : nat,
    y == x * inject_Z (2 ^ Z.of_nat k) /\ ~ y < 70 /\
    forall j : nat, (j < k)%nat -> x * inject_Z (2 ^ Z.of_nat j) < 70.

Definition halved_into (x y : Q) : Prop :=
  exists k : nat,
    y == x / inject_Z (2 ^ Z.of_nat k) /\ ~ 160 < y /\
    forall j : nat, (j < k)%nat -> 160 < x / inject_Z (2 ^ Z.of_nat j).

Definition folded (x y : Q) : Prop :=
  exists m, doubled_into x m /\ halved_into m y.

(** The reference result for an envelope [env] sampled at [effectiveRate],
    of a track lasting [dur] seconds. *)
Definition bpm_reference (env : list Q) (effectiveRate dur : Q) (result : Q) : Prop :=
  let lo := Math_floor (js_mul effectiveRate (js_div 60 160)) in
  let hi := Math_floor (js_mul effectiveRate (js_div 60 70)) in
  (dur < 10 /\ result == 0) \/
  (~ dur < 10 /\ no_positive_lag env lo hi /\ result == 0) \/
  (~ dur < 10 /\
   exists L y,
     best_lag env lo hi L /\
     folded (one_decimal_tempo effectiveRate L) y /\
     result == inject_Z (Math_round y)).

(** Loop invariant of the lag search: the state after the lags [[lo, a)]: nothing found
    while no lag had positive correlation, else the first lag of maximal
    correlation. *)
Definition search_inv (ds : list Q) (lo a : Z) (st : Q * Z) : Prop :=
  (st = (0, 0%Z) /\ forall l, (lo <= l < a)%Z -> correlation ds l <= 0) \/
  ((lo <= snd st < a)%Z /\ fst st = correlation ds (snd st) /\ 0 < fst st /\
   (forall l, (lo <= l < a)%Z -> correlation ds l <= fst st) /\
   (forall l, (lo <= l < snd st)%Z -> correlation ds l < fst st)).

(** ** The deck in its environment

    The deck together with the audio clock and the asynchronous work in
    flight: the loads whose bytes are still being read or decoded, and the
    analyses started by successful loads that have not completed yet. *)
Record World := mkWorld {
  deck : Deck;
  clock : Q;
  decoding : list File;
  analysing : list AudioBuffer
}.

Definition initial_world : World := mkWorld initial_deck 0 [] [].

Inductive Op : Type :=
| OpLoadFile (f : File)               (* [loadFile(f)] up to its first [await] *)
| OpDecodeSettled (i : nat)           (* the [i]-th pending load resumes *)
| OpAnalysisDone (i : nat) (detected : Q)
                                      (* the [i]-th pending analysis resolves *)
| OpPlay
| OpPause
| OpSeek (t : Q)
| OpStartScratch
| OpGesture (timeDelta : Q)
| OpStopScratch
| OpAddCuePoint
| OpRemoveCuePoint
| OpJumpToNextCue
| OpSetPlaybackRate (v : Q)
| OpSetBpm (v : Q)
| OpWait (dt : Q)                     (* the audio clock advances *)
| OpFrame                             (* one animation frame: [update] *)
| OpAudioBlock (n : nat).             (* one render block of [n] frames *)

Fixpoint remove_nth {A : Type} (i : nat) (l : list A) : list A :=
  match l, i with
  | [], _ => []
  | _ :: l', O => l'
  | x :: l', S i' => x :: remove_nth i' l'
  end.

Definition on_deck (f : Deck -> Deck) (w : World) : World :=
  mkWorld (f (deck w)) (clock w) (decoding w) (analysing w).

(** One step; [None] when the event cannot happen in [w]. *)
Definition step (w : World) (op : Op) : option World :=
  match op with
  | OpLoadFile f =>
      Some (mkWorld (loadFile_sync f (deck w)) (clock w)
                    (decoding w ++ [f]) (analysing w))
  | OpDecodeSettled i =>
      match nth_error (decoding w) i with
      | None => None
      | Some f =>
          Some (mkWorld (loadFile_resume f (deck w)) (clock w)
                        (remove_nth i (decoding w))
                        (match file_decode f with
                         | Some b => analysing w ++ [b]
                         | None => analysing w
                         end))
      end
  | OpAnalysisDone i detected =>
      match nth_error (analysing w) i with
      | None => None
      | Some _ =>
          Some (mkWorld (onAnalysed detected (deck w)) (clock w)
                        (decoding w) (remove_nth i (analysing w)))
      end
  | OpPlay => Some (on_deck (handlePlay (clock w)) w)
  | OpPause => Some (on_deck (handlePause (clock w)) w)
  | OpSeek t => Some (on_deck (seek t (clock w)) w)
  | OpStartScratch => Some (on_deck startScratch w)
  | OpGesture dt => Some (on_deck (gestureUpdate dt (clock w)) w)
  | OpStopScratch => Some (on_deck (stopScratch (clock w)) w)
  | OpAddCuePoint => Some (on_deck addCuePoint w)
  | OpRemoveCuePoint => Some (on_deck removeCuePoint w)
  | OpJumpToNextCue => Some (on_deck (jumpToNextCue (clock w)) w)
  | OpSetPlaybackRate v => Some (on_deck (setPlaybackRate v) w)
  | OpSetBpm v => Some (on_deck (setBpm v) w)
  | OpWait dt =>
      if Qle_bool 0 dt
      then Some (mkWorld (deck w) (clock w + dt) (decoding w) (analysing w))
      else None
  | OpFrame => Some (on_deck (update (clock w)) w)
  | OpAudioBlock n =>
      if processor (deck w) then
        match buffer (deck w) with
        | Some b => Some (on_deck (fun d => fst (onaudioprocess b n d)) w)
        | None => None
        end
      else None
  end.

Fixpoint run (w : World) (ops : list Op) : option World :=
  match ops with
  | [] => Some w
  | op :: ops' =>
      match step w op with
      | Some w' => run w' ops'
      | None => None
      end
  end.

Definition reachable (w : World) : Prop :=
  exists ops, run initial_world ops = Some w.

(** The cue lists the cue operations can produce: from the empty list of
    a fresh or freshly loaded deck, [addCuePoint] and [removeCuePoint] at
    any current time. *)
Inductive cue_reachable : list Q -> Prop :=
| cue_init : cue_reachable []
| cue_add : forall d,
    cue_reachable (cuePoints d) -> cue_reachable (cuePoints (addCuePoint d))
| cue_remove : forall d,
    cue_reachable (cuePoints d) -> cue_reachable (cuePoints (removeCuePoint d)).

(** No two entries of [l] are within 0.1 s of each other. *)
Definition separated (l : list Q) : Prop :=
  ForallOrdPairs (fun a b => ~ Qabs (a - b) < 1 # 10) l.

(** Clamping into [[lo, hi]]. *)
Definition clamp (t lo hi : Q) : Q := Qmax lo (Qmin t hi).

(** *** Runs without overlap

    In a sequential run every load has settled before anything else
    happens, every decoded buffer is one the Web Audio API can produce,
    and the rate set is positive. *)
Definition wf_file (f : File) : Prop :=
  match file_decode f with
  | Some b => wf_buffer b
  | None => True
  end.

Definition plain_op (op : Op) : Prop :=
  match op with
  | OpLoadFile _ | OpDecodeSettled _ => False
  | OpSetPlaybackRate v => 0 < v
  | _ => True
  end.

Inductive sequential : list Op -> Prop :=
| sequential_nil : sequential []
| sequential_load : forall f ops,
    wf_file f -> sequential ops ->
    sequential (OpLoadFile f :: OpDecodeSettled 0 :: ops)
| sequential_plain : forall op ops,
    plain_op op -> sequential ops -> sequential (op :: ops).

(** The invariant of the deck at clock reading [now]. *)
Definition deck_inv (now : Q) (d : Deck) : Prop :=
  (0 <= currentTime d /\ currentTime d <= duration d) /\
  (0 <= pausedAt d /\ pausedAt d <= duration d) /\
  0 < playbackRate d /\
  (isPlaying d = true -> startTime d <= now) /\
  match buffer d with
  | None => isPlaying d = false /\ isScratching d = false
  | Some b =>
      wf_buffer b /\ duration d = buffer_duration b /\
      (isScratching d = true ->
       (0 <= currentSample d /\
        currentSample d <= duration d * inject_Z (sampleRate b)) /\
       (0 <= targetSample d /\
        targetSample d <= duration d * inject_Z (sampleRate b)))
  end.

Definition world_inv (w : World) : Prop :=
  deck_inv (clock w) (deck w) /\ decoding w = [].


(** ** EQ and volume ([setEQ], [setVolume])

    The parameters of the deck's audio nodes that the hook writes: the
    gains, in dB, of the three EQ filters, the gain of the volume stage
    and the gain of the crossfade stage. *)
Inductive Band : Type := Low | Mid | High.

Definition Band_eqb (x y : Band) : bool :=
  match x, y with
  | Low, Low | Mid, Mid | High, High => true
  | _, _ => false
  end.

Record DeckNodes := mkDeckNodes {
  highFilter_gain : Q;
  midFilter_gain : Q;
  lowFilter_gain : Q;
  volumeNode_gain : Q;
  gainNode_gain : Q
}.

(** The nodes as the Web Audio API creates them: filter gains 0 dB, gain
    nodes at 1. *)
Definition initial_nodes : DeckNodes := mkDeckNodes 0 0 0 1 1.

Definition setEQ (type : Band) (value : Q) (r : DeckNodes) : DeckNodes :=
  let db := (value - (1 # 2)) * 30 in
  let r := if Band_eqb type High
           then mkDeckNodes db (midFilter_gain r) (lowFilter_gain r)
                            (volumeNode_gain r) (gainNode_gain r)
           else r in
  let r := if Band_eqb type Mid
           then mkDeckNodes (highFilter_gain r) db (lowFilter_gain r)
                            (volumeNode_gain r) (gainNode_gain r)
           else r in
  if Band_eqb type Low
  then mkDeckNodes (highFilter_gain r) (midFilter_gain r) db
                   (volumeNode_gain r) (gainNode_gain r)
  else r.

(** The gain, in dB, of the filter of a band. *)
Definition band_gain (type : Band) (r : DeckNodes) : Q :=
  match type with
  | High => highFilter_gain r
  | Mid => midFilter_gain r
  | Low => lowFilter_gain r
  end.

Definition setVolume (value : Q) (r : DeckNodes) : DeckNodes :=
  mkDeckNodes (highFilter_gain r) (midFilter_gain r) (lowFilter_gain r)
              value (gainNode_gain r).

(** ** The mixer ([src/App.tsx]) *)

Inductive DeckId : Type := DeckA | DeckB.

Record EQState := mkEQ { eq_high : Q; eq_mid : Q; eq_low : Q }.

Definition setEQState (band : Band) (val : Q) (prev : EQState) : EQState :=
  match band with
  | High => mkEQ val (eq_mid prev) (eq_low prev)
  | Mid => mkEQ (eq_high prev) val (eq_low prev)
  | Low => mkEQ (eq_high prev) (eq_mid prev) val
  end.

Record Mixer := mkMixer {
  crossfaderValue : Q;
  eqA : EQState;
  eqB : EQState;
  volA : Q;
  volB : Q;
  nodesA : DeckNodes;
  nodesB : DeckNodes
}.

Definition GAIN_SCALER : Q := 1 / (3 # 4).

Definition set_gainNode (v : Q) (r : DeckNodes) : DeckNodes :=
  mkDeckNodes (highFilter_gain r) (midFilter_gain r) (lowFilter_gain r)
              (volumeNode_gain r) v.

Definition updateCrossfader (value : Q) (m : Mixer) : Mixer :=
  mkMixer value (eqA m) (eqB m) (volA m) (volB m)
          (set_gainNode (1 - value) (nodesA m))
          (set_gainNode value (nodesB m)).

Definition handleEqChange (deck : DeckId) (band : Band) (val : Q) (m : Mixer)
  : Mixer :=
  match deck with
  | DeckA => mkMixer (crossfaderValue m) (setEQState band val (eqA m)) (eqB m)
                     (volA m) (volB m) (setEQ band val (nodesA m)) (nodesB m)
  | DeckB => mkMixer (crossfaderValue m) (eqA m) (setEQState band val (eqB m))
                     (volA m) (volB m) (nodesA m) (setEQ band val (nodesB m))
  end.

Definition deck_nodes (deck : DeckId) (m : Mixer) : DeckNodes :=
  match deck with
  | DeckA => nodesA m
  | DeckB => nodesB m
  end.

Definition handleVolumeChange (deck : DeckId) (val : Q) (m : Mixer) : Mixer :=
  let scaledGain := val * GAIN_SCALER in
  match deck with
  | DeckA => mkMixer (crossfaderValue m) (eqA m) (eqB m) val (volB m)
                     (setVolume scaledGain (nodesA m)) (nodesB m)
  | DeckB => mkMixer (crossfaderValue m) (eqA m) (eqB m) (volA m) val
                     (nodesA m) (setVolume scaledGain (nodesB m))
  end.

(** The mixer once both decks' nodes are connected: the state defaults,
    with the crossfader and the volumes applied to the nodes. *)
Definition initial_mixer : Mixer :=
  let eq := mkEQ (1 # 2) (1 # 2) (1 # 2) in
  let m := mkMixer (1 # 2) eq eq (3 # 4) (3 # 4) initial_nodes initial_nodes in
  let m := updateCrossfader (crossfaderValue m) m in
  mkMixer (crossfaderValue m) (eqA m) (eqB m) (volA m) (volB m)
          (setVolume (volA m * GAIN_SCALER) (nodesA m))
          (setVolume (volB m * GAIN_SCALER) (nodesB m)).

(** ** Controls: crossfader and knob *)

(** A bounding rectangle, as [getBoundingClientRect] returns it. *)
Record Rect := mkRect {
  rect_left : Q;
  rect_top : Q;
  rect_width : Q;
  rect_height : Q
}.

(** [Crossfader.handleMove]: the value passed to [onChange], [None] when
    the track element is absent and nothing is called. *)
Definition crossfader_handleMove (trackRef : option Rect) (clientX : Q)
  : option Q :=
  match trackRef with
  | None => None
  | Some rect =>
      let x := clientX - rect_left rect in
      let newValue := x / rect_width rect in
      Some (Math_max 0 (Math_min 1 newValue))
  end.

(** The fill bar of the crossfader, in percent of the track. *)
Definition fillLeft (value : Q) : Q :=
  if Qltb value (1 # 2) then value * 100 else 50.
Definition fillWidth (value : Q) : Q := Math_abs (value - (1 # 2)) * 100.

(** The drag state of a knob. *)
Record KnobDrag := mkKnobDrag {
  knob_isDragging : bool;
  startYRef : Q;
  startValueRef : Q
}.

Definition knob_rotation (value min max : Q) : Q :=
  let normalizedValue := (value - min) / (max - min) in
  normalizedValue * 270 - 135.

Definition knob_handleStart (clientY value : Q) : KnobDrag :=
  mkKnobDrag true clientY value.

(** [Knob.handleMove]: the value passed to [onChange], if any. *)
Definition knob_handleMove (min max : Q) (k : KnobDrag) (clientY : Q)
  : option Q :=
  if negb (knob_isDragging k) then None
  else
    let deltaY := startYRef k - clientY in
    let change := (deltaY / 200) * (max - min) in
    let newValue := startValueRef k + change in
    Some (Math_max min (Math_min max newValue)).

(** ** The deck component (platter, tempo slider, tap and cue buttons) *)

Definition Math_PI : Q := 884279719003555 # 281474976710656.
Definition SECONDS_PER_REVOLUTION : Q := 18 # 10.
Definition PITCH_RANGE : Q := 8 # 100.

(** The rotation of the platter drawn for a current time, in degrees. *)
Definition currentRotation (d : Deck) : Q :=
  (currentTime d / SECONDS_PER_REVOLUTION) * 360.

(** The tempo shown: [None] is the placeholder [--]. *)
Definition effectiveBpm (d : Deck) : Q :=
  if Qeq_bool (bpm d) 0 then 0 else js_mul (bpm d) (playbackRate d).

Definition displayedBpm (d : Deck) : option Z :=
  if Qgtb (effectiveBpm d) 0 then Some (Math_round (effectiveBpm d)) else None.

(** The local state of the component: the scrub flag, the last pointer
    angle, the tap times (milliseconds) and the armed cue timer, whose
    callback holds the deck state of the render in which it was armed. *)
Record DeckUI := mkDeckUI {
  isScrubbing : bool;
  lastAngleRef : Q;
  tapTimesRef : list Q;
  cueTimerRef : option Deck
}.

Definition initial_ui : DeckUI := mkDeckUI false 0 [] None.

(** The angular step of a platter move: the difference of the pointer
    angles, brought back across the [+-pi] seam of [atan2]. *)
Definition lp_delta (currentAngle lastAngle : Q) : Q :=
  let delta := currentAngle - lastAngle in
  let delta := if Qgtb delta Math_PI then delta - 2 * Math_PI else delta in
  if Qltb delta (- Math_PI) then delta + 2 * Math_PI else delta.

Definition lp_timeDelta (delta : Q) : Q :=
  (delta / (2 * Math_PI)) * SECONDS_PER_REVOLUTION.

(** [handleLpDown], [handleLpMove], [handleLpUp]; the pointer angle is
    what [getAngle] computed for the event. *)
Definition handleLpDown (angle : Q) (s : DeckUI * Deck) : DeckUI * Deck :=
  let '(ui, d) := s in
  match buffer d with
  | None => s
  | Some _ =>
      (mkDeckUI true angle (tapTimesRef ui) (cueTimerRef ui), startScratch d)
  end.

Definition handleLpMove (currentAngle now : Q) (s : DeckUI * Deck)
  : DeckUI * Deck :=
  let '(ui, d) := s in
  if negb (isScrubbing ui) then s
  else
    match buffer d with
    | None => s
    | Some _ =>
        let delta := lp_delta currentAngle (lastAngleRef ui) in
        let timeDelta := lp_timeDelta delta in
        (mkDeckUI (isScrubbing ui) currentAngle (tapTimesRef ui) (cueTimerRef ui),
         seek (currentTime d + timeDelta) now d)
    end.

Definition handleLpUp (now : Q) (s : DeckUI * Deck) : DeckUI * Deck :=
  let '(ui, d) := s in
  (mkDeckUI false (lastAngleRef ui) (tapTimesRef ui) (cueTimerRef ui),
   stopScratch now d).

(** [handleTempoMove]: the pointer height on the tempo slider sets the
    rate. *)
Definition tempo_rate (rect : Rect) (clientY : Q) : Q :=
  let relativeY := clientY - rect_top rect in
  let normalized := relativeY / rect_height rect in
  let normalized := Math_max 0 (Math_min 1 normalized) in
  let rangeSpan := PITCH_RANGE * 2 in
  (1 + PITCH_RANGE) - (normalized * rangeSpan).

Definition handleTempoMove (tempoRef : option Rect) (clientY : Q) (d : Deck)
  : Deck :=
  match tempoRef with
  | None => d
  | Some rect => setPlaybackRate (tempo_rate rect clientY) d
  end.

(** Where the slider thumb is drawn, in percent of the slider. *)
Definition sliderPercent (d : Deck) : Q :=
  let sliderRangeSpan := PITCH_RANGE * 2 in
  (((1 + PITCH_RANGE) - playbackRate d) / sliderRangeSpan) * 100.

Definition handlePitchReset (d : Deck) : Deck := setPlaybackRate 1 d.

Definition togglePlay (now : Q) (d : Deck) : Deck :=
  if isPlaying d then handlePause now d else handlePlay now d.

(** [handleTap] at clock reading [now].  Clock readings are whole
    milliseconds ([Date.now()]), whose differences and sums are exact on
    doubles; the three quotients are the rounded ones. *)
Fixpoint interval_sum (times : list Q) : Q :=
  match times with
  | t0 :: ((t1 :: _) as rest) => (t1 - t0) + interval_sum rest
  | _ => 0
  end.

Definition handleTap (now : Q) (s : DeckUI * Deck) : DeckUI * Deck :=
  let '(ui, d) := s in
  let times := tapTimesRef ui in
  let debounced :=
    match rev times with
    | last :: _ => Qltb (now - last) 100
    | [] => false
    end in
  if debounced then s
  else
    let times :=
      match rev times with
      | last :: _ => if Qgtb (now - last) 2000 then [] else times
      | [] => times
      end in
    let times := times ++ [now] in
    let times := if (5 <? List.length times)%nat then tl times else times in
    let ui := mkDeckUI (isScrubbing ui) (lastAngleRef ui) times (cueTimerRef ui) in
    if (1 <? List.length times)%nat then
      let sum := interval_sum times in
      let avg := js_div sum (inject_Z (Z.of_nat (List.length times - 1))) in
      let measuredBpm := js_div 60000 avg in
      let baseBpm := js_div measuredBpm (playbackRate d) in
      (ui, setBpm baseBpm d)
    else (ui, d).






(** ** The waveform display ([src/components/Waveform.tsx]) *)

(** The zoom levels, in seconds of track shown; [None] is [Infinity], the
    whole track. *)
Definition ZOOM_LEVELS : list (option Q) :=
  [Some 5; Some 10; Some 30; Some 60; None].

Definition handleZoomIn (zoomIndex : Z) : Z := Z.max 0 (zoomIndex - 1).
Definition handleZoomOut (zoomIndex : Z) : Z :=
  Z.min (Z.of_nat (List.length ZOOM_LEVELS) - 1) (zoomIndex + 1).

Record WindowParams := mkWindow {
  win_startTime : Q;
  win_endTime : Q;
  win_windowSize : option Q;
  win_duration : Q
}.

(** [getWindowParams] for a zoom level [windowSize]. *)
Definition getWindowParams (windowSize : option Q) (currentTime : Q)
           (buffer : option AudioBuffer) : WindowParams :=
  let duration := match buffer with
                  | Some b => buffer_duration b
                  | None => 1
                  end in
  match windowSize with
  | None => mkWindow 0 duration None duration
  | Some ws =>
      let halfWindow := ws / 2 in
      let startTime := currentTime - halfWindow in
      let endTime := currentTime + halfWindow in
      let '(startTime, endTime) :=
        if Qltb startTime 0 then (0, ws) else (startTime, endTime) in
      let '(startTime, endTime) :=
        if Qgtb endTime duration
        then (Math_max 0 (duration - ws), duration)
        else (startTime, endTime) in
      mkWindow startTime endTime (Some ws) duration
  end.

(** [timeToX]: the canvas abscissa of a time in the window. *)
Definition timeToX (startTime endTime width t : Q) : Q :=
  let range := endTime - startTime in
  if Qle_bool range 0 then 0 else ((t - startTime) / range) * width.

(** [handleDragMove]: the time passed to [onSeek] for a pointer at
    [clientX], [None] when nothing is called; [lastX] is the abscissa of
    the previous event and [width] the canvas width. *)
Definition handleDragMove (isDragging : bool) (buffer : option AudioBuffer)
           (windowSize : option Q) (width lastX clientX currentTime : Q)
  : option Q :=
  if negb isDragging then None
  else
    match buffer with
    | None => None
    | Some _ =>
        let deltaX := lastX - clientX in
        let w := getWindowParams windowSize currentTime buffer in
        let effectiveWindow :=
          match win_windowSize w with
          | None => win_duration w
          | Some ws => ws
          end in
        let timeDelta := (deltaX / width) * effectiveWindow in
        Some (Math_max 0 (Math_min (win_duration w) (currentTime + timeDelta)))
    end.

(** The length of track [getWindowParams] selects for a zoom level, and
    for a zoom index; an index outside [ZOOM_LEVELS] selects nothing. *)
Definition window_length (level : option Q) (currentTime : Q)
           (b : AudioBuffer) : Q :=
  let w := getWindowParams level currentTime (Some b) in
  win_endTime w - win_startTime w.

Definition window_shown (zoomIndex : Z) (currentTime : Q) (b : AudioBuffer)
  : option Q :=
  if (zoomIndex <? 0)%Z then None
  else option_map (fun level => window_length level currentTime b)
         (nth_error ZOOM_LEVELS (Z.to_nat zoomIndex)).

(** A sequence of taps, one [handleTap] per clock reading. *)
Definition tap_run (clock : list Q) (s : DeckUI * Deck) : DeckUI * Deck :=
  fold_left (fun s now => handleTap now s) clock s.

(** [n] clock readings [delta] milliseconds apart, the first at [t0]. *)
Definition even_taps (t0 delta : Q) (n : nat) : list Q :=
  map (fun i => t0 + inject_Z (Z.of_nat i) * delta) (seq 0 n).

(** Consecutive readings of [times] are [delta] apart. *)
Fixpoint evenly (delta : Q) (times : list Q) : Prop :=
  match times with
  | t0 :: ((t1 :: _) as rest) => t1 - t0 == delta /\ evenly delta rest
  | _ => True
  end.

(** The tap times kept once [now] is pushed on [times]: the last five. *)
Definition kept_taps (times : list Q) (now : Q) : list Q :=
  let times := times ++ [now] in
  if (5 <? List.length times)%nat then tl times else times.

(** ** Sample inputs

    A silent one-channel buffer of [frames] frames sampled at 1 Hz, a file
    that decodes to it and a file that does not decode. *)
Definition demo_buffer (frames : nat) : AudioBuffer :=
  mkAudioBuffer 1 [repeat 0 frames].
Definition demo_file (name : string) (frames : nat) : File :=
  mkFile name (Some (demo_buffer frames)).
Definition broken_file (name : string) : File := mkFile name None.

(** A four-frame stereo buffer sampled at 1 Hz, and a deck scratching on
    it whose target is three frames ahead of its position. *)
Definition stereo_buffer : AudioBuffer :=
  mkAudioBuffer 1 [[1; 2; 3; 4]; [5; 6; 7; 8]].
Definition scratching_deck : Deck :=
  set_targetSample 3
    (startScratch (loadFile (mkFile "s.wav" (Some stereo_buffer)) initial_deck)).

(** A deck with cue points at 1 s and 3 s whose current time is 2 s. *)
Definition cue_deck : Deck :=
  setCurrentTime 2
    (addCuePoint (setCurrentTime 1 (addCuePoint (setCurrentTime 3 initial_deck)))).

Definition silent_track : AudioBuffer :=
  mkAudioBuffer 6000 [repeat 0 (Z.to_nat 60000)].
Definition passthrough_rendering (sr : Z) (seg : list Q) : option (list Q) :=
  Some seg.

(** The run that reloads during a scratch: a 100 s track is loaded and
    sought to 50 s; a 10 s track is then loaded, the platter is touched
    while it decodes and released once it has. *)
Definition reload_during_scratch : list Op :=
  [OpLoadFile (demo_file "long.wav" 100); OpDecodeSettled 0; OpSeek 50;
   OpLoadFile (demo_file "short.wav" 10); OpStartScratch;
   OpDecodeSettled 0; OpStopScratch].

(** The run that loads a 100 s track, sets cues at 10 s, 20 s and 30 s and
    moves to 25 s. *)
Definition three_cues_run : list Op :=
  [OpLoadFile (demo_file "long.wav" 100); OpDecodeSettled 0;
   OpSeek 10; OpAddCuePoint; OpSeek 20; OpAddCuePoint;
   OpSeek 30; OpAddCuePoint; OpSeek 25].

(** A filtered segment made of impulses of amplitude [amp] every [period]
    samples, [n] samples long. *)
Definition impulse_train (period : Z) (n : nat) (amp : Q) : list Q :=
  map (fun i => if (Z.of_nat i mod period =? 0)%Z then amp else 0) (seq 0 n).


(** * Properties *)

(** ** Comparisons *)

Lemma Qltb_true (x y : Q) : Qltb x y = true <-> x < y.
Proof.
  unfold Qltb. rewrite negb_true_iff.
  split; intro H.
  - apply Qnot_le_lt. intro Hle. apply Qle_bool_iff in Hle. congruence.
  - destruct (Qle_bool y x) eqn:E; [|reflexivity].
    apply Qle_bool_iff in E. exfalso. apply (Qlt_not_le _ _ H E).
Qed.

Lemma Qltb_false (x y : Q) : Qltb x y = false <-> y <= x.
Proof.
  unfold Qltb. rewrite negb_false_iff. apply Qle_bool_iff.
Qed.

Lemma Qgtb_true (x y : Q) : Qgtb x y = true <-> y < x.
Proof. apply Qltb_true. Qed.

Lemma Qgtb_false (x y : Q) : Qgtb x y = false <-> x <= y.
Proof. apply Qltb_false. Qed.

Lemma Qgeb_true (x y : Q) : Qgeb x y = true <-> y <= x.
Proof. apply Qle_bool_iff. Qed.

Lemma Qgeb_false (x y : Q) : Qgeb x y = false <-> x < y.
Proof.
  unfold Qgeb. split; intro H.
  - apply Qnot_le_lt. intro Hle. apply Qle_bool_iff in Hle. congruence.
  - destruct (Qle_bool y x) eqn:E; [|reflexivity].
    apply Qle_bool_iff in E. exfalso. apply (Qlt_not_le _ _ H E).
Qed.

(** ** Binary64 rounding *)

Lemma Qmult_le_nonneg_l (x y z : Q) : 0 <= z -> x <= y -> z * x <= z * y.
Proof.
  intros Hz Hxy. rewrite (Qmult_comm z x), (Qmult_comm z y).
  apply Qmult_le_compat_r; assumption.
Qed.

Lemma Qpow2_pos (e : Z) : 0 < Qpow2 e.
Proof. unfold Qpow2. apply Qpower_0_lt. reflexivity. Qed.

Lemma Qpow2_add (a b : Z) : Qpow2 (a + b) == Qpow2 a * Qpow2 b.
Proof. unfold Qpow2. apply Qpower_plus. discriminate. Qed.

Lemma Qpow2_sub (a b : Z) : Qpow2 (a - b) == Qpow2 a / Qpow2 b.
Proof. unfold Qpow2. apply Qpower_minus. discriminate. Qed.

Lemma Qpow2_le (a b : Z) : (a <= b)%Z -> Qpow2 a <= Qpow2 b.
Proof. intro H. unfold Qpow2. apply Qpower_le_compat_l; [exact H | discriminate]. Qed.

Lemma Qpow2_lt (a b : Z) : (a < b)%Z -> Qpow2 a < Qpow2 b.
Proof. intro H. unfold Qpow2. apply Qpower_lt_compat_l; [exact H | reflexivity]. Qed.

Lemma Qpow2_lt_inv (a b : Z) : Qpow2 a < Qpow2 b -> (a < b)%Z.
Proof.
  intro H. destruct (Z.lt_ge_cases a b) as [Hlt | Hge]; [exact Hlt|].
  exfalso. apply (Qlt_not_le _ _ H). apply Qpow2_le. exact Hge.
Qed.

Lemma Qpow2_Z (e : Z) : (0 <= e)%Z -> Qpow2 e == inject_Z (2 ^ e).
Proof. intro H. unfold Qpow2. rewrite Zpower_Qpower by exact H. reflexivity. Qed.

Lemma Qpow2_succ (e : Z) : Qpow2 (e + 1) == 2 * Qpow2 e.
Proof. rewrite Qpow2_add. change (Qpow2 1) with 2. ring. Qed.

(** [ilog2] *)
Lemma ilog2_spec (x : Q) :
  0 < x -> Qpow2 (ilog2 x) <= x /\ x < Qpow2 (ilog2 x + 1).
Proof.
  intro Hx. destruct x as [n d]. unfold ilog2. cbn [Qnum Qden].
  assert (Hn : (0 < n)%Z).
  { unfold Qlt in Hx. cbn in Hx. lia. }
  set (a := Z.log2 n). set (b := Z.log2 (Zpos d)).
  destruct (Z.log2_spec n Hn) as [Ha1 Ha2]. fold a in Ha1, Ha2.
  destruct (Z.log2_spec (Zpos d) (Pos2Z.is_pos d)) as [Hb1 Hb2].
  fold b in Hb1, Hb2.
  assert (Ha0 : (0 <= a)%Z) by apply Z.log2_nonneg.
  assert (Hb0 : (0 <= b)%Z) by apply Z.log2_nonneg.
  assert (Hx' : n # d == inject_Z n / inject_Z (Zpos d)) by apply Qmake_Qdiv.
  assert (Hd : 0 < inject_Z (Zpos d)) by reflexivity.
  assert (Qa1 : Qpow2 a <= inject_Z n).
  { rewrite (Qpow2_Z a Ha0), <- Zle_Qle. exact Ha1. }
  assert (Qa2 : inject_Z n < Qpow2 (a + 1)).
  { rewrite (Qpow2_Z (a + 1)) by lia. rewrite <- Zlt_Qlt. exact Ha2. }
  assert (Qb1 : Qpow2 b <= inject_Z (Zpos d)).
  { rewrite (Qpow2_Z b Hb0), <- Zle_Qle. exact Hb1. }
  assert (Qb2 : inject_Z (Zpos d) < Qpow2 (b + 1)).
  { rewrite (Qpow2_Z (b + 1)) by lia. rewrite <- Zlt_Qlt. exact Hb2. }
  pose proof (Qpow2_pos a) as Pa. pose proof (Qpow2_pos b) as Pb.
  pose proof (Qpow2_pos (a - b)) as Pk.
  assert (Hup : n # d < Qpow2 (a - b + 1)).
  { rewrite Hx'. apply Qlt_shift_div_r; [exact Hd|].
    rewrite Qpow2_succ, Qpow2_sub. rewrite Qpow2_succ in Qa2.
    apply Qlt_le_trans with (2 * Qpow2 a); [exact Qa2|].
    assert (E : 2 * (Qpow2 a / Qpow2 b) * inject_Z (Z.pos d)
                == 2 * Qpow2 a * (inject_Z (Z.pos d) / Qpow2 b)) by (field; lra).
    rewrite E. assert (H1 : 1 <= inject_Z (Z.pos d) / Qpow2 b).
    { apply Qle_shift_div_l; lra. }
    nra. }
  assert (Hlow : Qpow2 (a - b - 1) <= n # d).
  { rewrite Hx'. apply Qle_shift_div_l; [exact Hd|].
    rewrite Qpow2_succ in Qb2.
    assert (E : Qpow2 (a - b - 1) == Qpow2 a / (2 * Qpow2 b)).
    { replace (a - b - 1)%Z with (a - (b + 1))%Z by lia.
      rewrite Qpow2_sub, Qpow2_succ. reflexivity. }
    rewrite E.
    assert (H1 : inject_Z (Z.pos d) / (2 * Qpow2 b) <= 1).
    { apply Qle_shift_div_r; lra. }
    assert (E2 : Qpow2 a / (2 * Qpow2 b) * inject_Z (Z.pos d)
                 == Qpow2 a * (inject_Z (Z.pos d) / (2 * Qpow2 b))) by (field; lra).
    rewrite E2. nra. }
  destruct (Qle_bool (Qpow2 (a - b)) (n # d)) eqn:E.
  - apply Qle_bool_iff in E. split; [exact E | exact Hup].
  - split; [exact Hlow|].
    replace (a - b - 1 + 1)%Z with (a - b)%Z by lia.
    apply Qnot_le_lt. intro H. apply Qle_bool_iff in H. congruence.
Qed.

Lemma ilog2_unique (x : Q) (k : Z) :
  Qpow2 k <= x -> x < Qpow2 (k + 1) -> ilog2 x = k.
Proof.
  intros H1 H2.
  assert (Hx : 0 < x) by (pose proof (Qpow2_pos k); lra).
  destruct (ilog2_spec x Hx) as [S1 S2].
  assert (A : (ilog2 x < k + 1)%Z) by (apply Qpow2_lt_inv; lra).
  assert (B : (k < ilog2 x + 1)%Z) by (apply Qpow2_lt_inv; lra).
  lia.
Qed.

Lemma ilog2_comp (x y : Q) : 0 < x -> x == y -> ilog2 x = ilog2 y.
Proof.
  intros Hx He. destruct (ilog2_spec x Hx) as [S1 S2].
  symmetry. apply ilog2_unique; rewrite <- He; assumption.
Qed.

Lemma ilog2_mono (x y : Q) : 0 < x -> x <= y -> (ilog2 x <= ilog2 y)%Z.
Proof.
  intros Hx Hle. destruct (ilog2_spec x Hx) as [S1 _].
  destruct (ilog2_spec y) as [_ T2]; [lra|].
  assert (A : (ilog2 x < ilog2 y + 1)%Z) by (apply Qpow2_lt_inv; lra).
  lia.
Qed.

(** rounding to the nearest integer, ties to even *)
Lemma rhe_bounds (x : Q) :
  inject_Z (round_half_even x) - (1 # 2) <= x /\
  x <= inject_Z (round_half_even x) + (1 # 2).
Proof.
  unfold round_half_even.
  pose proof (Qfloor_le x) as H1. pose proof (Qlt_floor x) as H2.
  rewrite inject_Z_plus in H2. change (inject_Z 1) with 1 in H2.
  destruct (Qcompare_spec (x - inject_Z (Qfloor x)) (1 # 2)) as [E | E | E].
  - destruct (Z.even (Qfloor x)).
    + lra.
    + rewrite inject_Z_plus. change (inject_Z 1) with 1. lra.
  - lra.
  - rewrite inject_Z_plus. change (inject_Z 1) with 1. lra.
Qed.

Lemma rhe_comp (x y : Q) : x == y -> round_half_even x = round_half_even y.
Proof.
  intro He. unfold round_half_even.
  rewrite (Qfloor_comp x y He).
  assert (Hc : Qcompare (x - inject_Z (Qfloor y)) (1 # 2)
               = Qcompare (y - inject_Z (Qfloor y)) (1 # 2)).
  { apply Qcompare_comp; [rewrite He; reflexivity | reflexivity]. }
  rewrite Hc. reflexivity.
Qed.

Lemma rhe_Z (x : Q) (n : Z) : x == inject_Z n -> round_half_even x = n.
Proof.
  intro He. rewrite (rhe_comp x (inject_Z n) He).
  unfold round_half_even. rewrite Qfloor_Z.
  destruct (Qcompare_spec (inject_Z n - inject_Z n) (1 # 2)) as [E | E | E].
  - exfalso. lra.
  - reflexivity.
  - exfalso. lra.
Qed.

Lemma rhe_mono (x y : Q) : x <= y -> (round_half_even x <= round_half_even y)%Z.
Proof.
  intro Hle.
  pose proof (Qfloor_resp_le x y Hle) as Hf.
  pose proof (rhe_bounds x) as Bx. pose proof (rhe_bounds y) as By.
  unfold round_half_even in *.
  pose proof (Qfloor_le x) as X1. pose proof (Qlt_floor x) as X2.
  pose proof (Qfloor_le y) as Y1. pose proof (Qlt_floor y) as Y2.
  rewrite inject_Z_plus in X2, Y2. change (inject_Z 1) with 1 in X2, Y2.
  destruct (Z.eq_dec (Qfloor x) (Qfloor y)) as [Ef | Nf].
  - rewrite Ef in *.
    destruct (Qcompare_spec (x - inject_Z (Qfloor y)) (1 # 2)) as [E | E | E];
      destruct (Qcompare_spec (y - inject_Z (Qfloor y)) (1 # 2)) as [F | F | F];
      try lia; try (destruct (Z.even (Qfloor y)); lia); exfalso; lra.
  - assert (Hlt : (Qfloor x + 1 <= Qfloor y)%Z) by lia.
    assert (A : (match Qcompare (x - inject_Z (Qfloor x)) (1 # 2) with
                 | Eq => if Z.even (Qfloor x) then Qfloor x else (Qfloor x + 1)%Z
                 | Lt => Qfloor x
                 | Gt => (Qfloor x + 1)%Z
                 end <= Qfloor x + 1)%Z).
    { destruct (Qcompare (x - inject_Z (Qfloor x)) (1 # 2));
        try destruct (Z.even (Qfloor x)); lia. }
    assert (B : (Qfloor y <= match Qcompare (y - inject_Z (Qfloor y)) (1 # 2) with
                 | Eq => if Z.even (Qfloor y) then Qfloor y else (Qfloor y + 1)%Z
                 | Lt => Qfloor y
                 | Gt => (Qfloor y + 1)%Z
                 end)%Z).
    { destruct (Qcompare (y - inject_Z (Qfloor y)) (1 # 2));
        try destruct (Z.even (Qfloor y)); lia. }
    lia.
Qed.

(** [fl_pos] *)
Lemma fexp_ge (x : Q) : (-1074 <= fexp x)%Z /\ (ilog2 x - 52 <= fexp x)%Z.
Proof. unfold fexp. lia. Qed.

Lemma fexp_comp (x y : Q) : 0 < x -> x == y -> fexp x = fexp y.
Proof. intros Hx He. unfold fexp. rewrite (ilog2_comp x y Hx He). reflexivity. Qed.

Lemma fexp_mono (x y : Q) : 0 < x -> x <= y -> (fexp x <= fexp y)%Z.
Proof. intros Hx Hle. unfold fexp. pose proof (ilog2_mono x y Hx Hle). lia. Qed.

Lemma fl_pos_comp (x y : Q) : 0 < x -> x == y -> fl_pos x = fl_pos y.
Proof.
  intros Hx He. unfold fl_pos. rewrite (fexp_comp x y Hx He).
  rewrite (rhe_comp (x / Qpow2 (fexp y)) (y / Qpow2 (fexp y))); [reflexivity|].
  rewrite He. reflexivity.
Qed.

(** The scaled significand of a positive number is below [2^53], and at
    least [2^52] unless the exponent is the least one. *)
Lemma scaled_lt (x : Q) :
  0 < x -> x / Qpow2 (fexp x) < inject_Z (2 ^ 53).
Proof.
  intro Hx. destruct (ilog2_spec x Hx) as [_ S2].
  destruct (fexp_ge x) as [_ He].
  pose proof (Qpow2_pos (fexp x)) as Hp.
  apply Qlt_shift_div_r; [exact Hp|].
  rewrite <- (Qpow2_Z 53) by lia. rewrite <- Qpow2_add.
  apply Qlt_le_trans with (Qpow2 (ilog2 x + 1)); [exact S2|].
  apply Qpow2_le. lia.
Qed.

Lemma scaled_ge (x : Q) :
  0 < x -> (-1074 <= ilog2 x - 52)%Z -> inject_Z (2 ^ 52) <= x / Qpow2 (fexp x).
Proof.
  intros Hx Hn. destruct (ilog2_spec x Hx) as [S1 _].
  assert (He : fexp x = (ilog2 x - 52)%Z) by (unfold fexp; lia).
  pose proof (Qpow2_pos (fexp x)) as Hp.
  apply Qle_shift_div_l; [exact Hp|].
  rewrite <- (Qpow2_Z 52) by lia. rewrite <- Qpow2_add, He.
  replace (52 + (ilog2 x - 52))%Z with (ilog2 x) by lia. exact S1.
Qed.

Lemma significand_range (x : Q) :
  0 < x ->
  (0 <= round_half_even (x / Qpow2 (fexp x)) <= 2 ^ 53)%Z.
Proof.
  intro Hx. pose proof (Qpow2_pos (fexp x)) as Hp. split.
  - rewrite <- (rhe_Z 0 0) by reflexivity. apply rhe_mono.
    apply Qle_shift_div_l; lra.
  - rewrite <- (rhe_Z (inject_Z (2 ^ 53)) (2 ^ 53)) by reflexivity.
    apply rhe_mono. apply Qlt_le_weak. apply scaled_lt. exact Hx.
Qed.

Lemma fl_pos_nonneg (x : Q) : 0 < x -> 0 <= fl_pos x.
Proof.
  intro Hx. unfold fl_pos.
  destruct (significand_range x Hx) as [H0 _].
  pose proof (Qpow2_pos (fexp x)) as Hp.
  rewrite Zle_Qle in H0. change (inject_Z 0) with 0 in H0. nra.
Qed.

(** [fl] by cases *)
Lemma fl_of_pos (x : Q) : 0 < x -> fl x == fl_pos x.
Proof.
  intro Hx. unfold fl.
  destruct (Qcompare_spec x 0) as [E | E | E]; try (exfalso; lra).
  apply Qred_correct.
Qed.

Lemma fl_of_neg (x : Q) : x < 0 -> fl x == - fl_pos (- x).
Proof.
  intro Hx. unfold fl.
  destruct (Qcompare_spec x 0) as [E | E | E]; try (exfalso; lra).
  apply Qred_correct.
Qed.

Lemma fl_of_zero (x : Q) : x == 0 -> fl x = 0.
Proof.
  intro Hx. unfold fl.
  destruct (Qcompare_spec x 0) as [E | E | E]; try (exfalso; lra).
  reflexivity.
Qed.

Lemma fl_comp (x y : Q) : x == y -> fl x = fl y.
Proof.
  intro He. unfold fl. rewrite (Qcompare_comp x y He 0 0 (Qeq_refl 0)).
  destruct (Qcompare_spec y 0) as [E | E | E]; [reflexivity | |].
  - apply Qred_complete.
    rewrite (fl_pos_comp (- x) (- y)); [reflexivity | lra | rewrite He; reflexivity].
  - apply Qred_complete.
    rewrite (fl_pos_comp x y); [reflexivity | lra | exact He].
Qed.

#[global] Instance fl_proper : Proper (Qeq ==> Qeq) fl.
Proof. intros x y He. rewrite (fl_comp x y He). reflexivity. Qed.

Lemma fl_opp (x : Q) : fl (- x) == - fl x.
Proof.
  destruct (Q_dec x 0) as [[H | H] | H].
  - rewrite (fl_of_pos (- x)) by lra. rewrite (fl_of_neg x H). ring.
  - rewrite (fl_of_neg (- x)) by lra. rewrite (fl_of_pos x H).
    rewrite (fl_pos_comp (- - x) x); [reflexivity | lra | ring].
  - rewrite (fl_of_zero x H). rewrite (fl_of_zero (- x)) by lra. reflexivity.
Qed.

Lemma fl_nonneg (x : Q) : 0 <= x -> 0 <= fl x.
Proof.
  intro Hx. destruct (Qle_lt_or_eq _ _ Hx) as [H | H].
  - rewrite (fl_of_pos x H). apply fl_pos_nonneg. exact H.
  - rewrite (fl_of_zero x) by (symmetry; exact H). lra.
Qed.

(** Exactness on representable numbers *)
Lemma fl_pos_exact (m e : Z) :
  (0 < m <= 2 ^ 53)%Z -> (-1074 <= e)%Z ->
  fl_pos (inject_Z m * Qpow2 e) == inject_Z m * Qpow2 e.
Proof.
  intros Hm He.
  set (x := inject_Z m * Qpow2 e).
  pose proof (Qpow2_pos e) as Pe.
  assert (Hm0 : 0 < inject_Z m).
  { change 0 with (inject_Z 0). rewrite <- Zlt_Qlt. lia. }
  assert (Hx : 0 < x) by (unfold x; nra).
  destruct (ilog2_spec x Hx) as [S1 S2].
  pose proof (Qpow2_pos (fexp x)) as Pf.
  (* the scaled significand is an integer [N] *)
  assert (HN : exists N : Z, x / Qpow2 (fexp x) == inject_Z N).
  { destruct (Z.eq_dec m (2 ^ 53)) as [Em | Nm].
    - assert (Ex : x == Qpow2 (e + 53)).
      { unfold x. rewrite Em, Qpow2_add, (Qpow2_Z 53) by lia. ring. }
      assert (El : ilog2 x = (e + 53)%Z).
      { apply ilog2_unique.
        - rewrite Ex. apply Qle_refl.
        - rewrite Ex. apply Qpow2_lt. lia. }
      assert (Ef : fexp x = (e + 1)%Z) by (unfold fexp; lia).
      exists (2 ^ 52)%Z. rewrite Ef, Ex.
      rewrite <- Qpow2_sub. replace (e + 53 - (e + 1))%Z with 52%Z by lia.
      apply Qpow2_Z. lia.
    - assert (Hlt : x < Qpow2 (e + 53)).
      { unfold x. rewrite Qpow2_add, (Qpow2_Z 53) by lia.
        assert (inject_Z m < inject_Z (2 ^ 53)) by (rewrite <- Zlt_Qlt; lia).
        nra. }
      assert (Hl : (ilog2 x < e + 53)%Z) by (apply Qpow2_lt_inv; lra).
      assert (Hf : (fexp x <= e)%Z) by (unfold fexp; lia).
      exists (m * 2 ^ (e - fexp x))%Z.
      rewrite inject_Z_mult, <- (Qpow2_Z (e - fexp x)) by lia.
      rewrite Qpow2_sub.
      set (F := Qpow2 (fexp x)) in *. clearbody F. unfold x. field. lra. }
  destruct HN as [N HN].
  unfold fl_pos. fold x. rewrite (rhe_Z _ N HN), <- HN.
  set (F := Qpow2 (fexp x)) in *. clearbody F. field. lra.
Qed.

Lemma fl_exact (m e : Z) :
  (Z.abs m <= 2 ^ 53)%Z -> (-1074 <= e)%Z ->
  fl (inject_Z m * Qpow2 e) == inject_Z m * Qpow2 e.
Proof.
  intros Hm He. pose proof (Qpow2_pos e) as Pe.
  destruct (Z.lt_trichotomy m 0) as [Hn | [Hz | Hp]].
  - assert (Hm0 : inject_Z m < 0).
    { change 0 with (inject_Z 0). rewrite <- Zlt_Qlt. exact Hn. }
    rewrite fl_of_neg by nra.
    assert (E : - (inject_Z m * Qpow2 e) == inject_Z (- m) * Qpow2 e).
    { rewrite inject_Z_opp. ring. }
    assert (Hpos : 0 < - (inject_Z m * Qpow2 e)) by nra.
    rewrite (fl_pos_comp _ _ Hpos E).
    assert (Hm' : (0 < - m <= 2 ^ 53)%Z) by lia.
    rewrite (fl_pos_exact _ _ Hm' He). rewrite inject_Z_opp. ring.
  - subst m. rewrite fl_of_zero; [ring | ring].
  - assert (Hm0 : 0 < inject_Z m).
    { change 0 with (inject_Z 0). rewrite <- Zlt_Qlt. exact Hp. }
    rewrite fl_of_pos by nra. apply fl_pos_exact; lia.
Qed.

Lemma fl_Z (n : Z) : (Z.abs n <= 2 ^ 53)%Z -> fl (inject_Z n) == inject_Z n.
Proof.
  intro H.
  assert (E : inject_Z n == inject_Z n * Qpow2 0) by (change (Qpow2 0) with 1; ring).
  rewrite E at 1. rewrite fl_exact by lia. symmetry. exact E.
Qed.

Lemma fl_pow2 (k : Z) : (-1074 <= k)%Z -> fl (Qpow2 k) == Qpow2 k.
Proof.
  intro H.
  assert (E : Qpow2 k == inject_Z 1 * Qpow2 k) by (change (inject_Z 1) with 1; ring).
  rewrite E at 1. rewrite fl_exact by (cbn; lia). symmetry. exact E.
Qed.

(** The result of a rounding is representable. *)
Lemma fl_representable (x : Q) :
  exists m e, (Z.abs m <= 2 ^ 53)%Z /\ (-1074 <= e)%Z /\
              fl x == inject_Z m * Qpow2 e.
Proof.
  destruct (Q_dec x 0) as [[H | H] | H].
  - assert (Hp : 0 < - x) by lra.
    destruct (significand_range (- x) Hp) as [H0 H1].
    exists (- round_half_even (- x / Qpow2 (fexp (- x))))%Z, (fexp (- x)).
    split; [lia|]. split; [apply fexp_ge|].
    rewrite (fl_of_neg x H). unfold fl_pos. rewrite inject_Z_opp. ring.
  - destruct (significand_range x H) as [H0 H1].
    exists (round_half_even (x / Qpow2 (fexp x))), (fexp x).
    split; [lia|]. split; [apply fexp_ge|].
    rewrite (fl_of_pos x H). reflexivity.
  - exists 0%Z, 0%Z. split; [cbn; lia|]. split; [lia|].
    rewrite (fl_of_zero x H). reflexivity.
Qed.

Lemma fl_idempotent (x : Q) : fl (fl x) == fl x.
Proof.
  destruct (fl_representable x) as (m & e & Hm & He & Hx).
  rewrite Hx. apply fl_exact; assumption.
Qed.

(** Monotonicity *)
Lemma fl_pos_mono (x y : Q) : 0 < x -> x <= y -> fl_pos x <= fl_pos y.
Proof.
  intros Hx Hle. assert (Hy : 0 < y) by lra.
  pose proof (fexp_mono x y Hx Hle) as He.
  pose proof (Qpow2_pos (fexp x)) as Px. pose proof (Qpow2_pos (fexp y)) as Py.
  unfold fl_pos.
  destruct (Z.eq_dec (fexp x) (fexp y)) as [E | N].
  - rewrite E.
    assert (Hs : x / Qpow2 (fexp y) <= y / Qpow2 (fexp y)).
    { apply Qle_shift_div_l; [exact Py|].
      assert (E2 : x / Qpow2 (fexp y) * Qpow2 (fexp y) == x) by (field; lra).
      rewrite E2. exact Hle. }
    apply rhe_mono in Hs. rewrite Zle_Qle in Hs. nra.
  - assert (Hlt : (fexp x + 1 <= fexp y)%Z) by lia.
    destruct (fexp_ge x) as [Hx1 _].
    assert (Hny : (-1074 <= ilog2 y - 52)%Z) by (unfold fexp in *; lia).
    pose proof (scaled_ge y Hy Hny) as Hsy.
    destruct (significand_range x Hx) as [_ Hsx].
    assert (Hry : (2 ^ 52 <= round_half_even (y / Qpow2 (fexp y)))%Z).
    { rewrite <- (rhe_Z (inject_Z (2 ^ 52)) (2 ^ 52)) by reflexivity.
      apply rhe_mono. exact Hsy. }
    rewrite Zle_Qle in Hsx, Hry.
    apply Qle_trans with (inject_Z (2 ^ 53) * Qpow2 (fexp x)); [nra|].
    apply Qle_trans with (inject_Z (2 ^ 52) * Qpow2 (fexp y)); [|nra].
    rewrite <- (Qpow2_Z 53), <- (Qpow2_Z 52) by lia.
    rewrite <- !Qpow2_add. apply Qpow2_le. lia.
Qed.

Lemma fl_mono (x y : Q) : x <= y -> fl x <= fl y.
Proof.
  intro Hle.
  destruct (Q_dec x 0) as [[Hx | Hx] | Hx];
    destruct (Q_dec y 0) as [[Hy | Hy] | Hy]; try (exfalso; lra).
  - rewrite (fl_of_neg x Hx), (fl_of_neg y Hy).
    assert (H : fl_pos (- y) <= fl_pos (- x)) by (apply fl_pos_mono; lra).
    lra.
  - rewrite (fl_of_neg x Hx). pose proof (fl_nonneg y ltac:(lra)).
    pose proof (fl_pos_nonneg (- x) ltac:(lra)). lra.
  - rewrite (fl_of_neg x Hx), (fl_of_zero y Hy).
    pose proof (fl_pos_nonneg (- x) ltac:(lra)). lra.
  - rewrite (fl_of_pos x Hx), (fl_of_pos y Hy). apply fl_pos_mono; assumption.
  - rewrite (fl_of_zero x Hx). apply fl_nonneg. lra.
  - rewrite (fl_of_zero x Hx), (fl_of_zero y Hy). lra.
Qed.

(** Doubling a double is exact, and so is halving one that is not
    subnormal. *)
Lemma fl_twice (x : Q) : is_double x -> fl (x * 2) == x * 2.
Proof.
  intro Hx. unfold is_double in Hx.
  destruct (fl_representable x) as (m & e & Hm & He & Hr). rewrite Hx in Hr.
  assert (E : x * 2 == inject_Z m * Qpow2 (e + 1)).
  { rewrite Hr, Qpow2_succ. ring. }
  rewrite (fl_comp _ _ E). rewrite fl_exact by lia. symmetry. exact E.
Qed.

Lemma fl_half (x : Q) :
  is_double x -> Qpow2 (-1021) <= x -> fl (x / 2) == x / 2.
Proof.
  intros Hx Hn. unfold is_double in Hx.
  assert (Hpos : 0 < x) by (pose proof (Qpow2_pos (-1021)); lra).
  destruct (ilog2_spec x Hpos) as [_ S2].
  assert (Hl : (-1021 <= ilog2 x)%Z).
  { assert ((-1021 < ilog2 x + 1)%Z) by (apply Qpow2_lt_inv; lra). lia. }
  assert (Hf : (-1073 <= fexp x)%Z) by (unfold fexp; lia).
  destruct (significand_range x Hpos) as [R0 R1].
  set (r := round_half_even (x / Qpow2 (fexp x))) in *.
  assert (Er : x == inject_Z r * Qpow2 (fexp x)).
  { rewrite <- Hx at 1. rewrite (fl_of_pos x Hpos). reflexivity. }
  assert (E : x / 2 == inject_Z r * Qpow2 (fexp x - 1)).
  { rewrite Er at 1.
    assert (Ep : Qpow2 (fexp x) == 2 * Qpow2 (fexp x - 1)).
    { rewrite <- Qpow2_succ. apply Qpower_comp; [reflexivity | lia]. }
    rewrite Ep. field. }
  rewrite (fl_comp _ _ E). rewrite fl_exact by lia. symmetry. exact E.
Qed.

(** Three roundings in a row stay within four half-units in the last
    place. *)
Lemma three_roundings (u : Q) :
  0 < u -> u <= 1 # 8 ->
  1 - 4 * u <= (1 - u) * ((1 - u) * (1 - u)) /\
  (1 + u) * ((1 + u) * (1 + u)) <= 1 + 4 * u.
Proof.
  intros H0 H8.
  assert (H1 : u * u <= (1 # 8) * u).
  { apply Qmult_le_compat_r; lra. }
  assert (H1' : 0 <= u * u).
  { apply Qmult_le_0_compat; lra. }
  assert (H2 : u * u * u <= (1 # 8) * u).
  { apply Qle_trans with ((1 # 8) * u * u).
    - apply Qmult_le_compat_r; lra.
    - rewrite <- Qmult_assoc. apply Qmult_le_nonneg_l; lra. }
  assert (H2' : 0 <= u * u * u).
  { apply Qmult_le_0_compat; lra. }
  split; lra.
Qed.

(** Relative error in the normal range *)
Lemma fl_pos_error (x : Q) :
  Qpow2 (-1022) <= x ->
  Qabs (fl_pos x - x) <= x * Qpow2 (-53).
Proof.
  intro Hn. assert (Hx : 0 < x) by (pose proof (Qpow2_pos (-1022)); lra).
  assert (Hl : (-1022 <= ilog2 x)%Z).
  { destruct (ilog2_spec x Hx) as [_ S2].
    assert ((-1022 < ilog2 x + 1)%Z) by (apply Qpow2_lt_inv; lra). lia. }
  assert (Hs := scaled_ge x Hx ltac:(lia)).
  pose proof (Qpow2_pos (fexp x)) as Pf.
  set (p := Qpow2 (fexp x)) in *. set (m := x / p) in *.
  destruct (rhe_bounds m) as [B1 B2].
  assert (Ex : x == m * p) by (unfold m; field; lra).
  unfold fl_pos. fold p. fold m.
  set (r := inject_Z (round_half_even m)) in *.
  assert (E53 : Qpow2 (-53) * inject_Z (2 ^ 52) == 1 # 2) by reflexivity.
  assert (Hb : (1 # 2) * p <= x * Qpow2 (-53)).
  { rewrite Ex. pose proof (Qpow2_pos (-53)) as P53.
    assert (H : (1 # 2) <= m * Qpow2 (-53)) by nra. nra. }
  apply Qabs_Qle_condition. split.
  - rewrite Ex at 2. nra.
  - rewrite Ex at 1. nra.
Qed.

Lemma fl_error (x : Q) :
  Qpow2 (-1022) <= x ->
  x * (1 - Qpow2 (-53)) <= fl x /\ fl x <= x * (1 + Qpow2 (-53)).
Proof.
  intro Hn. assert (Hx : 0 < x) by (pose proof (Qpow2_pos (-1022)); lra).
  rewrite (fl_of_pos x Hx).
  pose proof (fl_pos_error x Hn) as H. apply Qabs_Qle_condition in H.
  split; lra.
Qed.


(** ** Transport *)

(** C7: on a paused, non-scratching deck with a buffer, [seek t] sets
    [pausedAt] to [t] clamped into [[0, duration]], and the position query
    that follows returns that same value. *)
Theorem seek_paused_yields_clamp :
  forall (d : Deck) (b : AudioBuffer) (t now now' : Q),
    buffer d = Some b ->
    isPlaying d = false ->
    isScratching d = false ->
    pausedAt (seek t now d) = clamp t 0 (duration d) /\
    currentTime (seek t now d) = clamp t 0 (duration d) /\
    currentTime (update now' (seek t now d)) = clamp t 0 (duration d) /\
    pausedAt (update now' (seek t now d)) = clamp t 0 (duration d).
Proof.
  intros d b t now now' Hb Hp Hs.
  unfold seek, seek_closure, update. rewrite Hb, Hs, Hp. cbn.
  rewrite Hs, Hp. cbn. repeat split; reflexivity.
Qed.

Lemma seek_paused_yields_clamp_witness :
  let d := seek 3 0 (loadFile (demo_file "a.wav" 10) initial_deck) in
  pausedAt (seek 25 0 d) = clamp 25 0 (duration d) /\
  currentTime (seek 25 0 d) = clamp 25 0 (duration d) /\
  currentTime (update 7 (seek 25 0 d)) = clamp 25 0 (duration d) /\
  pausedAt (update 7 (seek 25 0 d)) = clamp 25 0 (duration d).
Proof.
  exact (seek_paused_yields_clamp
           (seek 3 0 (loadFile (demo_file "a.wav" 10) initial_deck))
           (demo_buffer 10) 25 0 7 eq_refl eq_refl eq_refl).
Defined.

(** ** Loading *)

(** What a successful decode leaves behind. *)
Lemma loadFile_resume_decoded (f : File) (b : AudioBuffer) (d : Deck) :
  file_decode f = Some b ->
  let d' := loadFile_resume f d in
  buffer d' = Some b /\ duration d' = buffer_duration b /\
  pausedAt d' = 0 /\ currentTime d' = 0 /\ playbackRate d' = 1 /\
  cuePoints d' = [] /\ bpm d' = 0 /\
  isPlaying d' = isPlaying d /\ isScratching d' = isScratching d /\
  startTime d' = startTime d /\
  currentSample d' = currentSample d /\ targetSample d' = targetSample d /\
  wasPlayingBeforeScratch d' = wasPlayingBeforeScratch d /\
  processor d' = processor d /\ fileName d' = fileName d /\
  (source d = None -> source d' = None).
Proof.
  intro Hf. unfold loadFile_resume. rewrite Hf.
  unfold setPlaybackRate, playbackRate_effect.
  destruct d as [ip ct bu du cu fn bp pr [s|] st pa [|] cs ts wp pc];
    cbv; repeat split; try reflexivity; discriminate.
Qed.

(** C2, as amended: a load whose decode fails keeps [buffer], [duration],
    [cuePoints], [playbackRate], [bpm], [pausedAt] and [currentTime], but
    it has already taken the file's name, cleared [isPlaying] and the
    scratch flag and dropped the live source. *)
Theorem loadFile_decode_failure :
  forall (d : Deck) (f : File),
    file_decode f = None ->
    let d' := loadFile f d in
    buffer d' = buffer d /\ duration d' = duration d /\
    cuePoints d' = cuePoints d /\ playbackRate d' = playbackRate d /\
    bpm d' = bpm d /\ pausedAt d' = pausedAt d /\
    currentTime d' = currentTime d /\
    fileName d' = Some (file_name f) /\
    isPlaying d' = false /\ isScratching d' = false /\ source d' = None.
Proof.
  intros d f Hf. unfold loadFile, loadFile_resume. rewrite Hf.
  unfold loadFile_sync. cbn.
  destruct (source d) eqn:Hs; cbn; rewrite ?Hs; repeat split; reflexivity.
Qed.

Lemma loadFile_decode_failure_witness :
  let d := handlePlay 0 (loadFile (demo_file "a.wav" 10) initial_deck) in
  let d' := loadFile (broken_file "b.txt") d in
  buffer d' = buffer d /\ duration d' = duration d /\
  cuePoints d' = cuePoints d /\ playbackRate d' = playbackRate d /\
  bpm d' = bpm d /\ pausedAt d' = pausedAt d /\
  currentTime d' = currentTime d /\
  fileName d' = Some "b.txt"%string /\
  isPlaying d' = false /\ isScratching d' = false /\ source d' = None.
Proof.
  exact (loadFile_decode_failure
           (handlePlay 0 (loadFile (demo_file "a.wav" 10) initial_deck))
           (broken_file "b.txt") eq_refl).
Defined.

(** C2 fails as stated: a playing deck showing "a.wav" is, after the
    failed load of "b.txt", stopped and showing "b.txt". *)
Lemma loadFile_decode_failure_mutates :
  let d := handlePlay 0 (loadFile (demo_file "a.wav" 10) initial_deck) in
  let d' := loadFile (broken_file "b.txt") d in
  file_decode (broken_file "b.txt") = None /\
  fileName d = Some "a.wav"%string /\ fileName d' = Some "b.txt"%string /\
  isPlaying d = true /\ isPlaying d' = false /\
  ~ (fileName d' = fileName d /\ isPlaying d' = isPlaying d).
Proof.
  cbn. repeat split; try reflexivity.
  intros [_ H]. discriminate H.
Qed.

(** ** Changing the rate while playing *)

Lemma setPlaybackRate_fields (v : Q) (d : Deck) :
  pausedAt (setPlaybackRate v d) = pausedAt d /\
  startTime (setPlaybackRate v d) = startTime d /\
  duration (setPlaybackRate v d) = duration d /\
  isPlaying (setPlaybackRate v d) = isPlaying d /\
  isScratching (setPlaybackRate v d) = isScratching d /\
  playbackRate (setPlaybackRate v d) = v /\
  currentTime (setPlaybackRate v d) = currentTime d.
Proof.
  unfold setPlaybackRate, playbackRate_effect. cbn.
  destruct (source d); [destruct (isScratching d) eqn:E|]; cbn;
    rewrite ?E; repeat split; reflexivity.
Qed.

(** The position a playing deck reports when polled at [now]. *)
Lemma update_playing (now : Q) (d : Deck) (s : SourceNode) :
  isPlaying d = true -> isScratching d = false -> source d = Some s ->
  pausedAt d + (now - startTime d) * playbackRate d < duration d ->
  currentTime (update now d) = pausedAt d + (now - startTime d) * playbackRate d.
Proof.
  intros Hp Hs Hsrc Hlt. unfold update. rewrite Hs, Hp, Hsrc.
  apply Qgeb_false in Hlt. rewrite Hlt. reflexivity.
Qed.

(** C1, as amended: on a playing, non-scratching deck [setPlaybackRate v]
    touches only the rate (the state cell and the parameter of the live
    source, which is not restarted; [pausedAt] and [startTime] stay), and
    the position query right after it returns
    [pausedAt + (now - startTime) * v]: the whole time elapsed since play
    started is re-scaled by the new rate.  It equals the position reported
    right before the change exactly when no time has elapsed or the rate
    did not change. *)
Theorem setPlaybackRate_position :
  forall (d : Deck) (s : SourceNode) (v now : Q),
    isPlaying d = true ->
    isScratching d = false ->
    source d = Some s ->
    let d' := setPlaybackRate v d in
    let elapsed := now - startTime d in
    source d' = Some (mkSource (src_offset s) v) /\
    pausedAt d' = pausedAt d /\ startTime d' = startTime d /\
    isPlaying d' = true /\ playbackRate d' = v /\
    (pausedAt d + elapsed * v < duration d ->
     currentTime (update now d') = pausedAt d + elapsed * v) /\
    (pausedAt d + elapsed * v < duration d ->
     pausedAt d + elapsed * playbackRate d < duration d ->
     (currentTime (update now d') == currentTime (update now d) <->
      elapsed == 0 \/ v == playbackRate d)).
Proof.
  intros d s v now Hp Hs Hsrc d' elapsed.
  assert (Hsrc' : source d' = Some (mkSource (src_offset s) v)).
  { unfold d', setPlaybackRate, playbackRate_effect. cbn.
    rewrite Hsrc, Hs. reflexivity. }
  destruct (setPlaybackRate_fields v d) as (Hpa & Hst & Hdu & Hpl & Hsc & Hra & _).
  fold d' in Hpa, Hst, Hdu, Hpl, Hsc, Hra.
  assert (Hq : pausedAt d + elapsed * v < duration d ->
               currentTime (update now d') = pausedAt d + elapsed * v).
  { intro Hlt.
    rewrite (update_playing now d' (mkSource (src_offset s) v)).
    - rewrite Hpa, Hst, Hra. reflexivity.
    - congruence.
    - congruence.
    - exact Hsrc'.
    - rewrite Hpa, Hst, Hra, Hdu. exact Hlt. }
  repeat split; try assumption; try congruence.
  - intro Heq. rewrite (Hq H) in Heq.
    rewrite (update_playing now d s Hp Hs Hsrc H0) in Heq.
    fold elapsed in Heq.
    assert (Hz : elapsed * (v - playbackRate d) == 0) by lra.
    apply Qmult_integral in Hz. destruct Hz as [Hz | Hz]; [left; exact Hz | right; lra].
  - intro Hor. rewrite (Hq H).
    rewrite (update_playing now d s Hp Hs Hsrc H0). fold elapsed.
    destruct Hor as [Hz | Hz]; rewrite Hz; lra.
Qed.

Lemma setPlaybackRate_position_witness :
  let d := handlePlay 0 (loadFile (demo_file "a.wav" 100) initial_deck) in
  let d' := setPlaybackRate 2 d in
  source d' = Some (mkSource 0 2) /\
  pausedAt d' = pausedAt d /\ startTime d' = startTime d /\
  isPlaying d' = true /\ playbackRate d' = 2 /\
  (pausedAt d + (10 - startTime d) * 2 < duration d ->
   currentTime (update 10 d') = pausedAt d + (10 - startTime d) * 2) /\
  (pausedAt d + (10 - startTime d) * 2 < duration d ->
   pausedAt d + (10 - startTime d) * playbackRate d < duration d ->
   (currentTime (update 10 d') == currentTime (update 10 d) <->
    10 - startTime d == 0 \/ 2 == playbackRate d)).
Proof.
  exact (setPlaybackRate_position
           (handlePlay 0 (loadFile (demo_file "a.wav" 100) initial_deck))
           (mkSource 0 1) 2 10 eq_refl eq_refl eq_refl).
Defined.

(** C1 fails as stated: a deck playing from 0 at rate 1 reports position
    10 after ten seconds; right after [setPlaybackRate 2], at the same
    instant, it reports 20. *)
Lemma setPlaybackRate_position_jumps :
  let d := handlePlay 0 (loadFile (demo_file "a.wav" 100) initial_deck) in
  isPlaying d = true /\ isScratching d = false /\
  playbackRate d = 1 /\ duration d == 100 /\
  currentTime (update 10 d) == 10 /\
  currentTime (update 10 (setPlaybackRate 2 d)) == 20 /\
  ~ currentTime (update 10 (setPlaybackRate 2 d)) == currentTime (update 10 d).
Proof.
  vm_compute. repeat split; try reflexivity; intro H; discriminate H.
Qed.

(** ** Completion of the BPM analysis *)

(** C3, as amended: the completion of a pending analysis always stores
    what it detected (0 when that is not positive), whatever buffer is
    loaded by then; nothing discards the analyses of earlier loads, which
    stay pending across a later load.  The only reset is that of a
    successful decode, which sets [bpm] to 0 before its own analysis
    starts. *)
Theorem analysis_completion_always_applied :
  forall (w : World) (i : nat) (b : AudioBuffer) (detected : Q),
    nth_error (analysing w) i = Some b ->
    (exists w',
        step w (OpAnalysisDone i detected) = Some w' /\
        bpm (deck w') = (if Qgtb detected 0 then detected else 0) /\
        buffer (deck w') = buffer (deck w) /\
        analysing w' = remove_nth i (analysing w)) /\
    (forall (j : nat) (f : File) (b' : AudioBuffer),
        nth_error (decoding w) j = Some f ->
        file_decode f = Some b' ->
        exists w',
          step w (OpDecodeSettled j) = Some w' /\
          buffer (deck w') = Some b' /\ bpm (deck w') = 0 /\
          analysing w' = analysing w ++ [b']).
Proof.
  intros w i b detected Hi. split.
  - exists (mkWorld (onAnalysed detected (deck w)) (clock w) (decoding w)
                    (remove_nth i (analysing w))).
    split; [unfold step; rewrite Hi; reflexivity|].
    repeat split; reflexivity.
  - intros j f b' Hj Hf.
    exists (mkWorld (loadFile_resume f (deck w)) (clock w)
                    (remove_nth j (decoding w)) (analysing w ++ [b'])).
    split; [unfold step; rewrite Hj, Hf; reflexivity|].
    cbn [deck analysing].
    destruct (loadFile_resume_decoded f b' (deck w) Hf)
      as (Hb & _ & _ & _ & _ & _ & Hbpm & _).
    repeat split; assumption.
Qed.

Lemma analysis_completion_always_applied_witness :
  exists w,
    run initial_world
        [OpLoadFile (demo_file "one.wav" 10); OpDecodeSettled 0;
         OpLoadFile (demo_file "two.wav" 20)] = Some w /\
    (exists w',
        step w (OpAnalysisDone 0 90) = Some w' /\
        bpm (deck w') = 90 /\
        buffer (deck w') = buffer (deck w) /\
        analysing w' = remove_nth 0 (analysing w)) /\
    (forall (j : nat) (f : File) (b' : AudioBuffer),
        nth_error (decoding w) j = Some f ->
        file_decode f = Some b' ->
        exists w',
          step w (OpDecodeSettled j) = Some w' /\
          buffer (deck w') = Some b' /\ bpm (deck w') = 0 /\
          analysing w' = analysing w ++ [b']).
Proof.
  eexists. split; [reflexivity|].
  apply (analysis_completion_always_applied _ 0 (demo_buffer 10) 90).
  reflexivity.
Defined.

(** C3 fails as stated: "one.wav" is loaded, then "two.wav"; the analysis
    of the second buffer completes with 128, after which the superseded
    analysis of the first buffer completes with 90 and overwrites it,
    while the second buffer is the one loaded. *)
Lemma stale_analysis_overwrites_bpm :
  exists w w',
    run initial_world
        [OpLoadFile (demo_file "one.wav" 10); OpDecodeSettled 0;
         OpLoadFile (demo_file "two.wav" 20); OpDecodeSettled 0;
         OpAnalysisDone 1 128] = Some w /\
    reachable w /\
    buffer (deck w) = Some (demo_buffer 20) /\
    nth_error (analysing w) 0 = Some (demo_buffer 10) /\
    demo_buffer 10 <> demo_buffer 20 /\
    bpm (deck w) = 128 /\
    step w (OpAnalysisDone 0 90) = Some w' /\
    buffer (deck w') = Some (demo_buffer 20) /\
    bpm (deck w') = 90 /\
    ~ bpm (deck w') == bpm (deck w).
Proof.
  eexists. eexists. split; [vm_compute; reflexivity|].
  split.
  { exists [OpLoadFile (demo_file "one.wav" 10); OpDecodeSettled 0;
            OpLoadFile (demo_file "two.wav" 20); OpDecodeSettled 0;
            OpAnalysisDone 1 128].
    vm_compute. reflexivity. }
  split; [reflexivity|]. split; [reflexivity|].
  split; [discriminate|]. split; [reflexivity|].
  split; [vm_compute; reflexivity|]. split; [reflexivity|]. split; [reflexivity|].
  vm_compute. intro H. discriminate H.
Qed.

(** ** The scratch engine's render procedure *)

Lemma array_read_in_range (a : list Q) (i : Z) :
  (0 <= i < Z.of_nat (List.length a))%Z ->
  array_read a i = Some (sample a i).
Proof.
  intros [H0 H1]. unfold array_read, sample.
  destruct (Z.ltb_spec i 0); [lia|].
  apply nth_error_nth'. lia.
Qed.

Lemma wf_buffer_right_channel (b : AudioBuffer) :
  wf_buffer b ->
  Z.of_nat (List.length
              (if (1 <? numberOfChannels b)%nat
               then getChannelData b 1 else getChannelData b 0))
  = buffer_length b.
Proof.
  intros (_ & _ & Hall).
  destruct (Nat.ltb_spec 1 (numberOfChannels b)) as [Hn | Hn]; [|reflexivity].
  rewrite Forall_forall in Hall. apply Hall.
  unfold getChannelData. apply nth_In. exact Hn.
Qed.

Lemma floor_in_range (idx : Q) (m : Z) :
  0 <= idx -> idx <= inject_Z m -> (0 <= Qfloor idx <= m)%Z.
Proof.
  intros H0 Hm. split.
  - change 0%Z with (Qfloor 0). apply Qfloor_resp_le. exact H0.
  - rewrite <- (Qfloor_Z m). apply Qfloor_resp_le. exact Hm.
Qed.

Lemma interpolate_in_range (chan : list Q) (lo hi : Z) (frac : Q) :
  (0 <= lo < Z.of_nat (List.length chan))%Z ->
  (0 <= hi < Z.of_nat (List.length chan))%Z ->
  interpolate chan lo hi frac
  = Some (sample chan lo * (1 - frac) + sample chan hi * frac).
Proof.
  intros Hlo Hhi. unfold interpolate.
  rewrite (array_read_in_range chan lo Hlo), (array_read_in_range chan hi Hhi).
  reflexivity.
Qed.

(** What one frame writes and reads, by the position of [idx]. *)
Lemma render_frame_cases (b : AudioBuffer) (idx : Q) :
  wf_buffer b ->
  let maxSample := (buffer_length b - 1)%Z in
  let chanL := getChannelData b 0 in
  let chanR := if (1 <? numberOfChannels b)%nat
               then getChannelData b 1 else getChannelData b 0 in
  let fr := render_frame b idx in
  (idx < 0 \/ inject_Z maxSample < idx ->
   outL fr = Some 0 /\ outR fr = Some 0 /\ reads fr = []) /\
  (~ (idx < 0 \/ inject_Z maxSample < idx) ->
   let lo := Math_floor idx in
   let hi := Z.min (lo + 1) maxSample in
   let frac := idx - inject_Z lo in
   outL fr = Some (sample chanL lo * (1 - frac) + sample chanL hi * frac) /\
   outR fr = Some (sample chanR lo * (1 - frac) + sample chanR hi * frac) /\
   reads fr = [lo; hi]) /\
  Forall (fun i => (0 <= i <= maxSample)%Z) (reads fr).
Proof.
  intros Hwf maxSample chanL chanR fr.
  pose proof (wf_buffer_right_channel b Hwf) as HlenR. fold chanR in HlenR.
  assert (HlenL : Z.of_nat (List.length chanL) = buffer_length b) by reflexivity.
  destruct Hwf as (_ & Hlen & _).
  unfold fr, render_frame.
  change (if (1 <? numberOfChannels b)%nat
          then getChannelData b 1 else getChannelData b 0) with chanR.
  fold maxSample. fold chanL.
  destruct (Qltb idx 0) eqn:E0; cbn [orb].
  - apply Qltb_true in E0. split; [|split].
    + intros _. cbn. auto.
    + intro Hn. exfalso. apply Hn. left. exact E0.
    + cbn. constructor.
  - destruct (Qgtb idx (inject_Z maxSample)) eqn:E1.
    + apply Qgtb_true in E1. split; [|split].
      * intros _. cbn. auto.
      * intro Hn. exfalso. apply Hn. right. exact E1.
      * cbn. constructor.
    + apply Qltb_false in E0. apply Qgtb_false in E1.
      pose proof (floor_in_range idx maxSample E0 E1) as Hfl.
      unfold Math_floor.
      assert (Hhi : (0 <= Z.min (Qfloor idx + 1) maxSample <= maxSample)%Z) by lia.
      split; [|split].
      * intros [H | H]; exfalso.
        -- apply (Qlt_not_le _ _ H E0).
        -- apply (Qlt_not_le _ _ H E1).
      * intros _. cbn [outL outR reads].
        rewrite (interpolate_in_range chanL), (interpolate_in_range chanR);
          rewrite ?HlenL, ?HlenR; unfold maxSample in *; try lia.
        repeat split; reflexivity.
      * cbn [reads]. repeat constructor; lia.
Qed.

Lemma physics_iter_S (n : nat) (target current : Q) :
  physics_iter (S n) target current
  = physics_step target (physics_iter n target current).
Proof.
  revert current. induction n as [|n IH]; intro current; [reflexivity|].
  change (physics_iter (S (S n)) target current)
    with (physics_iter (S n) target (physics_step target current)).
  rewrite IH. reflexivity.
Qed.

(** A block of [n] frames advances [currentSample] by [n] physics steps,
    leaves the target alone, and its [k]-th frame is rendered at the
    position reached after [k + 1] steps. *)
Lemma onaudioprocess_frames (b : AudioBuffer) (n : nat) (d : Deck) :
  currentSample (fst (onaudioprocess b n d))
  = physics_iter n (targetSample d) (currentSample d) /\
  targetSample (fst (onaudioprocess b n d)) = targetSample d /\
  snd (onaudioprocess b n d)
  = map (fun k => render_frame b
                    (physics_iter (S k) (targetSample d) (currentSample d)))
        (seq 0 n).
Proof.
  revert d. induction n as [|n IH]; intro d; [repeat split; reflexivity|].
  cbn [onaudioprocess].
  set (d1 := set_currentSample
               (physics_step (targetSample d) (currentSample d)) d).
  specialize (IH d1).
  destruct (onaudioprocess b n d1) as [d' frs]. cbn [fst snd] in *.
  destruct IH as (Hc & Ht & Hf).
  split; [exact Hc|]. split; [exact Ht|].
  rewrite Hf. cbn [seq map]. f_equal.
  rewrite <- seq_shift, map_map. reflexivity.
Qed.

(** C6: in every frame of a render block, an index [idx] below 0 or above
    [bufferLength - 1] writes 0 to both channels and reads nothing; any
    other index writes the linear interpolation between the samples at
    [floor idx] and [min (floor idx + 1) (bufferLength - 1)], weighted by
    the fractional part; and every index read lies in
    [[0, bufferLength - 1]]. *)
Theorem scratch_render_in_bounds :
  forall (b : AudioBuffer) (n k : nat) (d : Deck) (fr : Frame),
    wf_buffer b ->
    nth_error (snd (onaudioprocess b n d)) k = Some fr ->
    let maxSample := (buffer_length b - 1)%Z in
    let chanL := getChannelData b 0 in
    let chanR := if (1 <? numberOfChannels b)%nat
                 then getChannelData b 1 else getChannelData b 0 in
    let idx := physics_iter (S k) (targetSample d) (currentSample d) in
    (idx < 0 \/ inject_Z maxSample < idx ->
     outL fr = Some 0 /\ outR fr = Some 0 /\ reads fr = []) /\
    (~ (idx < 0 \/ inject_Z maxSample < idx) ->
     let lo := Math_floor idx in
     let hi := Z.min (lo + 1) maxSample in
     let frac := idx - inject_Z lo in
     outL fr = Some (sample chanL lo * (1 - frac) + sample chanL hi * frac) /\
     outR fr = Some (sample chanR lo * (1 - frac) + sample chanR hi * frac) /\
     reads fr = [lo; hi]) /\
    Forall (fun i => (0 <= i <= maxSample)%Z) (reads fr).
Proof.
  intros b n k d fr Hwf Hk.
  destruct (onaudioprocess_frames b n d) as (_ & _ & Hf).
  rewrite Hf in Hk.
  assert (Hlt : (k < n)%nat).
  { assert (Hne : nth_error
                    (map (fun k => render_frame b
                                     (physics_iter (S k) (targetSample d) (currentSample d)))
                         (seq 0 n)) k <> None) by congruence.
    apply nth_error_Some in Hne. rewrite length_map, length_seq in Hne. exact Hne. }
  rewrite nth_error_map, nth_error_seq in Hk.
  destruct (Nat.ltb_spec k n) as [_|Hge]; [|lia].
  cbn in Hk. injection Hk as Hk. subst fr.
  apply render_frame_cases. exact Hwf.
Qed.

Lemma scratch_render_in_bounds_witness :
  let fr := render_frame stereo_buffer (3 # 2) in
  let idx := physics_iter 1 3 0 in
  wf_buffer stereo_buffer /\
  (idx < 0 \/ inject_Z 3 < idx ->
   outL fr = Some 0 /\ outR fr = Some 0 /\ reads fr = []) /\
  (~ (idx < 0 \/ inject_Z 3 < idx) ->
   let lo := Math_floor idx in
   let hi := Z.min (lo + 1) 3 in
   let frac := idx - inject_Z lo in
   outL fr = Some (sample [1; 2; 3; 4] lo * (1 - frac) + sample [1; 2; 3; 4] hi * frac) /\
   outR fr = Some (sample [5; 6; 7; 8] lo * (1 - frac) + sample [5; 6; 7; 8] hi * frac) /\
   reads fr = [lo; hi]) /\
  Forall (fun i => (0 <= i <= 3)%Z) (reads fr).
Proof.
  assert (Hwf : wf_buffer stereo_buffer).
  { unfold wf_buffer. cbn. repeat split; try lia. repeat constructor. }
  split; [exact Hwf|].
  apply (scratch_render_in_bounds stereo_buffer 2 0 scratching_deck
           (render_frame stereo_buffer (3 # 2)) Hwf).
  reflexivity.
Defined.

(** ** The physics of the scratch engine *)

(** In exact arithmetic the position stays between where it was and the
    target. *)
Lemma physics_step_between (target current : Q) :
  Qmin current target <= physics_step target current <= Qmax current target.
Proof.
  unfold physics_step.
  destruct (Qlt_le_dec target current) as [H | H].
  - rewrite (Q.min_r current target), (Q.max_l current target); lra.
  - rewrite (Q.min_l current target), (Q.max_r current target); lra.
Qed.

Lemma physics_iter_between (n : nat) (target current : Q) :
  Qmin current target <= physics_iter n target current <= Qmax current target.
Proof.
  revert current. induction n as [|n IH]; intro current.
  - cbn [physics_iter]. split; [apply Q.le_min_l | apply Q.le_max_l].
  - cbn [physics_iter]. specialize (IH (physics_step target current)).
    pose proof (physics_step_between target current) as Hs.
    set (c1 := physics_step target current) in *. clearbody c1.
    destruct (Qlt_le_dec target current) as [H | H].
    + rewrite (Q.min_r current target), (Q.max_l current target) in * by lra.
      rewrite (Q.min_r c1 target), (Q.max_l c1 target) in IH by lra. lra.
    + rewrite (Q.min_l current target), (Q.max_r current target) in * by lra.
      rewrite (Q.min_l c1 target), (Q.max_r c1 target) in IH by lra. lra.
Qed.

Lemma pow2_pos (n : nat) : 0 < inject_Z (2 ^ Z.of_nat n).
Proof.
  change 0 with (inject_Z 0). rewrite <- Zlt_Qlt.
  apply Z.pow_pos_nonneg; lia.
Qed.

Lemma pow2_succ (n : nat) :
  inject_Z (2 ^ Z.of_nat (S n)) == 2 * inject_Z (2 ^ Z.of_nat n).
Proof.
  rewrite Nat2Z.inj_succ, Z.pow_succ_r by lia.
  rewrite inject_Z_mult. reflexivity.
Qed.

(** *** The step on doubles *)

Lemma physics_iter_f64_S (n : nat) (target current : Q) :
  physics_iter_f64 (S n) target current
  = physics_step_f64 target (physics_iter_f64 n target current).
Proof.
  revert current. induction n as [|n IH]; intro current; [reflexivity|].
  change (physics_iter_f64 (S (S n)) target current)
    with (physics_iter_f64 (S n) target (physics_step_f64 target current)).
  rewrite IH. reflexivity.
Qed.

Lemma physics_step_f64_double (target current : Q) :
  is_double (physics_step_f64 target current).
Proof. apply fl_idempotent. Qed.

Lemma physics_iter_f64_double (n : nat) (target current : Q) :
  is_double current -> is_double (physics_iter_f64 n target current).
Proof.
  intro Hc. destruct n as [|n]; [exact Hc|].
  rewrite physics_iter_f64_S. apply physics_step_f64_double.
Qed.

(** Half the rounded difference, rounded, is not more than the
    difference. *)
Lemma half_step_le (d : Q) :
  0 <= d -> 0 <= fl (fl d * (1 # 2)) /\ fl (fl d * (1 # 2)) <= d.
Proof.
  intro Hd.
  pose proof (fl_nonneg d Hd) as Hg.
  split; [apply fl_nonneg; lra|].
  destruct (Qle_lt_or_eq _ _ Hd) as [Hpos | Hz].
  2:{ rewrite (fl_of_zero d) by (symmetry; exact Hz).
      rewrite (fl_of_zero (0 * (1 # 2))) by reflexivity. exact Hd. }
  destruct (ilog2_spec d Hpos) as [S1 S2].
  destruct (Z.le_gt_cases (-1074) (ilog2 d)) as [Hn | Hs].
  - assert (H1 : fl d <= Qpow2 (ilog2 d + 1)).
    { rewrite <- (fl_pow2 (ilog2 d + 1)) by lia. apply fl_mono. lra. }
    rewrite Qpow2_succ in H1.
    apply Qle_trans with (Qpow2 (ilog2 d)); [|exact S1].
    rewrite <- (fl_pow2 (ilog2 d)) by lia. apply fl_mono. lra.
  - assert (Hlt : d <= Qpow2 (-1074)).
    { apply Qle_trans with (Qpow2 (ilog2 d + 1)); [lra | apply Qpow2_le; lia]. }
    assert (H1 : fl d <= Qpow2 (-1074)).
    { rewrite <- (fl_pow2 (-1074)) by lia. apply fl_mono. exact Hlt. }
    assert (H0 : fl (Qpow2 (-1074) * (1 # 2)) == 0) by (vm_compute; reflexivity).
    apply Qle_trans with 0; [|exact Hd].
    rewrite <- H0. apply fl_mono. lra.
Qed.

Lemma physics_step_f64_below (target current : Q) :
  is_double target -> is_double current -> current <= target ->
  current <= physics_step_f64 target current /\
  physics_step_f64 target current <= target.
Proof.
  intros Ht Hc Hle. unfold physics_step_f64, js_add, js_mul, js_sub.
  destruct (half_step_le (target - current) ltac:(lra)) as [H0 H1].
  set (step := fl (fl (target - current) * (1 # 2))) in *. clearbody step.
  unfold is_double in Ht, Hc. split.
  - apply Qle_trans with (fl current); [rewrite Hc; apply Qle_refl|].
    apply fl_mono. lra.
  - apply Qle_trans with (fl target); [|rewrite Ht; apply Qle_refl].
    apply fl_mono. lra.
Qed.

Lemma physics_step_f64_above (target current : Q) :
  is_double target -> is_double current -> target <= current ->
  target <= physics_step_f64 target current /\
  physics_step_f64 target current <= current.
Proof.
  intros Ht Hc Hle. unfold physics_step_f64, js_add, js_mul, js_sub.
  destruct (half_step_le (current - target) ltac:(lra)) as [H0 H1].
  assert (E1 : fl (target - current) == - fl (current - target)).
  { rewrite <- fl_opp.
    rewrite (fl_comp (target - current) (- (current - target))); [reflexivity | ring]. }
  assert (E2 : fl (fl (target - current) * (1 # 2))
               == - fl (fl (current - target) * (1 # 2))).
  { rewrite <- fl_opp.
    rewrite (fl_comp (fl (target - current) * (1 # 2))
               (- (fl (current - target) * (1 # 2)))); [reflexivity|].
    rewrite E1. ring. }
  rewrite (fl_comp _ _ (Qplus_comp _ _ (Qeq_refl current) _ _ E2)).
  set (step := fl (fl (current - target) * (1 # 2))) in *. clearbody step.
  unfold is_double in Ht, Hc. split.
  - apply Qle_trans with (fl target); [rewrite Ht; apply Qle_refl|].
    apply fl_mono. lra.
  - apply Qle_trans with (fl current); [|rewrite Hc; apply Qle_refl].
    apply fl_mono. lra.
Qed.

Lemma physics_step_f64_between (target current : Q) :
  is_double target -> is_double current ->
  Qmin current target <= physics_step_f64 target current <= Qmax current target.
Proof.
  intros Ht Hc.
  destruct (Qlt_le_dec target current) as [H | H].
  - rewrite (Q.min_r current target), (Q.max_l current target) by lra.
    apply physics_step_f64_above; [exact Ht | exact Hc | lra].
  - rewrite (Q.min_l current target), (Q.max_r current target) by lra.
    apply physics_step_f64_below; assumption.
Qed.

Lemma physics_iter_f64_below (n : nat) (target current : Q) :
  is_double target -> is_double current -> current <= target ->
  physics_iter_f64 n target current <= physics_iter_f64 (S n) target current /\
  physics_iter_f64 (S n) target current <= target.
Proof.
  intros Ht Hc Hle.
  assert (Hn : forall m, physics_iter_f64 m target current <= target).
  { induction m as [|m IH]; [exact Hle|].
    rewrite physics_iter_f64_S.
    apply physics_step_f64_below;
      [exact Ht | apply physics_iter_f64_double; exact Hc | exact IH]. }
  rewrite physics_iter_f64_S.
  apply physics_step_f64_below;
    [exact Ht | apply physics_iter_f64_double; exact Hc | apply Hn].
Qed.

Lemma physics_iter_f64_above (n : nat) (target current : Q) :
  is_double target -> is_double current -> target <= current ->
  target <= physics_iter_f64 (S n) target current /\
  physics_iter_f64 (S n) target current <= physics_iter_f64 n target current.
Proof.
  intros Ht Hc Hle.
  assert (Hn : forall m, target <= physics_iter_f64 m target current).
  { induction m as [|m IH]; [exact Hle|].
    rewrite physics_iter_f64_S.
    apply physics_step_f64_above;
      [exact Ht | apply physics_iter_f64_double; exact Hc | exact IH]. }
  rewrite physics_iter_f64_S.
  apply physics_step_f64_above;
    [exact Ht | apply physics_iter_f64_double; exact Hc | apply Hn].
Qed.

Lemma physics_iter_f64_between (n : nat) (target current : Q) :
  is_double target -> is_double current ->
  Qmin current target <= physics_iter_f64 n target current /\
  physics_iter_f64 n target current <= Qmax current target.
Proof.
  intros Ht Hc.
  destruct (Qlt_le_dec target current) as [H | H].
  - assert (Hle : target <= current) by lra.
    rewrite (Q.min_r current target), (Q.max_l current target) by lra.
    induction n as [|n IH]; [cbn [physics_iter_f64]; lra|].
    destruct (physics_iter_f64_above n target current Ht Hc Hle) as [A B].
    lra.
  - rewrite (Q.min_l current target), (Q.max_r current target) by lra.
    induction n as [|n IH]; [cbn [physics_iter_f64]; lra|].
    destruct (physics_iter_f64_below n target current Ht Hc H) as [A B].
    lra.
Qed.

Ltac push_inject_Z :=
  unfold Zminus;
  repeat first [rewrite inject_Z_plus | rewrite inject_Z_opp | rewrite inject_Z_mult].

(** On a grid of doubles with room for [n] more binary places, the first
    [n] steps are exact: after [k] of them the position is
    [(b * 2^k - (b - a)) * 2^(e - k)], for a start [a * 2^e] and a target
    [b * 2^e]. *)
Lemma physics_iter_f64_grid (n : nat) (a b e : Z) (target current : Q) :
  current == inject_Z a * Qpow2 e -> target == inject_Z b * Qpow2 e ->
  (Z.abs a * 2 ^ Z.of_nat n <= 2 ^ 52)%Z ->
  (Z.abs b * 2 ^ Z.of_nat n <= 2 ^ 52)%Z ->
  (-1074 <= e - Z.of_nat n)%Z ->
  forall k : nat, (k <= n)%nat ->
    physics_iter_f64 k target current
    == inject_Z (b * 2 ^ Z.of_nat k - (b - a)) * Qpow2 (e - Z.of_nat k).
Proof.
  intros Hc Ht Ha Hb He k. induction k as [|k IH]; intro Hk.
  - cbn [physics_iter_f64]. rewrite Hc.
    change (Z.of_nat 0) with 0%Z. rewrite Z.sub_0_r, Z.pow_0_r.
    replace (b * 1 - (b - a))%Z with a by lia. reflexivity.
  - specialize (IH ltac:(lia)).
    rewrite physics_iter_f64_S.
    set (p := physics_iter_f64 k target current) in *. clearbody p.
    assert (Hpk : (0 < 2 ^ Z.of_nat k)%Z) by (apply Z.pow_pos_nonneg; lia).
    assert (Hkn : (2 * 2 ^ Z.of_nat k <= 2 ^ Z.of_nat n)%Z).
    { rewrite <- Z.pow_succ_r by lia. apply Z.pow_le_mono_r; lia. }
    assert (Hsk : (2 ^ Z.of_nat (S k) = 2 * 2 ^ Z.of_nat k)%Z).
    { rewrite Nat2Z.inj_succ. apply Z.pow_succ_r. lia. }
    assert (Ha' : (Z.abs a * (2 * 2 ^ Z.of_nat k) <= 2 ^ 52)%Z) by nia.
    assert (Hb' : (Z.abs b * (2 * 2 ^ Z.of_nat k) <= 2 ^ 52)%Z) by nia.
    assert (H52 : (2 ^ 53 = 2 * 2 ^ 52)%Z) by reflexivity.
    set (P := (2 ^ Z.of_nat k)%Z) in *.
    assert (Ha2 : (Z.abs a * 2 <= 2 ^ 52)%Z) by nia.
    assert (Hb2 : (Z.abs b * 2 <= 2 ^ 52)%Z) by nia.
    assert (HbP : (Z.abs (b * (2 * P)) <= 2 ^ 52)%Z).
    { rewrite Z.abs_mul, (Z.abs_eq (2 * P)) by lia. exact Hb'. }
    assert (E2k : Qpow2 e == inject_Z P * Qpow2 (e - Z.of_nat k)).
    { unfold P. rewrite <- (Qpow2_Z (Z.of_nat k)) by lia.
      rewrite <- Qpow2_add. apply Qpower_comp; [reflexivity | lia]. }
    assert (Ehalf : Qpow2 (e - Z.of_nat k) == 2 * Qpow2 (e - Z.of_nat (S k))).
    { rewrite <- Qpow2_succ. apply Qpower_comp; [reflexivity | lia]. }
    (* the difference *)
    assert (Ediff : target - p == inject_Z (b - a) * Qpow2 (e - Z.of_nat k)).
    { rewrite IH, Ht, E2k. push_inject_Z. ring. }
    assert (Fdiff : fl (target - p) == inject_Z (b - a) * Qpow2 (e - Z.of_nat k)).
    { rewrite (fl_comp _ _ Ediff). apply fl_exact; lia. }
    (* half of it *)
    assert (Estep : fl (target - p) * (1 # 2)
                    == inject_Z (b - a) * Qpow2 (e - Z.of_nat (S k))).
    { rewrite Fdiff, Ehalf. ring. }
    assert (Fstep : fl (fl (target - p) * (1 # 2))
                    == inject_Z (b - a) * Qpow2 (e - Z.of_nat (S k))).
    { rewrite (fl_comp _ _ Estep). apply fl_exact; lia. }
    (* the sum *)
    assert (Esum : p + fl (fl (target - p) * (1 # 2))
                   == inject_Z (b * 2 ^ Z.of_nat (S k) - (b - a))
                      * Qpow2 (e - Z.of_nat (S k))).
    { rewrite Fstep, IH, Ehalf, Hsk. fold P. push_inject_Z.
      change (inject_Z 2) with 2. ring. }
    unfold physics_step_f64, js_add, js_mul, js_sub.
    rewrite (fl_comp _ _ Esum). apply fl_exact; [|lia].
    rewrite Hsk. fold P. lia.
Qed.

(** C10, as amended: each frame moves [currentSample] to
    [currentSample + (targetSample - currentSample) * 0.5], the difference,
    the product and the sum being rounded to doubles.  The new position
    is again a double between the old one and the target, so the distance
    never increases and the position moves monotonically towards the
    target without passing it.  The distance is exactly halved as long as
    the operations are exact: from a start [a * 2^e] to a target [b * 2^e]
    with [|a| * 2^n] and [|b| * 2^n] at most [2^52], for the first [n]
    frames (for whole sample positions below [2^32], twenty frames). *)
Theorem physics_halves_distance :
  forall (target current : Q) (n : nat),
    is_double target -> is_double current ->
    let pos := fun k => physics_iter_f64 k target current in
    pos (S n)
    = js_add (pos n) (js_mul (js_sub target (pos n)) (1 # 2)) /\
    is_double (pos (S n)) /\
    Qmin (pos n) target <= pos (S n) <= Qmax (pos n) target /\
    Qabs (target - pos (S n)) <= Qabs (target - pos n) /\
    (current <= target -> pos n <= pos (S n) /\ pos (S n) <= target) /\
    (target <= current -> target <= pos (S n) /\ pos (S n) <= pos n) /\
    (forall a b e : Z,
       current == inject_Z a * Qpow2 e -> target == inject_Z b * Qpow2 e ->
       (Z.abs a * 2 ^ Z.of_nat n <= 2 ^ 52)%Z ->
       (Z.abs b * 2 ^ Z.of_nat n <= 2 ^ 52)%Z ->
       (-1074 <= e - Z.of_nat n)%Z ->
       forall k : nat, (k <= n)%nat ->
         pos k == target - (target - current) / inject_Z (2 ^ Z.of_nat k) /\
         Qabs (target - pos k)
         == Qabs (target - current) / inject_Z (2 ^ Z.of_nat k)).
Proof.
  intros target current n Ht Hc pos. unfold pos.
  pose proof (physics_iter_f64_double n target current Hc) as Hn.
  pose proof (physics_step_f64_between target _ Ht Hn) as Hbet.
  rewrite <- physics_iter_f64_S in Hbet.
  split; [apply physics_iter_f64_S|].
  split; [apply physics_iter_f64_double; exact Hc|].
  split; [exact Hbet|].
  split.
  { set (p := physics_iter_f64 n target current) in *.
    set (q := physics_iter_f64 (S n) target current) in *. clearbody p q.
    destruct (Qlt_le_dec target p) as [H | H].
    - rewrite (Q.min_r p target), (Q.max_l p target) in Hbet by lra.
      rewrite !Qabs_neg by lra. lra.
    - rewrite (Q.min_l p target), (Q.max_r p target) in Hbet by lra.
      rewrite !Qabs_pos by lra. lra. }
  split; [apply physics_iter_f64_below; assumption|].
  split; [apply physics_iter_f64_above; assumption|].
  intros a b e Hca Htb Ha Hb He k Hk.
  pose proof (physics_iter_f64_grid n a b e target current Hca Htb Ha Hb He k Hk)
    as Hpos.
  pose proof (pow2_pos k) as Hp.
  assert (E2k : Qpow2 e == inject_Z (2 ^ Z.of_nat k) * Qpow2 (e - Z.of_nat k)).
  { rewrite <- (Qpow2_Z (Z.of_nat k)) by lia.
    rewrite <- Qpow2_add. apply Qpower_comp; [reflexivity | lia]. }
  assert (E : physics_iter_f64 k target current
              == target - (target - current) / inject_Z (2 ^ Z.of_nat k)).
  { rewrite Hpos, Htb, Hca, E2k. push_inject_Z.
    set (P := inject_Z (2 ^ Z.of_nat k)) in *. clearbody P. field. lra. }
  split; [exact E|].
  rewrite E.
  assert (E' : target - (target - (target - current) / inject_Z (2 ^ Z.of_nat k))
               == (target - current) * / inject_Z (2 ^ Z.of_nat k)).
  { unfold Qdiv. ring. }
  rewrite E', Qabs_Qmult. unfold Qdiv.
  rewrite (Qabs_pos (/ inject_Z (2 ^ Z.of_nat k))); [reflexivity|].
  apply Qlt_le_weak. apply Qinv_lt_0_compat. exact Hp.
Qed.

Lemma physics_halves_distance_witness :
  let pos := fun k => physics_iter_f64 k 3 0 in
  is_double 3 /\ is_double 0 /\
  pos 3%nat = js_add (pos 2%nat) (js_mul (js_sub 3 (pos 2%nat)) (1 # 2)) /\
  (pos 2%nat <= pos 3%nat /\ pos 3%nat <= 3) /\
  pos 2%nat == 3 - (3 - 0) / inject_Z (2 ^ Z.of_nat 2) /\
  Qabs (3 - pos 2%nat) == Qabs (3 - 0) / inject_Z (2 ^ Z.of_nat 2).
Proof.
  cbv zeta.
  assert (H3 : is_double 3) by (vm_compute; reflexivity).
  assert (H0 : is_double 0) by (vm_compute; reflexivity).
  destruct (physics_halves_distance 3 0 2 H3 H0)
    as (Hs & _ & _ & _ & Hbelow & _ & Hgrid).
  assert (Hle : 0 <= 3) by lra.
  assert (Ea : 0 == inject_Z 0 * Qpow2 0) by reflexivity.
  assert (Eb : 3 == inject_Z 3 * Qpow2 0) by reflexivity.
  assert (Ba : (Z.abs 0 * 2 ^ Z.of_nat 2 <= 2 ^ 52)%Z) by (vm_compute; discriminate).
  assert (Bb : (Z.abs 3 * 2 ^ Z.of_nat 2 <= 2 ^ 52)%Z) by (vm_compute; discriminate).
  assert (Be : (-1074 <= 0 - Z.of_nat 2)%Z) by (vm_compute; discriminate).
  destruct (Hgrid 0%Z 3%Z 0%Z Ea Eb Ba Bb Be 2%nat (le_n 2)) as [Hp Hd].
  split; [exact H3|]. split; [exact H0|]. split; [exact Hs|].
  split; [exact (Hbelow Hle)|]. split; [exact Hp | exact Hd].
Defined.

(** The halving law itself does not hold on doubles.  From 0 towards 3 the
    distance is [3 / 2^51] after 51 frames and [1 / 2^50], not [3 / 2^52],
    after 52: the sum was rounded; after 54 frames the position is the
    target.  From 1 towards the next double above it the step is half a
    unit in the last place, the sum rounds back to 1, and the position
    never moves: it does not converge to the target. *)
Lemma physics_distance_not_halved :
  let pos := fun k => physics_iter_f64 k 3 0 in
  is_double 3 /\ is_double 0 /\
  Qabs (3 - pos 51%nat) == 3 * Qpow2 (-51) /\
  Qabs (3 - pos 52%nat) == Qpow2 (-50) /\
  ~ Qabs (3 - pos 52%nat) == Qabs (3 - pos 51%nat) / 2 /\
  ~ Qabs (3 - pos 52%nat) == Qabs (3 - 0) / inject_Z (2 ^ Z.of_nat 52) /\
  pos 54%nat == 3 /\
  let near := 1 + Qpow2 (-52) in
  is_double near /\ is_double 1 /\
  forall k, physics_iter_f64 k near 1 = 1.
Proof.
  cbv zeta.
  split; [vm_compute; reflexivity|]. split; [vm_compute; reflexivity|].
  split; [vm_compute; reflexivity|]. split; [vm_compute; reflexivity|].
  split; [vm_compute; discriminate|]. split; [vm_compute; discriminate|].
  split; [vm_compute; reflexivity|].
  split; [vm_compute; reflexivity|]. split; [vm_compute; reflexivity|].
  assert (Hfix : physics_step_f64 (1 + Qpow2 (-52)) 1 = 1) by (vm_compute; reflexivity).
  induction k as [|k IH]; [reflexivity|].
  cbn [physics_iter_f64]. rewrite Hfix. exact IH.
Qed.

(** ** Cue points *)

Lemma near_cue_true (t c : Q) : near_cue t c = true <-> Qabs (c - t) < 1 # 10.
Proof. apply Qltb_true. Qed.

Lemma Qle_bool_false (x y : Q) : Qle_bool x y = false -> y < x.
Proof.
  intro H. apply Qnot_le_lt. intro Hle. apply Qle_bool_iff in Hle. congruence.
Qed.

Lemma sort_insert_perm (x : Q) (l : list Q) :
  Permutation (sort_insert x l) (x :: l).
Proof.
  induction l as [|y l IH]; cbn; [reflexivity|].
  destruct (Qle_bool x y); [reflexivity|].
  rewrite IH. apply perm_swap.
Qed.

Lemma js_sort_perm (l : list Q) : Permutation (js_sort l) l.
Proof.
  induction l as [|x l IH]; cbn; [reflexivity|].
  rewrite sort_insert_perm. apply perm_skip. exact IH.
Qed.

Lemma sort_insert_sorted (x : Q) (l : list Q) :
  Sorted Qle l -> Sorted Qle (sort_insert x l).
Proof.
  induction l as [|y l IH]; intro Hs; cbn.
  - repeat constructor.
  - destruct (Qle_bool x y) eqn:E.
    + apply Qle_bool_iff in E. constructor; [exact Hs|]. constructor. exact E.
    + apply Qle_bool_false in E. inversion Hs as [|? ? Hs' Hhd]; subst.
      constructor; [apply IH; exact Hs'|].
      destruct l as [|z l]; cbn.
      * constructor. apply Qlt_le_weak. exact E.
      * destruct (Qle_bool x z); constructor.
        -- apply Qlt_le_weak. exact E.
        -- inversion Hhd; subst. assumption.
Qed.

Lemma js_sort_sorted (l : list Q) : Sorted Qle (js_sort l).
Proof.
  induction l as [|x l IH]; cbn; [constructor|].
  apply sort_insert_sorted. exact IH.
Qed.

Lemma Sorted_Qle_strong (l : list Q) : Sorted Qle l -> StronglySorted Qle l.
Proof.
  apply Sorted_StronglySorted. intros x y z. apply Qle_trans.
Qed.

(** Sorting a sorted list with one element appended puts that element in
    its place and leaves the others where they were. *)
Lemma js_sort_snoc_sorted (l : list Q) (t : Q) :
  StronglySorted Qle l ->
  exists l1 l2, l = l1 ++ l2 /\ js_sort (l ++ [t]) = l1 ++ t :: l2.
Proof.
  induction l as [|x l IH]; intro Hs.
  - exists [], []. split; reflexivity.
  - apply StronglySorted_inv in Hs. destruct Hs as [Hs Hall].
    destruct (IH Hs) as (l1 & l2 & Hl & Hsort).
    cbn [app js_sort]. rewrite Hsort.
    destruct l1 as [|y l1].
    + cbn [app sort_insert]. destruct (Qle_bool x t) eqn:E.
      * exists [x], l2. subst l. split; reflexivity.
      * exists [], (x :: l2). subst l. split; [reflexivity|].
        cbn [app]. f_equal.
        destruct l2 as [|z l2]; cbn; [reflexivity|].
        inversion Hall as [|? ? Hxz _]; subst.
        apply Qle_bool_iff in Hxz. rewrite Hxz. reflexivity.
    + cbn [app sort_insert].
      subst l. inversion Hall as [|? ? Hxy _]; subst.
      apply Qle_bool_iff in Hxy. rewrite Hxy.
      exists (x :: y :: l1), l2. split; reflexivity.
Qed.

Lemma separated_perm (l l' : list Q) :
  Permutation l l' -> separated l -> separated l'.
Proof.
  unfold separated. induction 1 as [|x l l' Hp IH|x y l|l l' l'' _ IH1 _ IH2]; intro H.
  - exact H.
  - inversion H; subst. constructor.
    + eapply Permutation_Forall; eassumption.
    + apply IH. assumption.
  - inversion H as [|? ? Hy Hrest]; subst.
    inversion Hrest as [|? ? Hx Hl]; subst.
    inversion Hy as [|? ? Hyx Hyl]; subst.
    constructor; [constructor|constructor]; try assumption.
    intro Hlt. apply Hyx.
    rewrite <- Qabs_opp.
    assert (He : - (y - x) == x - y) by lra. rewrite He. exact Hlt.
  - apply IH2, IH1, H.
Qed.

Lemma filter_strongly_sorted (p : Q -> bool) (l : list Q) :
  StronglySorted Qle l -> StronglySorted Qle (filter p l).
Proof.
  induction 1 as [|x l Hs IH Hall]; cbn; [constructor|].
  destruct (p x); [|exact IH].
  constructor; [exact IH|].
  rewrite Forall_forall in *. intros y Hy.
  apply filter_In in Hy. apply Hall, Hy.
Qed.

Lemma filter_separated (p : Q -> bool) (l : list Q) :
  separated l -> separated (filter p l).
Proof.
  unfold separated. induction 1 as [|x l Hall Hs IH]; cbn; [constructor|].
  destruct (p x); [|exact IH].
  constructor; [|exact IH].
  rewrite Forall_forall in *. intros y Hy.
  apply filter_In in Hy. apply Hall, Hy.
Qed.

Lemma addCuePoint_near (d : Deck) :
  (exists c, In c (cuePoints d) /\ Qabs (c - currentTime d) < 1 # 10) ->
  addCuePoint d = d.
Proof.
  intros (c & Hin & Hnear). unfold addCuePoint.
  assert (He : existsb (near_cue (currentTime d)) (cuePoints d) = true).
  { apply existsb_exists. exists c. split; [exact Hin|].
    apply near_cue_true. exact Hnear. }
  rewrite He. reflexivity.
Qed.

Lemma addCuePoint_far (d : Deck) :
  (forall c, In c (cuePoints d) -> ~ Qabs (c - currentTime d) < 1 # 10) ->
  cuePoints (addCuePoint d) = js_sort (cuePoints d ++ [currentTime d]).
Proof.
  intro Hfar. unfold addCuePoint.
  assert (He : existsb (near_cue (currentTime d)) (cuePoints d) = false).
  { destruct (existsb (near_cue (currentTime d)) (cuePoints d)) eqn:E; [|reflexivity].
    apply existsb_exists in E. destruct E as (c & Hin & Hnear).
    apply near_cue_true in Hnear. exfalso. exact (Hfar c Hin Hnear). }
  rewrite He. reflexivity.
Qed.

Lemma addCuePoint_cases (d : Deck) :
  (exists c, In c (cuePoints d) /\ Qabs (c - currentTime d) < 1 # 10) \/
  (forall c, In c (cuePoints d) -> ~ Qabs (c - currentTime d) < 1 # 10).
Proof.
  destruct (existsb (near_cue (currentTime d)) (cuePoints d)) eqn:E.
  - left. apply existsb_exists in E. destruct E as (c & Hin & Hnear).
    exists c. split; [exact Hin|]. apply near_cue_true. exact Hnear.
  - right. intros c Hin Hnear.
    assert (Ht : existsb (near_cue (currentTime d)) (cuePoints d) = true).
    { apply existsb_exists. exists c. split; [exact Hin|].
      apply near_cue_true. exact Hnear. }
    congruence.
Qed.

Lemma cue_reachable_sorted_separated (l : list Q) :
  cue_reachable l -> Sorted Qle l /\ separated l.
Proof.
  induction 1 as [|d _ [IHs IHp]|d _ [IHs IHp]].
  - split; constructor.
  - destruct (addCuePoint_cases d) as [Hnear | Hfar].
    + rewrite (addCuePoint_near d Hnear). split; assumption.
    + rewrite (addCuePoint_far d Hfar). split; [apply js_sort_sorted|].
      apply (separated_perm (currentTime d :: cuePoints d)).
      * symmetry. rewrite js_sort_perm.
        apply Permutation_sym, Permutation_cons_append.
      * constructor; [|exact IHp].
        apply Forall_forall. intros c Hin Hlt. apply (Hfar c Hin).
        rewrite <- Qabs_opp.
        assert (He : - (c - currentTime d) == currentTime d - c) by lra.
        rewrite He. exact Hlt.
  - cbn. split.
    + apply StronglySorted_Sorted, filter_strongly_sorted, Sorted_Qle_strong, IHs.
    + apply filter_separated, IHp.
Qed.




(** The first element of an ascending list that satisfies a test is the
    least one that does. *)
Lemma find_sorted_least (p : Q -> bool) (l : list Q) (c : Q) :
  StronglySorted Qle l ->
  find p l = Some c ->
  In c l /\ p c = true /\ forall x, In x l -> p x = true -> c <= x.
Proof.
  induction 1 as [|a l Hs IH Hall]; cbn; [discriminate|].
  destruct (p a) eqn:E.
  - intro H. injection H as H. subst c. split; [left; reflexivity|].
    split; [exact E|]. intros x [Hx | Hx] _.
    + subst x. apply Qle_refl.
    + rewrite Forall_forall in Hall. apply Hall, Hx.
  - intro H. destruct (IH H) as (Hin & Hp & Hleast).
    split; [right; exact Hin|]. split; [exact Hp|].
    intros x [Hx | Hx] Hpx; [subst x; congruence|].
    apply Hleast; assumption.
Qed.

(** On an ascending cue list the target is the least cue strictly after
    the double sum [t + 0.05] when there is one, else the least cue of all, else 0. *)
Lemma nextCueTarget_sorted (cues : list Q) (t : Q) :
  Sorted Qle cues ->
  let target := nextCueTarget cues t in
  ((exists c, In c cues /\ js_add t (js_literal (1 # 20)) < c) ->
   In target cues /\ js_add t (js_literal (1 # 20)) < target /\
   forall c, In c cues -> js_add t (js_literal (1 # 20)) < c -> target <= c) /\
  (cues <> [] -> (forall c, In c cues -> c <= js_add t (js_literal (1 # 20))) ->
   In target cues /\ forall c, In c cues -> target <= c) /\
  (cues = [] -> target = 0).
Proof.
  intros Hsorted target.
  apply Sorted_Qle_strong in Hsorted.
  unfold target, nextCueTarget.
  destruct cues as [|first rest]; [split; [|split]|].
  - intros (c & [] & _).
  - intro H. exfalso. apply H. reflexivity.
  - reflexivity.
  - destruct (find (fun c => Qgtb c (js_add t (js_literal (1 # 20)))) (first :: rest)) as [nextCue|] eqn:E.
    + destruct (find_sorted_least _ _ _ Hsorted E) as (Hin & Hp & Hleast).
      apply Qgtb_true in Hp.
      split; [|split].
      * intros _. split; [exact Hin|]. split; [exact Hp|].
        intros c Hc Hlt. apply Hleast; [exact Hc|]. apply Qgtb_true. exact Hlt.
      * intros _ Hall. exfalso. apply (Qlt_not_le _ _ Hp). apply Hall, Hin.
      * discriminate.
    + split; [|split].
      * intros (c & Hc & Hlt). exfalso.
        pose proof (find_none _ _ E c Hc) as Hn. cbv beta in Hn.
        apply Qgtb_false in Hn. apply (Qlt_not_le _ _ Hlt Hn).
      * intros _ _. split; [left; reflexivity|].
        apply StronglySorted_inv in Hsorted. destruct Hsorted as [_ Hall].
        intros c [Hc | Hc]; [subst c; apply Qle_refl|].
        rewrite Forall_forall in Hall. apply Hall, Hc.
      * discriminate.
Qed.

(** ** The BPM estimator *)

Lemma count_up_snoc (n : nat) (start step : Z) :
  count_up (S n) start step
  = count_up n start step ++ [(start + Z.of_nat n * step)%Z].
Proof.
  revert start. induction n as [|n IH]; intro start.
  - cbn. f_equal. lia.
  - change (count_up (S (S n)) start step)
      with (start :: count_up (S n) (start + step) step).
    rewrite IH. cbn [count_up app].
    replace (start + step + Z.of_nat n * step)%Z
      with (start + Z.of_nat (S n) * step)%Z; [reflexivity|].
    rewrite Nat2Z.inj_succ. ring.
Qed.

Lemma for_range_unit (start stop : Z) :
  for_range start stop 1 = count_up (Z.to_nat (stop - start)) start 1.
Proof.
  unfold for_range. f_equal. f_equal. rewrite Z.div_1_r. lia.
Qed.

Lemma count_up_In (n : nat) (start i : Z) :
  In i (count_up n start 1) <-> (start <= i < start + Z.of_nat n)%Z.
Proof.
  revert start. induction n as [|n IH]; intro start; cbn [count_up In].
  - lia.
  - rewrite IH. lia.
Qed.

(** The accumulation loop of one lag computes the reference sum. *)
Lemma correlation_loop (ds : list Q) (lag : Z) (n : nat) :
  fold_left
    (fun c i => c + sample ds i * sample ds (i + lag))
    (count_up n 0 1) 0
  = corr_sum ds lag n.
Proof.
  induction n as [|n IH]; [reflexivity|].
  rewrite count_up_snoc, fold_left_app, IH. cbn [fold_left corr_sum].
  replace (0 + Z.of_nat n * 1)%Z with (Z.of_nat n) by lia. reflexivity.
Qed.

Lemma correlation_ref (ds : list Q) (lag : Z) :
  (0 <= lag)%Z -> correlation ds lag = corr_ref ds lag.
Proof.
  intro Hlag. unfold correlation, corr_ref.
  rewrite for_range_unit, correlation_loop. f_equal. lia.
Qed.

(** Every read of the correlation loop is inside the envelope. *)
Lemma correlation_reads_in_range (ds : list Q) (lag i : Z) :
  (0 <= lag)%Z ->
  In i (for_range 0 (Z.min (Z.of_nat (List.length ds) - lag)
                           (Z.of_nat (List.length ds))) 1) ->
  (0 <= i < Z.of_nat (List.length ds))%Z /\
  (0 <= i + lag < Z.of_nat (List.length ds))%Z.
Proof.
  intros Hlag Hin. rewrite for_range_unit in Hin.
  apply count_up_In in Hin. lia.
Qed.

Lemma lag_step_inv (ds : list Q) (lo a : Z) (st : Q * Z) :
  (lo <= a)%Z ->
  search_inv ds lo a st ->
  search_inv ds lo (a + 1) (lag_step ds st a).
Proof.
  intros Hlo Hinv. destruct st as [mc bl]. unfold lag_step.
  destruct (Qgtb (correlation ds a) mc) eqn:E.
  - apply Qgtb_true in E. right. cbn [fst snd].
    destruct Hinv as [[Hst Hall] | (Hr & Hmc & Hpos & Hmax & Hfirst)].
    + injection Hst as -> ->.
      split; [lia|]. split; [reflexivity|]. split; [exact E|]. split.
      * intros l Hl. destruct (Z.eq_dec l a) as [-> | Hne]; [apply Qle_refl|].
        apply Qle_trans with 0; [apply Hall; lia | apply Qlt_le_weak, E].
      * intros l Hl. apply Qle_lt_trans with 0; [apply Hall; lia | exact E].
    + cbn [fst snd] in *.
      split; [lia|]. split; [reflexivity|].
      split; [apply Qlt_trans with mc; assumption|]. split.
      * intros l Hl. destruct (Z.eq_dec l a) as [-> | Hne]; [apply Qle_refl|].
        apply Qle_trans with mc; [apply Hmax; lia | apply Qlt_le_weak, E].
      * intros l Hl. apply Qle_lt_trans with mc; [apply Hmax; lia | exact E].
  - apply Qgtb_false in E.
    destruct Hinv as [[Hst Hall] | (Hr & Hmc & Hpos & Hmax & Hfirst)].
    + left. split; [exact Hst|].
      injection Hst as -> ->.
      intros l Hl. destruct (Z.eq_dec l a) as [-> | Hne]; [exact E|].
      apply Hall. lia.
    + right. cbn [fst snd] in *.
      split; [lia|]. split; [exact Hmc|]. split; [exact Hpos|]. split.
      * intros l Hl. destruct (Z.eq_dec l a) as [-> | Hne]; [exact E|].
        apply Hmax. lia.
      * exact Hfirst.
Qed.

Lemma search_loop_inv (ds : list Q) (lo : Z) (n : nat) (a : Z) (st : Q * Z) :
  (lo <= a)%Z ->
  search_inv ds lo a st ->
  search_inv ds lo (a + Z.of_nat n)
             (fold_left (lag_step ds) (count_up n a 1) st).
Proof.
  revert a st. induction n as [|n IH]; intros a st Hlo Hinv.
  - cbn. replace (a + 0)%Z with a by lia. exact Hinv.
  - cbn [count_up fold_left].
    replace (a + Z.of_nat (S n))%Z with (a + 1 + Z.of_nat n)%Z by lia.
    apply IH; [lia|]. apply lag_step_inv; assumption.
Qed.

(** What the lag search returns, in terms of the reference sum. *)
Lemma search_lags_spec (ds : list Q) (lo hi : Z) :
  (0 < lo)%Z ->
  let bestLag := snd (search_lags ds lo hi) in
  (bestLag = 0%Z /\ no_positive_lag ds lo hi) \/
  (bestLag <> 0%Z /\ best_lag ds lo hi bestLag).
Proof.
  intros Hlo bestLag. unfold bestLag, search_lags.
  rewrite for_range_unit.
  destruct (Z_le_gt_dec lo (hi + 1)) as [Hle | Hgt].
  - assert (H0 : search_inv ds lo lo (0, 0%Z)).
    { left. split; [reflexivity|]. intros; lia. }
    pose proof (search_loop_inv ds lo (Z.to_nat (hi + 1 - lo)) lo (0, 0%Z)
                  (Z.le_refl lo) H0) as H.
    replace (lo + Z.of_nat (Z.to_nat (hi + 1 - lo)))%Z with (hi + 1)%Z in H by lia.
    destruct H as [[Hst Hall] | (Hr & Hmc & Hpos & Hmax & Hfirst)].
    + left. rewrite Hst. split; [reflexivity|].
      intros l Hl. rewrite <- correlation_ref by lia. apply Hall. lia.
    + right. set (r := fold_left _ _ _) in *.
      split; [lia|]. unfold best_lag.
      split; [lia|].
      rewrite <- (correlation_ref ds (snd r)) by lia. rewrite <- Hmc.
      split; [exact Hpos|]. split.
      * intros l Hl. rewrite <- correlation_ref by lia. apply Hmax. lia.
      * intros l Hl. rewrite <- correlation_ref by lia. apply Hfirst. lia.
  - left. replace (Z.to_nat (hi + 1 - lo)) with O by lia. cbn.
    split; [reflexivity|]. intros l Hl. lia.
Qed.

Lemma pow2_succ_mul (x : Q) (k : nat) :
  x * inject_Z (2 ^ Z.of_nat (S k)) == x * 2 * inject_Z (2 ^ Z.of_nat k).
Proof. rewrite pow2_succ. ring. Qed.

Lemma pow2_succ_div (x : Q) (k : nat) :
  x / inject_Z (2 ^ Z.of_nat (S k)) == x / 2 / inject_Z (2 ^ Z.of_nat k).
Proof.
  rewrite pow2_succ. pose proof (pow2_pos k). field. lra.
Qed.

(** The two normalisation loops compute the fold of the reference:
    doubling a double, and halving one above 160, are exact. *)
Lemma double_while_sound (fuel : nat) (x y : Q) :
  is_double x -> double_while fuel x = Some y -> doubled_into x y.
Proof.
  revert x. induction fuel as [|fuel IH]; intros x Hx; cbn [double_while];
    destruct (Qltb x 70) eqn:E; intro H; try discriminate.
  - injection H as <-. apply Qltb_false in E. exists O. cbn.
    split; [ring|]. split; [intro Hlt; apply (Qlt_not_le _ _ Hlt E) | intros; lia].
  - apply Qltb_true in E.
    assert (E2 : js_mul x 2 == x * 2) by (apply fl_twice; exact Hx).
    destruct (IH _ (fl_idempotent _) H) as (k & Hy & Hge & Hmin).
    exists (S k). split; [rewrite pow2_succ_mul, <- E2; exact Hy|].
    split; [exact Hge|].
    intros [|j] Hj.
    + change (inject_Z (2 ^ Z.of_nat 0)) with 1. lra.
    + rewrite pow2_succ_mul, <- E2. apply Hmin. lia.
  - injection H as <-. apply Qltb_false in E. exists O. cbn.
    split; [ring|]. split; [intro Hlt; apply (Qlt_not_le _ _ Hlt E) | intros; lia].
Qed.

Lemma halve_while_sound (fuel : nat) (x y : Q) :
  is_double x -> halve_while fuel x = Some y -> halved_into x y.
Proof.
  assert (Hmin : Qpow2 (-1021) <= 160).
  { apply Qle_bool_iff. vm_compute. reflexivity. }
  revert x. induction fuel as [|fuel IH]; intros x Hx; cbn [halve_while];
    destruct (Qgtb x 160) eqn:E; intro H; try discriminate.
  - injection H as <-. apply Qgtb_false in E. exists O. cbn.
    split; [field|]. split; [intro Hlt; apply (Qlt_not_le _ _ Hlt E) | intros; lia].
  - apply Qgtb_true in E.
    assert (E2 : js_div x 2 == x / 2) by (apply fl_half; [exact Hx | lra]).
    destruct (IH _ (fl_idempotent _) H) as (k & Hy & Hle & Hmin').
    exists (S k). split; [rewrite pow2_succ_div, <- E2; exact Hy|].
    split; [exact Hle|].
    intros [|j] Hj.
    + change (inject_Z (2 ^ Z.of_nat 0)) with 1.
      unfold Qdiv. change (/ 1) with 1. lra.
    + rewrite pow2_succ_div, <- E2. apply Hmin'. lia.
  - injection H as <-. apply Qgtb_false in E. exists O. cbn.
    split; [field|]. split; [intro Hlt; apply (Qlt_not_le _ _ Hlt E) | intros; lia].
Qed.






(** The two constants of the lag window. *)
Lemma js_div_60_160 : js_div 60 160 == 3 # 8.
Proof. vm_compute. reflexivity. Qed.

Lemma js_div_60_70 :
  857142 # 1000000 <= js_div 60 70 /\ js_div 60 70 <= 857143 # 1000000.
Proof. split; vm_compute; discriminate. Qed.

(** For an envelope rate of at least 6000 Hz, the tempo of a lag of the
    search window lies in [[70, 320]] once rounded to one decimal. *)
Lemma lag_tempo_bounds (rate : Q) (L : Z) :
  6000 <= rate ->
  (minLag_of rate <= L <= maxLag_of rate)%Z ->
  (2250 <= L)%Z /\
  70 <= one_decimal_tempo rate L /\ one_decimal_tempo rate L <= 320.
Proof.
  intros Hrate [Hlo Hhi]. unfold minLag_of, maxLag_of, Math_floor, js_mul in *.
  pose proof js_div_60_160 as E1. destruct js_div_60_70 as [E2 E3].
  set (c160 := js_div 60 160) in *. set (c70 := js_div 60 70) in *.
  clearbody c160 c70.
  assert (Hmin : Qpow2 (-1022) <= 1).
  { apply Qle_bool_iff. vm_compute. reflexivity. }
  assert (Hu : Qpow2 (-53) <= 1 # 1000000).
  { apply Qle_bool_iff. vm_compute. reflexivity. }
  pose proof (Qpow2_pos (-53)) as Hu0.
  set (u := Qpow2 (-53)) in *.
  assert (F2250 : fl 2250 == 2250) by (vm_compute; reflexivity).
  assert (H2250 : (2250 <= Qfloor (fl (rate * c160)))%Z).
  { rewrite <- (Qfloor_Z 2250). apply Qfloor_resp_le.
    change (inject_Z 2250) with 2250. rewrite <- F2250.
    apply fl_mono. rewrite E1. lra. }
  assert (HL : (2250 <= L)%Z) by lia.
  split; [exact HL|].
  assert (HLq : 2250 <= inject_Z L).
  { change 2250 with (inject_Z 2250). rewrite <- Zle_Qle. exact HL. }
  assert (Hp70 : 1 <= rate * c70).
  { apply Qle_trans with (rate * c160); [rewrite E1; lra|].
    apply Qmult_le_nonneg_l; [lra|]. rewrite E1. lra. }
  destruct (fl_error (rate * c70) ltac:(lra)) as [_ U70]. fold u in U70.
  destruct (fl_error (rate * c160) ltac:(rewrite E1; lra)) as [L160 _].
  fold u in L160.
  assert (Hup : inject_Z L <= rate * (8572 # 10000)).
  { apply Qle_trans with (inject_Z (Qfloor (fl (rate * c70)))).
    - rewrite <- Zle_Qle. exact Hhi.
    - apply Qle_trans with (fl (rate * c70)); [apply Qfloor_le|].
      apply Qle_trans with (rate * c70 * (1 + u)); [exact U70|].
      apply Qle_trans with (rate * (857143 # 1000000) * (1 + u)).
      + apply Qmult_le_compat_r; [|lra]. apply Qmult_le_nonneg_l; lra.
      + rewrite <- Qmult_assoc. apply Qmult_le_nonneg_l; [lra|].
        clearbody u. lra. }
  assert (Hdown : rate * (3 # 8) * (1 - u) < inject_Z L + 1).
  { apply Qle_lt_trans with (fl (rate * c160)).
    - rewrite <- E1. exact L160.
    - apply Qlt_le_trans with (inject_Z (Qfloor (fl (rate * c160)) + 1)).
      + apply Qlt_floor.
      + rewrite inject_Z_plus. change (inject_Z 1) with 1.
        apply Qplus_le_l. rewrite <- Zle_Qle. exact Hlo. }
  assert (Hdown' : rate * (37 # 100) < inject_Z L + 1).
  { apply Qle_lt_trans with (rate * (3 # 8) * (1 - u)); [|exact Hdown].
    rewrite <- Qmult_assoc. apply Qmult_le_nonneg_l; [lra|].
    clearbody u. lra. }
  clear Hdown U70 L160.
  (* the exact tempo, and its three roundings *)
  set (q := 60 * rate / inject_Z L).
  assert (Hq70 : (6999 # 100) <= q).
  { unfold q. apply Qle_shift_div_l; lra. }
  assert (Hq320 : q <= 320).
  { unfold q. apply Qle_shift_div_r; lra. }
  unfold one_decimal_tempo, js_mul, js_div. cbv zeta.
  destruct (fl_error (60 * rate) ltac:(lra)) as [A1 A2]. fold u in A1, A2.
  set (a := fl (60 * rate)) in *.
  assert (Haq : a / inject_Z L == (a / (60 * rate)) * q).
  { unfold q. field. split; lra. }
  assert (Hratio : 1 - u <= a / (60 * rate) /\ a / (60 * rate) <= 1 + u).
  { split; [apply Qle_shift_div_l | apply Qle_shift_div_r]; lra. }
  set (ra := a / (60 * rate)) in *.
  assert (B0 : q * (1 - u) <= a / inject_Z L /\ a / inject_Z L <= q * (1 + u)).
  { rewrite Haq. destruct Hratio as [R1 R2]. clearbody u ra q a.
    split; rewrite (Qmult_comm ra q); apply Qmult_le_nonneg_l; lra. }
  destruct B0 as [B1 B2].
  assert (Hb1 : 1 <= a / inject_Z L).
  { clearbody u ra q a. apply Qle_trans with (q * (1 - u)); [|exact B1].
    apply Qle_trans with ((6999 # 100) * (1 - u)); [lra|].
    apply Qmult_le_compat_r; lra. }
  destruct (fl_error (a / inject_Z L) ltac:(lra)) as [C1 C2]. fold u in C1, C2.
  set (b := a / inject_Z L) in *. set (c := fl b) in *.
  assert (Hc : 1 <= c).
  { unfold c. assert (F1 : fl 1 == 1) by (vm_compute; reflexivity).
    rewrite <- F1. apply fl_mono. exact Hb1. }
  destruct (fl_error (c * 10) ltac:(lra)) as [D1 D2]. fold u in D1, D2.
  set (d := fl (c * 10)) in *.
  destruct (three_roundings u Hu0 ltac:(lra)) as [T1 T2].
  assert (Hlow : q * 10 * (1 - 4 * u) <= d).
  { clearbody u ra q a b c d.
    apply Qle_trans with (q * 10 * ((1 - u) * ((1 - u) * (1 - u)))).
    - apply Qmult_le_nonneg_l; [lra | exact T1].
    - apply Qle_trans with (c * 10 * (1 - u)); [|exact D1].
      rewrite (Qmult_assoc (1 - u)), (Qmult_assoc (q * 10)).
      apply Qmult_le_compat_r; [|lra].
      apply Qle_trans with (b * (1 - u) * 10); [|lra].
      apply Qle_trans with (q * (1 - u) * (1 - u) * 10); [lra|].
      apply Qmult_le_compat_r; [|lra].
      apply Qmult_le_compat_r; [exact B1 | lra]. }
  assert (Hhigh : d <= q * 10 * (1 + 4 * u)).
  { clearbody u ra q a b c d.
    apply Qle_trans with (q * 10 * ((1 + u) * ((1 + u) * (1 + u)))).
    - apply Qle_trans with (c * 10 * (1 + u)); [exact D2|].
      rewrite (Qmult_assoc (1 + u)), (Qmult_assoc (q * 10)).
      apply Qmult_le_compat_r; [|lra].
      apply Qle_trans with (b * (1 + u) * 10); [lra|].
      apply Qle_trans with (q * (1 + u) * (1 + u) * 10); [|lra].
      apply Qmult_le_compat_r; [|lra].
      apply Qmult_le_compat_r; [exact B2 | lra].
    - apply Qmult_le_nonneg_l; [lra | exact T2]. }
  assert (Hd1 : (6995 # 10) <= d).
  { clearbody u ra q a b c d.
    apply Qle_trans with (q * 10 * (1 - 4 * u)); [|exact Hlow].
    apply Qle_trans with ((6999 # 10) * (1 - 4 * u)); [lra|].
    apply Qmult_le_compat_r; lra. }
  assert (Hd2 : d <= 3200 + (1 # 4)).
  { clearbody u ra q a b c d.
    apply Qle_trans with (q * 10 * (1 + 4 * u)); [exact Hhigh|].
    apply Qle_trans with (3200 * (1 + 4 * u)); [|lra].
    apply Qmult_le_compat_r; lra. }
  unfold Math_round.
  assert (Hf1 : (700 <= Qfloor (d + (1 # 2)))%Z).
  { rewrite <- (Qfloor_Z 700). apply Qfloor_resp_le.
    change (inject_Z 700) with 700. lra. }
  assert (Hf2 : (Qfloor (d + (1 # 2)) <= 3200)%Z).
  { apply Z.lt_succ_r. rewrite Zlt_Qlt.
    apply Qle_lt_trans with (d + (1 # 2)); [apply Qfloor_le|].
    change (inject_Z (Z.succ 3200)) with 3201. lra. }
  rewrite Zle_Qle in Hf1. rewrite Zle_Qle in Hf2.
  change (inject_Z 700) with 700 in Hf1.
  change (inject_Z 3200) with 3200 in Hf2.
  set (K := inject_Z (Qfloor (d + (1 # 2)))) in *.
  assert (F70 : fl 70 == 70) by (vm_compute; reflexivity).
  assert (F320 : fl 320 == 320) by (vm_compute; reflexivity).
  split.
  - rewrite <- F70. apply fl_mono. apply Qle_shift_div_l; lra.
  - rewrite <- F320. apply fl_mono. apply Qle_shift_div_r; lra.
Qed.

(** With tempos in that range the loops return at once or after one
    halving. *)
Lemma lag_to_bpm_returns (fuel : nat) (rate : Q) (L : Z) :
  (1 <= fuel)%nat ->
  6000 <= rate ->
  (minLag_of rate <= L <= maxLag_of rate)%Z ->
  exists y,
    folded (one_decimal_tempo rate L) y /\
    lag_to_bpm fuel rate L = Some (inject_Z (Math_round y)).
Proof.
  intros Hfuel Hrate HL.
  destruct (lag_tempo_bounds rate L Hrate HL) as (_ & H70 & H320).
  unfold lag_to_bpm. cbv zeta.
  change (js_div (inject_Z (Math_round (js_mul
            (js_div (js_mul 60 rate) (inject_Z L)) 10))) 10)
    with (one_decimal_tempo rate L).
  assert (Hx : is_double (one_decimal_tempo rate L)) by apply fl_idempotent.
  set (x := one_decimal_tempo rate L) in *. clearbody x.
  assert (Hd : double_while fuel x = Some x).
  { apply Qltb_false in H70. destruct fuel; cbn; rewrite H70; reflexivity. }
  rewrite Hd.
  destruct fuel as [|fuel]; [lia|].
  assert (Hh : exists y, halve_while (S fuel) x = Some y).
  { cbn [halve_while]. destruct (Qgtb x 160) eqn:E; [|eexists; reflexivity].
    assert (E2 : Qgtb (js_div x 2) 160 = false).
    { apply Qgtb_false. unfold js_div.
      assert (F160 : fl 160 == 160) by (vm_compute; reflexivity).
      rewrite <- F160. apply fl_mono.
      unfold Qdiv. change (/ 2) with (1 # 2). lra. }
    destruct fuel; cbn [halve_while]; rewrite E2; eexists; reflexivity. }
  destruct Hh as [y Hy]. rewrite Hy. exists y. split; [|reflexivity].
  exists x. split.
  - apply (double_while_sound (S fuel)); [exact Hx | exact Hd].
  - apply (halve_while_sound (S fuel)); [exact Hx | exact Hy].
Qed.

Lemma minLag_of_ge (rate : Q) : 6000 <= rate -> (2250 <= minLag_of rate)%Z.
Proof.
  intro Hrate. unfold minLag_of, Math_floor, js_mul.
  pose proof js_div_60_160 as E1.
  assert (F2250 : fl 2250 == 2250) by (vm_compute; reflexivity).
  rewrite <- (Qfloor_Z 2250). apply Qfloor_resp_le.
  change (inject_Z 2250) with 2250. rewrite <- F2250.
  apply fl_mono. rewrite E1. lra.
Qed.

Lemma effectiveRate_ge (sr : Z) :
  (6000 <= sr)%Z ->
  (1 <= sr / 6000)%Z /\ 6000 <= js_div (inject_Z sr) (inject_Z (sr / 6000)).
Proof.
  intro Hsr.
  assert (Hstep : (1 <= sr / 6000)%Z).
  { apply Z.div_le_lower_bound; lia. }
  split; [exact Hstep|].
  assert (Hmul : (6000 * (sr / 6000) <= sr)%Z) by (apply Z.mul_div_le; lia).
  assert (F6000 : fl 6000 == 6000) by (vm_compute; reflexivity).
  unfold js_div. rewrite <- F6000. apply fl_mono.
  apply Qle_shift_div_l.
  - change 0 with (inject_Z 0). rewrite <- Zlt_Qlt. lia.
  - change 6000 with (inject_Z 6000). rewrite <- inject_Z_mult, <- Zle_Qle. exact Hmul.
Qed.


(** Steps 3 to 5 return the reference result of the envelope they build. *)
Lemma bpm_of_filtered_reference (fuel : nat) (sr : Z) (filtered : list Q) (dur : Q) :
  (6000 <= sr)%Z -> (1 <= fuel)%nat -> ~ dur < 10 ->
  exists v,
    bpm_of_filtered fuel sr filtered = Some v /\
    bpm_reference (envelope filtered (sr / 6000))
                  (js_div (inject_Z sr) (inject_Z (sr / 6000))) dur v.
Proof.
  intros Hsr Hfuel Hdur.
  destruct (effectiveRate_ge sr Hsr) as [Hstep Hrate].
  unfold bpm_of_filtered.
  destruct (Z.leb_spec (sr / 6000) 0) as [Hbad | _]; [lia|].
  set (rate := js_div (inject_Z sr) (inject_Z (sr / 6000))) in *.
  set (env := envelope filtered (sr / 6000)).
  pose proof (minLag_of_ge rate Hrate) as Hlo.
  pose proof (search_lags_spec env (minLag_of rate) (maxLag_of rate)
                ltac:(lia)) as Hspec.
  cbv zeta in Hspec.
  destruct (search_lags env (minLag_of rate) (maxLag_of rate)) as [mc bestLag].
  cbn [snd] in Hspec.
  destruct Hspec as [[Hz Hno] | [Hnz Hbest]].
  - subst bestLag. cbn. exists 0. split; [reflexivity|].
    right. left. split; [exact Hdur|]. split; [exact Hno | reflexivity].
  - destruct (Z.eqb_spec bestLag 0) as [He | _]; [contradiction|].
    destruct (lag_to_bpm_returns fuel rate bestLag Hfuel Hrate
                ltac:(destruct Hbest as [Hr _]; exact Hr)) as (y & Hf & Hret).
    exists (inject_Z (Math_round y)). split; [exact Hret|].
    right. right. split; [exact Hdur|]. exists bestLag, y.
    split; [exact Hbest|]. split; [exact Hf | reflexivity].
Qed.




(** The window ends at the floor of the rounded product: at 18004 Hz the
    envelope rate is the double nearest to [18004 / 3] and the last lag
    searched is 5143, where the exact product [18004 / 3 * 60 / 70] is
    5144. *)
Lemma maxLag_of_rounded_product :
  maxLag_of (js_div (inject_Z 18004) (inject_Z (18004 / 6000))) = 5143%Z /\
  Math_floor (inject_Z 18004 / inject_Z (18004 / 6000) * (60 / 70)) = 5144%Z.
Proof. split; vm_compute; reflexivity. Qed.

(** The tempo of a lag is computed on doubles as well: at 18139 Hz and
    lag 4400 the quotient [60 * rate / 4400] rounds to a double whose
    product by 10 rounds to 824.5, so the tempo to one decimal is 82.5
    and the result 83; the exact quotient is below 82.45 and would give
    82. *)
Lemma lag_to_bpm_rounded_quotient :
  let rate := js_div (inject_Z 18139) (inject_Z (18139 / 6000)) in
  lag_to_bpm 1 rate 4400 = Some 83 /\
  one_decimal_tempo rate 4400 == 825 # 10 /\
  inject_Z (Math_round (60 * rate / 4400 * 10)) / 10 == 824 # 10.
Proof.
  cbv zeta. split; [|split]; vm_compute; reflexivity.
Qed.

(** ** The range of [currentTime] *)

(** C4 fails on [reload_during_scratch]: every deck along the run has a
    buffer loaded once the first decode has settled, and the run ends
    with [currentTime] at 50 s on a track of 10 s.  [stopScratch] stores
    the scratch position without the clamp that [update] and [seek]
    apply. *)
Theorem currentTime_exceeds_duration :
  exists w,
    run initial_world reload_during_scratch = Some w /\
    reachable w /\
    buffer (deck w) = Some (demo_buffer 10) /\
    duration (deck w) == 10 /\
    currentTime (deck w) == 50 /\
    ~ currentTime (deck w) <= duration (deck w).
Proof.
  eexists. split; [vm_compute; reflexivity|].
  split; [exists reload_during_scratch; vm_compute; reflexivity|].
  split; [reflexivity|]. split; [reflexivity|]. split; [reflexivity|].
  vm_compute. intro H. apply H. reflexivity.
Qed.

(** *** The invariant of sequential runs *)

Ltac deck_simpl :=
  cbn [isPlaying currentTime buffer duration cuePoints fileName bpm
       playbackRate source startTime pausedAt isScratching currentSample
       targetSample wasPlayingBeforeScratch processor
       setIsPlaying setCurrentTime setBuffer setDuration setCuePoints
       setFileName setBpm setPlaybackRateState set_source set_startTime
       set_pausedAt set_isScratching set_currentSample set_targetSample
       set_wasPlayingBeforeScratch set_processor
       negb andb orb fst snd] in *.

Lemma wf_buffer_duration_pos (b : AudioBuffer) :
  wf_buffer b -> 0 < buffer_duration b /\ 0 < inject_Z (sampleRate b).
Proof.
  intros (Hsr & Hlen & _).
  assert (H1 : 0 < inject_Z (sampleRate b)).
  { change 0 with (inject_Z 0). rewrite <- Zlt_Qlt. exact Hsr. }
  assert (H2 : 0 < inject_Z (buffer_length b)).
  { change 0 with (inject_Z 0). rewrite <- Zlt_Qlt. exact Hlen. }
  split; [|exact H1].
  unfold buffer_duration. apply Qlt_shift_div_l; [exact H1|]. lra.
Qed.

Lemma clamp_in_range (t hi : Q) :
  0 <= hi -> 0 <= Qmax 0 (Qmin t hi) /\ Qmax 0 (Qmin t hi) <= hi.
Proof.
  intro Hhi. split.
  - apply Q.le_max_l.
  - apply Q.max_lub; [exact Hhi | apply Q.le_min_r].
Qed.

Lemma sample_time_in_range (cs sr dur : Q) :
  0 < sr -> 0 <= cs -> cs <= dur * sr -> 0 <= cs / sr /\ cs / sr <= dur.
Proof.
  intros Hsr H0 H1. split.
  - apply Qle_shift_div_l; [exact Hsr | lra].
  - apply Qle_shift_div_r; [exact Hsr | exact H1].
Qed.

Lemma deck_inv_later (now now' : Q) (d : Deck) :
  now <= now' -> deck_inv now d -> deck_inv now' d.
Proof.
  intros Hle (Hct & Hpa & Hr & Hst & Hb).
  repeat split; try tauto.
  intro Hp. apply Qle_trans with now; [apply Hst, Hp | exact Hle].
Qed.

Lemma loadFile_sync_inv (now : Q) (f : File) (d : Deck) :
  deck_inv now d ->
  deck_inv now (loadFile_sync f d) /\ isScratching (loadFile_sync f d) = false.
Proof.
  destruct d as [ip ct bu du cu fn bp pr so st pa sc cs ts wp pc].
  unfold deck_inv, loadFile_sync. deck_simpl.
  intros (Hct & Hpa & Hr & Hst & Hb).
  assert (Hb' : match bu with
                | Some b =>
                    wf_buffer b /\ du = buffer_duration b /\
                    (false = true ->
                     (0 <= cs /\ cs <= du * inject_Z (sampleRate b)) /\
                     (0 <= ts /\ ts <= du * inject_Z (sampleRate b)))
                | None => false = false /\ false = false
                end).
  { destruct bu as [b|]; [|split; reflexivity].
    destruct Hb as (Hwf & Hdu & _). split; [exact Hwf|]. split; [exact Hdu|].
    discriminate. }
  destruct so; deck_simpl; (split; [|reflexivity]);
    (split; [exact Hct|]; split; [exact Hpa|]; split; [exact Hr|];
     split; [discriminate | exact Hb']).
Qed.

Lemma loadFile_resume_inv (now : Q) (f : File) (d : Deck) :
  wf_file f -> isScratching d = false ->
  deck_inv now d -> deck_inv now (loadFile_resume f d).
Proof.
  intros Hwf Hns Hinv. unfold wf_file in Hwf.
  destruct (file_decode f) as [b|] eqn:Hf.
  - destruct (loadFile_resume_decoded f b d Hf)
      as (Hb & Hdu & Hpa & Hct & Hpr & _ & _ & Hip & Hsc & Hst & Hcs & Hts & _).
    destruct (wf_buffer_duration_pos b Hwf) as [Hpos Hsr].
    destruct Hinv as (_ & _ & _ & Hstart & _).
    unfold deck_inv. rewrite Hb, Hdu, Hpa, Hct, Hpr, Hip, Hsc, Hst, Hcs, Hts.
    split; [split; lra|]. split; [split; lra|]. split; [reflexivity|].
    split; [exact Hstart|]. split; [exact Hwf|]. split; [reflexivity|].
    intro Hs. congruence.
  - unfold loadFile_resume. rewrite Hf. exact Hinv.
Qed.

Ltac inv_split :=
  repeat match goal with
         | |- _ /\ _ => split
         end.

Lemma handlePlay_inv (now : Q) (d : Deck) :
  deck_inv now d -> deck_inv now (handlePlay now d).
Proof.
  destruct d as [ip ct bu du cu fn bp pr so st pa sc cs ts wp pc].
  unfold deck_inv, handlePlay. deck_simpl.
  intros (Hct & Hpa & Hr & Hst & Hb).
  destruct bu as [b|]; deck_simpl; [|inv_split; tauto].
  destruct ip; deck_simpl; [inv_split; tauto|].
  destruct sc; deck_simpl; [inv_split; tauto|].
  destruct Hb as (Hwf & Hdu & _).
  destruct (Qgeb pa (buffer_duration b)) eqn:E; deck_simpl;
    inv_split; try tauto; try lra; try apply Qle_refl; discriminate.
Qed.

Lemma handlePause_inv (now : Q) (d : Deck) :
  deck_inv now d -> deck_inv now (handlePause now d).
Proof.
  destruct d as [ip ct bu du cu fn bp pr so st pa sc cs ts wp pc].
  unfold deck_inv, handlePause. deck_simpl.
  intros (Hct & Hpa & Hr & Hst & Hb).
  destruct ip; deck_simpl; [|inv_split; tauto].
  destruct bu as [b|]; [|destruct Hb; discriminate].
  specialize (Hst eq_refl).
  destruct so as [s|]; deck_simpl.
  - assert (Hel : 0 <= (now - st) * pr).
    { apply Qmult_le_0_compat; lra. }
    assert (Hmin : 0 <= Math_min (pa + (now - st) * pr) du /\
                   Math_min (pa + (now - st) * pr) du <= du).
    { unfold Math_min. split; [apply Q.min_glb; lra | apply Q.le_min_r]. }
    inv_split; try tauto; try discriminate.
  - inv_split; try tauto; discriminate.
Qed.

Lemma update_inv (now : Q) (d : Deck) :
  deck_inv now d -> deck_inv now (update now d).
Proof.
  intro Hinv. unfold update.
  destruct (isScratching d) eqn:Hs.
  - destruct d as [ip ct bu du cu fn bp pr so st pa sc cs ts wp pc].
    unfold deck_inv in *. deck_simpl. subst sc.
    destruct Hinv as (Hct & Hpa & Hr & Hst & Hb).
    destruct bu as [b|]; deck_simpl; [|inv_split; tauto].
    destruct Hb as (Hwf & Hdu & Hrange).
    destruct (Hrange eq_refl) as [[Hc0 Hc1] Ht].
    destruct (wf_buffer_duration_pos b Hwf) as [Hpos Hsr].
    destruct (sample_time_in_range cs _ du Hsr Hc0 Hc1) as [Hq0 Hq1].
    destruct (clamp_in_range (cs / inject_Z (sampleRate b)) (buffer_duration b))
      as [Hk0 Hk1]; [lra|].
    unfold Math_max, Math_min. rewrite Hdu in *.
    inv_split; try tauto.
  - destruct (isPlaying d) eqn:Hp; [|exact Hinv].
    destruct (source d) as [s|] eqn:Hsrc; [|exact Hinv].
    destruct (Qgeb (pausedAt d + (now - startTime d) * playbackRate d) (duration d)
              && Qgtb (duration d) 0) eqn:E.
    + pose proof (handlePause_inv now d Hinv) as Hp'.
      destruct (handlePause now d)
        as [ip ct bu du cu fn bp pr so st pa sc cs ts wp pc].
      unfold deck_inv in *. deck_simpl.
      destruct Hp' as ([Hct0 Hct1] & Hpa' & Hr & Hst & Hb).
      assert (Hdu : 0 <= du) by lra.
      inv_split; try tauto; try apply Qle_refl.
    + destruct d as [ip ct bu du cu fn bp pr so st pa sc cs ts wp pc].
      unfold deck_inv in *. deck_simpl. subst ip sc.
      destruct Hinv as (Hct & Hpa & Hr & Hst & Hb).
      specialize (Hst eq_refl).
      destruct bu as [b|]; [|destruct Hb; discriminate].
      destruct Hb as (Hwf & Hdu & Hrange).
      destruct (wf_buffer_duration_pos b Hwf) as [Hpos _].
      assert (Hel : 0 <= (now - st) * pr).
      { apply Qmult_le_0_compat; lra. }
      apply andb_false_iff in E. destruct E as [E | E].
      * apply Qgeb_false in E. inv_split; try tauto; lra.
      * apply Qgtb_false in E. exfalso. subst du. lra.
Qed.

Lemma seek_closure_inv (isPlaying0 : bool) (time now : Q) (d : Deck) :
  deck_inv now d -> deck_inv now (seek_closure isPlaying0 time now d).
Proof.
  destruct d as [ip ct bu du cu fn bp pr so st pa sc cs ts wp pc].
  unfold deck_inv, seek_closure. deck_simpl.
  intros (Hct & Hpa & Hr & Hst & Hb).
  destruct bu as [b|]; deck_simpl; [|inv_split; tauto].
  destruct Hb as (Hwf & Hdu & Hrange).
  destruct (wf_buffer_duration_pos b Hwf) as [Hpos Hsr].
  destruct (clamp_in_range time du) as [Hk0 Hk1]; [lra|].
  unfold Math_max, Math_min.
  destruct sc; deck_simpl.
  - destruct (Hrange eq_refl) as [Hc Ht].
    inv_split; try tauto.
    intros _. split; [exact Hc|]. split.
    + apply Qmult_le_0_compat; lra.
    + apply Qmult_le_compat_r; lra.
  - destruct isPlaying0; deck_simpl;
      inv_split; try tauto; try discriminate; intros; apply Qle_refl.
Qed.

Lemma startScratch_inv (now : Q) (d : Deck) :
  deck_inv now d -> deck_inv now (startScratch d).
Proof.
  destruct d as [ip ct bu du cu fn bp pr so st pa sc cs ts wp pc].
  unfold deck_inv, startScratch. deck_simpl.
  intros (Hct & Hpa & Hr & Hst & Hb).
  destruct bu as [b|]; deck_simpl; [|inv_split; tauto].
  destruct Hb as (Hwf & Hdu & _).
  destruct (wf_buffer_duration_pos b Hwf) as [Hpos Hsr].
  assert (H0 : 0 <= pa * inject_Z (sampleRate b)).
  { apply Qmult_le_0_compat; lra. }
  assert (H1 : pa * inject_Z (sampleRate b) <= du * inject_Z (sampleRate b)).
  { apply Qmult_le_compat_r; lra. }
  destruct so as [s|]; [destruct ip|]; deck_simpl;
    inv_split; try tauto; discriminate.
Qed.

Lemma stopScratch_inv (now : Q) (d : Deck) :
  deck_inv now d -> deck_inv now (stopScratch now d).
Proof.
  intro Hinv. unfold stopScratch.
  destruct (isScratching d) eqn:Hs; deck_simpl; [|exact Hinv].
  match goal with
  | |- deck_inv now (if wasPlayingBeforeScratch ?x then _ else _) =>
      assert (Hx : deck_inv now x)
  end.
  { destruct d as [ip ct bu du cu fn bp pr so st pa sc cs ts wp pc].
    unfold deck_inv in *. deck_simpl. subst sc.
    destruct Hinv as (Hct & Hpa & Hr & Hst & Hb).
    destruct bu as [b|]; deck_simpl; [|destruct Hb; discriminate].
    destruct Hb as (Hwf & Hdu & Hrange).
    destruct (Hrange eq_refl) as [[Hc0 Hc1] Ht].
    destruct (wf_buffer_duration_pos b Hwf) as [Hpos Hsr].
    destruct (sample_time_in_range cs _ du Hsr Hc0 Hc1) as [Hq0 Hq1].
    inv_split; try tauto; discriminate. }
  match goal with
  | |- deck_inv now (if ?c then _ else _) => destruct c
  end; [apply handlePlay_inv|]; exact Hx.
Qed.

Lemma jumpToNextCue_inv (now : Q) (d : Deck) :
  deck_inv now d -> deck_inv now (jumpToNextCue now d).
Proof.
  intro Hinv. unfold jumpToNextCue. apply seek_closure_inv.
  destruct (isScratching d); [apply stopScratch_inv|]; exact Hinv.
Qed.

Lemma setCuePoints_inv (now : Q) (l : list Q) (d : Deck) :
  deck_inv now d -> deck_inv now (setCuePoints l d).
Proof.
  destruct d as [ip ct bu du cu fn bp pr so st pa sc cs ts wp pc]. exact (fun H => H).
Qed.

Lemma addCuePoint_inv (now : Q) (d : Deck) :
  deck_inv now d -> deck_inv now (addCuePoint d).
Proof.
  intro Hinv. unfold addCuePoint.
  destruct (negb _); [apply setCuePoints_inv|]; exact Hinv.
Qed.

Lemma setBpm_inv (now v : Q) (d : Deck) :
  deck_inv now d -> deck_inv now (setBpm v d).
Proof.
  destruct d as [ip ct bu du cu fn bp pr so st pa sc cs ts wp pc]. exact (fun H => H).
Qed.

Lemma setPlaybackRate_inv (now v : Q) (d : Deck) :
  0 < v -> deck_inv now d -> deck_inv now (setPlaybackRate v d).
Proof.
  intro Hv.
  destruct d as [ip ct bu du cu fn bp pr so st pa sc cs ts wp pc].
  unfold deck_inv, setPlaybackRate, playbackRate_effect. deck_simpl.
  intros (Hct & Hpa & Hr & Hst & Hb).
  destruct so as [s|]; [destruct sc|]; deck_simpl; inv_split; tauto.
Qed.

Lemma onaudioprocess_inv (now : Q) (b0 : AudioBuffer) (n : nat) (d : Deck) :
  deck_inv now d -> deck_inv now (fst (onaudioprocess b0 n d)).
Proof.
  revert d. induction n as [|n IH]; intros d Hinv; [exact Hinv|].
  cbn [onaudioprocess].
  set (d1 := set_currentSample _ d).
  assert (H1 : deck_inv now d1).
  { unfold d1. clear d1 IH.
    destruct d as [ip ct bu du cu fn bp pr so st pa sc cs ts wp pc].
    unfold deck_inv in *. deck_simpl.
    destruct Hinv as (Hct & Hpa & Hr & Hst & Hb).
    destruct bu as [b|]; [|inv_split; tauto].
    destruct Hb as (Hwf & Hdu & Hrange).
    inv_split; try tauto.
    intro Hs. destruct (Hrange Hs) as [Hc Ht]. unfold physics_step.
    inv_split; lra. }
  specialize (IH d1 H1).
  destruct (onaudioprocess b0 n d1) as [d' frs]. exact IH.
Qed.

Lemma initial_world_inv : world_inv initial_world.
Proof.
  split; [|reflexivity]. unfold deck_inv. cbn.
  inv_split; try reflexivity; try discriminate; lra.
Qed.

Lemma step_plain_inv (w w' : World) (op : Op) :
  plain_op op -> world_inv w -> step w op = Some w' -> world_inv w'.
Proof.
  intros Hop [Hinv Hdec] Hstep.
  destruct op; cbn [plain_op] in Hop; try contradiction;
    cbn [step on_deck] in Hstep.
  - (* OpAnalysisDone *)
    destruct (nth_error (analysing w) i); [|discriminate].
    injection Hstep as <-. split; [|exact Hdec].
    cbn [deck clock]. apply setBpm_inv, Hinv.
  - injection Hstep as <-. split; [|exact Hdec]. apply handlePlay_inv, Hinv.
  - injection Hstep as <-. split; [|exact Hdec]. apply handlePause_inv, Hinv.
  - injection Hstep as <-. split; [|exact Hdec]. apply seek_closure_inv, Hinv.
  - injection Hstep as <-. split; [|exact Hdec]. apply startScratch_inv, Hinv.
  - injection Hstep as <-. split; [|exact Hdec]. apply seek_closure_inv, Hinv.
  - injection Hstep as <-. split; [|exact Hdec]. apply stopScratch_inv, Hinv.
  - injection Hstep as <-. split; [|exact Hdec]. apply addCuePoint_inv, Hinv.
  - injection Hstep as <-. split; [|exact Hdec]. apply setCuePoints_inv, Hinv.
  - injection Hstep as <-. split; [|exact Hdec]. apply jumpToNextCue_inv, Hinv.
  - injection Hstep as <-. split; [|exact Hdec].
    apply setPlaybackRate_inv; [exact Hop | exact Hinv].
  - injection Hstep as <-. split; [|exact Hdec]. apply setBpm_inv, Hinv.
  - (* OpWait *)
    destruct (Qle_bool 0 dt) eqn:E; [|discriminate].
    apply Qle_bool_iff in E. injection Hstep as <-. split; [|exact Hdec].
    cbn [deck clock]. apply (deck_inv_later (clock w)); [lra | exact Hinv].
  - injection Hstep as <-. split; [|exact Hdec]. apply update_inv, Hinv.
  - (* OpAudioBlock *)
    destruct (processor (deck w)); [|discriminate].
    destruct (buffer (deck w)) as [b|]; [|discriminate].
    injection Hstep as <-. split; [|exact Hdec].
    cbn [deck clock]. apply onaudioprocess_inv, Hinv.
Qed.

Lemma load_settled_inv (w w' : World) (f : File) :
  wf_file f -> world_inv w ->
  run w [OpLoadFile f; OpDecodeSettled 0] = Some w' ->
  deck w' = loadFile f (deck w) /\ world_inv w'.
Proof.
  intros Hwf [Hinv Hdec] Hrun.
  cbn [run step] in Hrun. rewrite Hdec in Hrun.
  cbn [app nth_error decoding deck clock analysing remove_nth] in Hrun.
  injection Hrun as <-. split; [reflexivity|]. split; [|reflexivity].
  cbn [deck clock].
  destruct (loadFile_sync_inv (clock w) f (deck w) Hinv) as [Hsync Hns].
  apply loadFile_resume_inv; assumption.
Qed.

Lemma sequential_run_inv (ops : list Op) :
  sequential ops ->
  forall w w', world_inv w -> run w ops = Some w' -> world_inv w'.
Proof.
  induction 1 as [|f ops Hwf _ IH|op ops Hop _ IH]; intros w w' Hinv Hrun.
  - injection Hrun as <-. exact Hinv.
  - change (OpLoadFile f :: OpDecodeSettled 0 :: ops)
      with ([OpLoadFile f; OpDecodeSettled 0] ++ ops) in Hrun.
    destruct (run w [OpLoadFile f; OpDecodeSettled 0]) as [w1|] eqn:E.
    + destruct (load_settled_inv w w1 f Hwf Hinv E) as [_ H1].
      apply (IH w1 w' H1).
      cbn [run app] in Hrun, E.
      destruct (step w (OpLoadFile f)) as [wa|]; [|discriminate].
      destruct (step wa (OpDecodeSettled 0)) as [wb|]; [|discriminate].
      injection E as ->. exact Hrun.
    + exfalso. cbn [run app] in Hrun, E.
      destruct (step w (OpLoadFile f)) as [wa|]; [|discriminate].
      destruct (step wa (OpDecodeSettled 0)) as [wb|]; discriminate.
  - cbn [run] in Hrun.
    destruct (step w op) as [w1|] eqn:E; [|discriminate].
    apply (IH w1 w'); [|exact Hrun].
    apply (step_plain_inv w w1 op Hop Hinv E).
Qed.

(** In sequential runs, where every load has settled before the next
    operation, [currentTime] stays in [[0, duration]]. *)
Theorem sequential_currentTime_in_range :
  forall (ops : list Op) (w : World),
    sequential ops ->
    run initial_world ops = Some w ->
    0 <= currentTime (deck w) /\ currentTime (deck w) <= duration (deck w).
Proof.
  intros ops w Hseq Hrun.
  destruct (sequential_run_inv ops Hseq initial_world w initial_world_inv Hrun)
    as [(Hct & _) _].
  exact Hct.
Qed.

Lemma sequential_currentTime_in_range_witness :
  exists w,
    run initial_world
        [OpLoadFile (demo_file "long.wav" 100); OpDecodeSettled 0; OpSeek 50;
         OpStartScratch; OpGesture 70; OpAudioBlock 3; OpStopScratch;
         OpPlay; OpWait 5; OpFrame] = Some w /\
    0 <= currentTime (deck w) /\ currentTime (deck w) <= duration (deck w).
Proof.
  eexists. split; [vm_compute; reflexivity|].
  apply (sequential_currentTime_in_range
           [OpLoadFile (demo_file "long.wav" 100); OpDecodeSettled 0; OpSeek 50;
            OpStartScratch; OpGesture 70; OpAudioBlock 3; OpStopScratch;
            OpPlay; OpWait 5; OpFrame]).
  - apply sequential_load.
    + unfold wf_file, wf_buffer. cbn. repeat split; try lia. repeat constructor.
    + repeat (apply sequential_plain; [exact I|]). apply sequential_nil.
  - vm_compute. reflexivity.
Defined.

(** ** The cue list of a reachable deck *)

Ltac case_matches :=
  repeat match goal with
         | |- context [match ?x with _ => _ end] => destruct x; deck_simpl
         end.

Lemma handlePlay_cuePoints (now : Q) (d : Deck) :
  cuePoints (handlePlay now d) = cuePoints d.
Proof.
  destruct d as [ip ct bu du cu fn bp pr so st pa sc cs ts wp pc].
  unfold handlePlay. deck_simpl.
  destruct bu as [b|]; [|reflexivity].
  destruct ip; [reflexivity|]. destruct sc; [reflexivity|].
  destruct (Qgeb pa (buffer_duration b)); reflexivity.
Qed.

Lemma handlePause_cuePoints (now : Q) (d : Deck) :
  cuePoints (handlePause now d) = cuePoints d.
Proof.
  destruct d as [ip ct bu du cu fn bp pr so st pa sc cs ts wp pc].
  unfold handlePause. deck_simpl. case_matches; reflexivity.
Qed.

Lemma update_cuePoints (now : Q) (d : Deck) :
  cuePoints (update now d) = cuePoints d.
Proof.
  unfold update.
  destruct (isScratching d); [destruct (buffer d); reflexivity|].
  destruct (isPlaying d); [|reflexivity].
  destruct (source d); [|reflexivity].
  destruct (_ && _); [|reflexivity].
  cbn [cuePoints set_pausedAt setCurrentTime]. apply handlePause_cuePoints.
Qed.

Lemma seek_closure_cuePoints (isPlaying0 : bool) (time now : Q) (d : Deck) :
  cuePoints (seek_closure isPlaying0 time now d) = cuePoints d.
Proof.
  destruct d as [ip ct bu du cu fn bp pr so st pa sc cs ts wp pc].
  unfold seek_closure. deck_simpl. case_matches; reflexivity.
Qed.

Lemma startScratch_cuePoints (d : Deck) :
  cuePoints (startScratch d) = cuePoints d.
Proof.
  destruct d as [ip ct bu du cu fn bp pr so st pa sc cs ts wp pc].
  unfold startScratch. deck_simpl. case_matches; reflexivity.
Qed.

Lemma stopScratch_cuePoints (now : Q) (d : Deck) :
  cuePoints (stopScratch now d) = cuePoints d.
Proof.
  unfold stopScratch. destruct (negb (isScratching d)); [reflexivity|].
  match goal with
  | |- cuePoints (if ?c then handlePlay now ?x else _) = _ =>
      assert (Hx : cuePoints x = cuePoints d);
      [| destruct c; [rewrite handlePlay_cuePoints|]; exact Hx]
  end.
  destruct d as [ip ct bu du cu fn bp pr so st pa sc cs ts wp pc].
  deck_simpl. destruct bu; reflexivity.
Qed.

Lemma jumpToNextCue_cuePoints (now : Q) (d : Deck) :
  cuePoints (jumpToNextCue now d) = cuePoints d.
Proof.
  unfold jumpToNextCue. rewrite seek_closure_cuePoints.
  destruct (isScratching d); [apply stopScratch_cuePoints | reflexivity].
Qed.

Lemma setPlaybackRate_cuePoints (v : Q) (d : Deck) :
  cuePoints (setPlaybackRate v d) = cuePoints d.
Proof.
  destruct d as [ip ct bu du cu fn bp pr so st pa sc cs ts wp pc].
  unfold setPlaybackRate, playbackRate_effect. deck_simpl.
  case_matches; reflexivity.
Qed.

Lemma loadFile_sync_cuePoints (f : File) (d : Deck) :
  cuePoints (loadFile_sync f d) = cuePoints d.
Proof.
  destruct d as [ip ct bu du cu fn bp pr so st pa sc cs ts wp pc].
  unfold loadFile_sync. deck_simpl. case_matches; reflexivity.
Qed.

Lemma onaudioprocess_cuePoints (b : AudioBuffer) (n : nat) (d : Deck) :
  cuePoints (fst (onaudioprocess b n d)) = cuePoints d.
Proof.
  revert d. induction n as [|n IH]; intro d; [reflexivity|].
  cbn [onaudioprocess].
  specialize (IH (set_currentSample
                    (physics_step (targetSample d) (currentSample d)) d)).
  destruct (onaudioprocess b n _) as [d' frs]. exact IH.
Qed.

Lemma step_cue_reachable (w w' : World) (op : Op) :
  cue_reachable (cuePoints (deck w)) ->
  step w op = Some w' ->
  cue_reachable (cuePoints (deck w')).
Proof.
  intros Hc Hstep. destruct op; cbn [step on_deck] in Hstep.
  - injection Hstep as <-. unfold on_deck; cbn [deck]. rewrite loadFile_sync_cuePoints. exact Hc.
  - destruct (nth_error (decoding w) i) as [f|]; [|discriminate].
    injection Hstep as <-. unfold on_deck; cbn [deck].
    destruct (file_decode f) as [b|] eqn:Hf.
    + destruct (loadFile_resume_decoded f b (deck w) Hf)
        as (_ & _ & _ & _ & _ & Hcue & _).
      rewrite Hcue. constructor.
    + unfold loadFile_resume. rewrite Hf. exact Hc.
  - destruct (nth_error (analysing w) i); [|discriminate].
    injection Hstep as <-. exact Hc.
  - injection Hstep as <-. unfold on_deck; cbn [deck]. rewrite handlePlay_cuePoints. exact Hc.
  - injection Hstep as <-. unfold on_deck; cbn [deck]. rewrite handlePause_cuePoints. exact Hc.
  - injection Hstep as <-. unfold on_deck; cbn [deck]. unfold seek.
    rewrite seek_closure_cuePoints. exact Hc.
  - injection Hstep as <-. unfold on_deck; cbn [deck]. rewrite startScratch_cuePoints. exact Hc.
  - injection Hstep as <-. unfold on_deck; cbn [deck]. unfold gestureUpdate, seek.
    rewrite seek_closure_cuePoints. exact Hc.
  - injection Hstep as <-. unfold on_deck; cbn [deck]. rewrite stopScratch_cuePoints. exact Hc.
  - injection Hstep as <-. unfold on_deck; cbn [deck]. apply cue_add. exact Hc.
  - injection Hstep as <-. unfold on_deck; cbn [deck]. apply cue_remove. exact Hc.
  - injection Hstep as <-. unfold on_deck; cbn [deck]. rewrite jumpToNextCue_cuePoints. exact Hc.
  - injection Hstep as <-. unfold on_deck; cbn [deck]. rewrite setPlaybackRate_cuePoints. exact Hc.
  - injection Hstep as <-. exact Hc.
  - destruct (Qle_bool 0 dt); [|discriminate]. injection Hstep as <-. exact Hc.
  - injection Hstep as <-. unfold on_deck; cbn [deck]. rewrite update_cuePoints. exact Hc.
  - destruct (processor (deck w)); [|discriminate].
    destruct (buffer (deck w)) as [b|]; [|discriminate].
    injection Hstep as <-. unfold on_deck; cbn [deck]. rewrite onaudioprocess_cuePoints. exact Hc.
Qed.

Lemma run_cue_reachable (ops : list Op) :
  forall w w',
    cue_reachable (cuePoints (deck w)) ->
    run w ops = Some w' ->
    cue_reachable (cuePoints (deck w')).
Proof.
  induction ops as [|op ops IH]; intros w w' Hc Hrun; cbn [run] in Hrun.
  - injection Hrun as <-. exact Hc.
  - destruct (step w op) as [w1|] eqn:E; [|discriminate].
    apply (IH w1 w'); [|exact Hrun].
    apply (step_cue_reachable w w1 op Hc E).
Qed.

(** The cue list of every reachable deck is ascending, with no two
    entries within 0.1 s of each other. *)
Lemma reachable_cues_sorted (w : World) :
  reachable w ->
  Sorted Qle (cuePoints (deck w)) /\ separated (cuePoints (deck w)).
Proof.
  intros [ops Hrun]. apply cue_reachable_sorted_separated.
  apply (run_cue_reachable ops initial_world w); [constructor | exact Hrun].
Qed.

(** C8: on every reachable deck, [jumpToNextCue] seeks to the least stored
    cue strictly after [currentTime + 0.05], the sum being the one the
    code computes on doubles, when there is one, else to the least stored
    cue, else to 0 when no cue is stored.  With cues at 10, 20 and 30 the
    target is 30 from 25 and 10 from 35. *)
Theorem jumpToNextCue_target :
  (forall (w : World) (now : Q),
     reachable w ->
     let d := deck w in
     let cues := cuePoints d in
     let t := currentTime d in
     let threshold := js_add t (js_literal (1 # 20)) in
     let target := nextCueTarget cues t in
     jumpToNextCue now d
     = seek_closure (isPlaying d) target now
         (if isScratching d then stopScratch now d else d) /\
     ((exists c, In c cues /\ threshold < c) ->
      In target cues /\ threshold < target /\
      forall c, In c cues -> threshold < c -> target <= c) /\
     (cues <> [] -> (forall c, In c cues -> c <= threshold) ->
      In target cues /\ forall c, In c cues -> target <= c) /\
     (cues = [] -> target = 0)) /\
  nextCueTarget [10; 20; 30] 25 = 30 /\
  nextCueTarget [10; 20; 30] 35 = 10.
Proof.
  split; [|split; vm_compute; reflexivity].
  intros w now Hreach d cues t threshold target.
  split; [reflexivity|].
  apply nextCueTarget_sorted.
  apply (reachable_cues_sorted w Hreach).
Qed.

Lemma jumpToNextCue_target_witness :
  exists w,
    run initial_world three_cues_run = Some w /\
    cuePoints (deck w) = [10; 20; 30] /\ currentTime (deck w) = 25 /\
    In (nextCueTarget (cuePoints (deck w)) (currentTime (deck w))) (cuePoints (deck w)) /\
    js_add 25 (js_literal (1 # 20))
    < nextCueTarget (cuePoints (deck w)) (currentTime (deck w)) /\
    (forall c, In c (cuePoints (deck w)) -> js_add 25 (js_literal (1 # 20)) < c ->
               nextCueTarget (cuePoints (deck w)) (currentTime (deck w)) <= c).
Proof.
  eexists. split; [vm_compute; reflexivity|].
  split; [reflexivity|]. split; [reflexivity|].
  refine (proj1 (proj2 (proj1 jumpToNextCue_target _ 0 _)) _).
  - exists three_cues_run. vm_compute. reflexivity.
  - exists 30. split; [right; right; left; reflexivity | vm_compute; reflexivity].
Defined.

(** The threshold is the rounded sum, not the exact one.  At the double
    nearest to 19.95 the exact sum with 1/20 is below 20, but the sum of
    the two doubles rounds to 20: the cue at 20 is not strictly after it
    and the jump goes to 30.  At the doubles nearest to 0.12 and 0.17 the
    rounded sum is below the cue, and the jump goes to it. *)
Lemma nextCueTarget_rounded_sum :
  let t := js_literal (1995 # 100) in
  t + (1 # 20) < 20 /\
  js_add t (js_literal (1 # 20)) == 20 /\
  nextCueTarget [10; 20; 30] t = 30 /\
  js_add (js_literal (12 # 100)) (js_literal (1 # 20)) < js_literal (17 # 100) /\
  nextCueTarget [js_literal (17 # 100); 1] (js_literal (12 # 100))
  = js_literal (17 # 100).
Proof.
  cbv zeta. repeat split; vm_compute; reflexivity.
Qed.

(** * Further properties of the transport *)

(** X1: on a paused, non-scratching deck, [play] at [now0] followed by
    [pause] at [now1] leaves the deck paused at the start position plus
    the elapsed time scaled by the rate, capped at the duration; the start
    position is [pausedAt], or 0 when [pausedAt] had reached the end of
    the buffer. *)
Theorem play_then_pause_advances :
  forall (d : Deck) (b : AudioBuffer) (now0 now1 : Q),
    buffer d = Some b ->
    isPlaying d = false ->
    isScratching d = false ->
    let d' := handlePause now1 (handlePlay now0 d) in
    let start := if Qgeb (pausedAt d) (buffer_duration b) then 0 else pausedAt d in
    pausedAt d' = Math_min (start + (now1 - now0) * playbackRate d) (duration d) /\
    currentTime d' = pausedAt d' /\
    isPlaying d' = false /\ source d' = None /\
    cuePoints d' = cuePoints d /\ playbackRate d' = playbackRate d.
Proof.
  intros d b now0 now1 Hb Hp Hs.
  destruct d as [ip ct bu du cu fn bp pr so st pa sc cs ts wp pc].
  cbn in Hb, Hp, Hs. subst bu ip sc.
  unfold handlePlay. deck_simpl.
  destruct (Qgeb pa (buffer_duration b)); unfold handlePause; deck_simpl;
    repeat split; reflexivity.
Qed.

Lemma play_then_pause_advances_witness :
  let d := seek 3 0 (loadFile (demo_file "a.wav" 10) initial_deck) in
  let d' := handlePause 6 (handlePlay 2 d) in
  pausedAt d' = Math_min (3 + (6 - 2) * 1) (duration d) /\
  pausedAt d' == 7 /\
  currentTime d' = pausedAt d' /\
  isPlaying d' = false /\ source d' = None /\
  cuePoints d' = cuePoints d /\ playbackRate d' = playbackRate d.
Proof.
  pose proof (play_then_pause_advances
                (seek 3 0 (loadFile (demo_file "a.wav" 10) initial_deck))
                (demo_buffer 10) 2 6 eq_refl eq_refl eq_refl) as H.
  cbv zeta in H. destruct H as (H1 & H2 & H3 & H4 & H5 & H6).
  split; [exact H1|]. split; [vm_compute; reflexivity|].
  repeat split; assumption.
Defined.

(** X2: [play] and [pause] are idempotent: a second [play], whenever it
    comes, changes nothing after a first one, and likewise for [pause]. *)
Theorem play_pause_idempotent :
  forall (d : Deck) (now1 now2 : Q),
    handlePlay now2 (handlePlay now1 d) = handlePlay now1 d /\
    handlePause now2 (handlePause now1 d) = handlePause now1 d.
Proof.
  intros d now1 now2.
  destruct d as [ip ct bu du cu fn bp pr so st pa sc cs ts wp pc].
  split.
  - unfold handlePlay. deck_simpl.
    destruct bu as [b|]; deck_simpl; [|reflexivity].
    destruct ip; deck_simpl; [reflexivity|].
    destruct sc; deck_simpl; [reflexivity|].
    destruct (Qgeb pa (buffer_duration b)); deck_simpl; reflexivity.
  - unfold handlePause. deck_simpl.
    destruct ip; deck_simpl; [|reflexivity].
    destruct so; deck_simpl; reflexivity.
Qed.

(** X3: when the position polled on a playing deck has reached the
    duration, the poll stops the deck and rewinds it: it is then paused at
    0 with no live source, a further poll changes nothing, and the next
    [play] starts from the beginning. *)
Theorem update_stops_at_end :
  forall (d : Deck) (b : AudioBuffer) (s : SourceNode) (now now' : Q),
    buffer d = Some b ->
    isPlaying d = true ->
    isScratching d = false ->
    source d = Some s ->
    0 < duration d ->
    duration d <= pausedAt d + (now - startTime d) * playbackRate d ->
    let d' := update now d in
    isPlaying d' = false /\ source d' = None /\
    currentTime d' = 0 /\ pausedAt d' = 0 /\
    update now' d' = d' /\
    source (handlePlay now' d') = Some (mkSource 0 (playbackRate d)) /\
    currentTime (handlePlay now' d') = 0.
Proof.
  intros d b s now now' Hb Hp Hs Hsrc Hdur Hend.
  destruct d as [ip ct bu du cu fn bp pr so st pa sc cs ts wp pc].
  cbn in Hb, Hp, Hs, Hsrc, Hdur, Hend. subst bu ip sc so.
  unfold update. deck_simpl.
  apply Qgeb_true in Hend. apply Qgtb_true in Hdur.
  rewrite Hend, Hdur. deck_simpl.
  unfold handlePause. deck_simpl.
  unfold handlePlay. deck_simpl.
  destruct (Qgeb 0 (buffer_duration b)); deck_simpl; repeat split; reflexivity.
Qed.

Lemma update_stops_at_end_witness :
  let d := handlePlay 0 (loadFile (demo_file "a.wav" 10) initial_deck) in
  let d' := update 12 d in
  isPlaying d' = false /\ source d' = None /\
  currentTime d' = 0 /\ pausedAt d' = 0 /\
  update 13 d' = d' /\
  source (handlePlay 13 d') = Some (mkSource 0 1) /\
  currentTime (handlePlay 13 d') = 0.
Proof.
  apply (update_stops_at_end
           (handlePlay 0 (loadFile (demo_file "a.wav" 10) initial_deck))
           (demo_buffer 10) (mkSource 0 1) 12 13);
    try reflexivity.
  vm_compute. discriminate.
Defined.

(** X4: touching and releasing the platter without moving it leaves a
    paused deck where it was: after [startScratch] then [stopScratch] the
    deck is paused, not scratching, with no render callback, at its
    old [pausedAt], whatever the render callback did in between. *)
Theorem scratch_round_trip_paused :
  forall (d : Deck) (b : AudioBuffer) (n : nat) (now : Q),
    buffer d = Some b ->
    wf_buffer b ->
    isPlaying d = false ->
    let d' := stopScratch now (fst (onaudioprocess b n (startScratch d))) in
    pausedAt d' == pausedAt d /\ currentTime d' == pausedAt d /\
    isPlaying d' = false /\ isScratching d' = false /\
    processor d' = false /\ source d' = source d /\
    cuePoints d' = cuePoints d.
Proof.
  intros d b n now Hb Hwf Hp.
  destruct (wf_buffer_duration_pos b Hwf) as [_ Hsr].
  pose proof (onaudioprocess_frames b n (startScratch d)) as (Hcs & Hts & _).
  assert (Hstart : currentSample (startScratch d) = pausedAt d * inject_Z (sampleRate b) /\
                   targetSample (startScratch d) = pausedAt d * inject_Z (sampleRate b)).
  { destruct d as [ip ct bu du cu fn bp pr so st pa sc cs ts wp pc].
    cbn in Hb, Hp. subst bu ip. unfold startScratch. deck_simpl.
    destruct so; split; reflexivity. }
  destruct Hstart as [Hs1 Hs2]. rewrite Hs1, Hs2 in Hcs.
  assert (Hfix : forall k x, physics_iter k x x == x).
  { induction k as [|k IH]; intro x; [reflexivity|].
    rewrite physics_iter_S. unfold physics_step. rewrite IH. ring. }
  assert (Hframe :
            let d1 := fst (onaudioprocess b n (startScratch d)) in
            buffer d1 = Some b /\ isScratching d1 = true /\
            wasPlayingBeforeScratch d1 = false /\ isPlaying d1 = false /\
            source d1 = source d /\ cuePoints d1 = cuePoints d).
  { clear Hcs Hts Hs1 Hs2.
    assert (Hgen : forall k d0,
               let d1 := fst (onaudioprocess b k d0) in
               buffer d1 = buffer d0 /\ isScratching d1 = isScratching d0 /\
               wasPlayingBeforeScratch d1 = wasPlayingBeforeScratch d0 /\
               isPlaying d1 = isPlaying d0 /\ source d1 = source d0 /\
               cuePoints d1 = cuePoints d0).
    { induction k as [|k IH]; intro d0; [repeat split; reflexivity|].
      cbn [onaudioprocess].
      specialize (IH (set_currentSample
                        (physics_step (targetSample d0) (currentSample d0)) d0)).
      destruct (onaudioprocess b k _) as [dk frs]. exact IH. }
    destruct (Hgen n (startScratch d)) as (H1 & H2 & H3 & H4 & H5 & H6).
    cbv zeta. rewrite H1, H2, H3, H4, H5, H6.
    destruct d as [ip ct bu du cu fn bp pr so st pa sc cs ts wp pc].
    cbn in Hb, Hp. subst bu ip. unfold startScratch. deck_simpl.
    destruct so; repeat split; reflexivity. }
  cbv zeta in Hframe. destruct Hframe as (H1 & H2 & H3 & H4 & H5 & H6).
  set (d1 := fst (onaudioprocess b n (startScratch d))) in *.
  assert (Hpos : currentSample d1 / inject_Z (sampleRate b) == pausedAt d).
  { rewrite Hcs, Hfix. field. lra. }
  clearbody d1.
  destruct d1 as [ip ct bu du cu fn bp pr so st pa sc cs ts wp pc].
  cbn in H1, H2, H3, H4, H5, H6, Hpos. subst bu sc wp ip.
  unfold stopScratch. deck_simpl.
  repeat split; try assumption; reflexivity.
Qed.

Lemma scratch_round_trip_paused_witness :
  let d := seek 3 0 (loadFile (demo_file "a.wav" 10) initial_deck) in
  let d' := stopScratch 5 (fst (onaudioprocess (demo_buffer 10) 4 (startScratch d))) in
  pausedAt d' == 3 /\ currentTime d' == 3 /\
  isPlaying d' = false /\ isScratching d' = false /\
  processor d' = false /\ source d' = None /\
  cuePoints d' = [].
Proof.
  apply (scratch_round_trip_paused
           (seek 3 0 (loadFile (demo_file "a.wav" 10) initial_deck))
           (demo_buffer 10) 4 5); try reflexivity.
  unfold wf_buffer. cbn. repeat split; try lia. repeat constructor.
Defined.

(** X5: a scratch begun while playing does not take the elapsed playing
    time into account: [startScratch] positions the scratch at the
    [pausedAt] recorded when play last started, and releasing the platter
    without moving it resumes play from there (from 0 if that was the end
    of the buffer), with the clock reference reset to the release time. *)
Theorem scratch_while_playing_resumes_from_pausedAt :
  forall (d : Deck) (b : AudioBuffer) (s : SourceNode) (now : Q),
    buffer d = Some b ->
    wf_buffer b ->
    isPlaying d = true ->
    source d = Some s ->
    let d1 := startScratch d in
    let d' := stopScratch now d1 in
    (isPlaying d1 = false /\ source d1 = None /\ isScratching d1 = true /\
     currentSample d1 = pausedAt d * inject_Z (sampleRate b)) /\
    isPlaying d' = true /\ isScratching d' = false /\ startTime d' = now /\
    exists start,
      source d' = Some (mkSource start (playbackRate d)) /\
      currentTime d' = start /\
      (pausedAt d < buffer_duration b -> start == pausedAt d) /\
      (buffer_duration b <= pausedAt d -> start = 0).
Proof.
  intros d b s now Hb Hwf Hp Hsrc.
  destruct (wf_buffer_duration_pos b Hwf) as [_ Hsr].
  destruct d as [ip ct bu du cu fn bp pr so st pa sc cs ts wp pc].
  cbn in Hb, Hp, Hsrc. subst bu ip so.
  unfold startScratch. deck_simpl.
  split; [repeat split; reflexivity|].
  unfold stopScratch. deck_simpl. unfold handlePlay. deck_simpl.
  assert (Hq : pa * inject_Z (sampleRate b) / inject_Z (sampleRate b) == pa)
    by (field; lra).
  destruct (Qgeb (pa * inject_Z (sampleRate b) / inject_Z (sampleRate b))
                 (buffer_duration b)) eqn:E; deck_simpl.
  - apply Qgeb_true in E. repeat split; try reflexivity.
    exists 0. repeat split; try reflexivity.
    intro Hlt. exfalso. rewrite Hq in E. apply (Qlt_not_le _ _ Hlt E).
  - apply Qgeb_false in E. repeat split; try reflexivity.
    eexists. repeat split; try reflexivity.
    + intros _. exact Hq.
    + intro Hge. exfalso. rewrite Hq in E. apply (Qlt_not_le _ _ E Hge).
Qed.

Lemma scratch_while_playing_resumes_from_pausedAt_witness :
  let d := handlePlay 0 (seek 3 0 (loadFile (demo_file "a.wav" 10) initial_deck)) in
  let d' := stopScratch 5 (startScratch d) in
  isPlaying d' = true /\ isScratching d' = false /\ startTime d' = 5 /\
  exists start,
    source d' = Some (mkSource start 1) /\ currentTime d' = start /\
    (pausedAt d < buffer_duration (demo_buffer 10) -> start == 3) /\
    (buffer_duration (demo_buffer 10) <= pausedAt d -> start = 0).
Proof.
  refine (proj2 (scratch_while_playing_resumes_from_pausedAt
                   (handlePlay 0 (seek 3 0 (loadFile (demo_file "a.wav" 10) initial_deck)))
                   (demo_buffer 10) (mkSource 3 1) 5 eq_refl _ eq_refl eq_refl)).
  unfold wf_buffer. cbn. repeat split; try lia. repeat constructor.
Defined.

(** X6: while a scratch is in progress, [seek t] moves only the target:
    position, display and transport stay as they are and the target
    becomes [t] clamped into [[0, duration]] in samples; a render block
    that follows keeps that target and leaves the position between where
    it was and the target, whether the frames are stepped exactly or on
    doubles. *)
Theorem seek_during_scratch_moves_target :
  forall (d : Deck) (b : AudioBuffer) (t now : Q) (n : nat),
    buffer d = Some b ->
    isScratching d = true ->
    let d1 := seek t now d in
    let target := clamp t 0 (duration d) * inject_Z (sampleRate b) in
    let d2 := fst (onaudioprocess b n d1) in
    targetSample d1 = target /\
    currentSample d1 = currentSample d /\
    currentTime d1 = currentTime d /\ pausedAt d1 = pausedAt d /\
    source d1 = source d /\ startTime d1 = startTime d /\
    isPlaying d1 = isPlaying d /\
    targetSample d2 = target /\
    Qmin (currentSample d) target <= currentSample d2 /\
    currentSample d2 <= Qmax (currentSample d) target /\
    (is_double (currentSample d) -> is_double target ->
     Qmin (currentSample d) target
     <= physics_iter_f64 n (targetSample d1) (currentSample d1) /\
     physics_iter_f64 n (targetSample d1) (currentSample d1)
     <= Qmax (currentSample d) target).
Proof.
  intros d b t now n Hb Hs d1 target d2.
  assert (H : targetSample d1 = target /\ currentSample d1 = currentSample d /\
              currentTime d1 = currentTime d /\ pausedAt d1 = pausedAt d /\
              source d1 = source d /\ startTime d1 = startTime d /\
              isPlaying d1 = isPlaying d).
  { unfold d1, target, seek, seek_closure, clamp. rewrite Hb, Hs.
    destruct d; repeat split; reflexivity. }
  destruct H as (H1 & H2 & H3 & H4 & H5 & H6 & H7).
  destruct (onaudioprocess_frames b n d1) as (Hcs & Hts & _).
  fold d2 in Hcs, Hts.
  pose proof (physics_iter_between n (targetSample d1) (currentSample d1)) as Hbet.
  rewrite <- Hcs, H1, H2 in Hbet. rewrite H1 in Hts.
  refine (conj H1 (conj H2 (conj H3 (conj H4 (conj H5 (conj H6 (conj H7
            (conj Hts (conj (proj1 Hbet) (conj (proj2 Hbet) _)))))))))).
  intros Hdc Hdt. rewrite H1, H2.
  apply physics_iter_f64_between; assumption.
Qed.

Lemma seek_during_scratch_moves_target_witness :
  let d := startScratch (loadFile (mkFile "s.wav" (Some stereo_buffer)) initial_deck) in
  let d1 := seek 9 0 d in
  let d2 := fst (onaudioprocess stereo_buffer 3 d1) in
  targetSample d1 = clamp 9 0 (duration d) * inject_Z 1 /\
  currentSample d1 = currentSample d /\
  currentTime d1 = currentTime d /\ pausedAt d1 = pausedAt d /\
  source d1 = source d /\ startTime d1 = startTime d /\
  isPlaying d1 = isPlaying d /\
  targetSample d2 = clamp 9 0 (duration d) * inject_Z 1 /\
  Qmin (currentSample d) (clamp 9 0 (duration d) * inject_Z 1) <= currentSample d2 /\
  currentSample d2 <= Qmax (currentSample d) (clamp 9 0 (duration d) * inject_Z 1) /\
  (is_double (currentSample d) ->
   is_double (clamp 9 0 (duration d) * inject_Z 1) ->
   Qmin (currentSample d) (clamp 9 0 (duration d) * inject_Z 1)
   <= physics_iter_f64 3 (targetSample d1) (currentSample d1) /\
   physics_iter_f64 3 (targetSample d1) (currentSample d1)
   <= Qmax (currentSample d) (clamp 9 0 (duration d) * inject_Z 1)).
Proof.
  exact (seek_during_scratch_moves_target
           (startScratch (loadFile (mkFile "s.wav" (Some stereo_buffer)) initial_deck))
           stereo_buffer 9 0 3 eq_refl eq_refl).
Defined.

(** X7: [seek t] on a playing, non-scratching deck restarts the output at
    [t] clamped into [[0, duration]] and keeps the deck playing; a poll at
    a later instant reports that position plus the time elapsed since the
    seek scaled by the rate, as long as this is below the duration. *)
Theorem seek_while_playing_restarts :
  forall (d : Deck) (b : AudioBuffer) (t now now' : Q),
    buffer d = Some b ->
    isPlaying d = true ->
    isScratching d = false ->
    let d1 := seek t now d in
    let newTime := clamp t 0 (duration d) in
    isPlaying d1 = true /\
    source d1 = Some (mkSource newTime (playbackRate d)) /\
    startTime d1 = now /\ pausedAt d1 = newTime /\ currentTime d1 = newTime /\
    (newTime + (now' - now) * playbackRate d < duration d ->
     currentTime (update now' d1) = newTime + (now' - now) * playbackRate d).
Proof.
  intros d b t now now' Hb Hp Hs d1 newTime.
  destruct d as [ip ct bu du cu fn bp pr so st pa sc cs ts wp pc].
  cbn in Hb, Hp, Hs. subst bu ip sc.
  unfold d1, newTime, seek, seek_closure, clamp, Math_max, Math_min. deck_simpl.
  repeat split; try reflexivity.
  intro Hlt. unfold update. deck_simpl.
  apply Qgeb_false in Hlt. rewrite Hlt. reflexivity.
Qed.

Lemma seek_while_playing_restarts_witness :
  let d := handlePlay 0 (loadFile (demo_file "a.wav" 10) initial_deck) in
  let d1 := seek 4 1 d in
  isPlaying d1 = true /\
  source d1 = Some (mkSource (clamp 4 0 (duration d)) 1) /\
  startTime d1 = 1 /\ pausedAt d1 = clamp 4 0 (duration d) /\
  currentTime d1 = clamp 4 0 (duration d) /\
  currentTime (update 3 d1) = clamp 4 0 (duration d) + (3 - 1) * 1.
Proof.
  pose proof (seek_while_playing_restarts
                (handlePlay 0 (loadFile (demo_file "a.wav" 10) initial_deck))
                (demo_buffer 10) 4 1 3 eq_refl eq_refl eq_refl) as H.
  cbv zeta in H. destruct H as (H1 & H2 & H3 & H4 & H5 & H6).
  refine (conj H1 (conj H2 (conj H3 (conj H4 (conj H5 (H6 _)))))).
  vm_compute. reflexivity.
Defined.

(** ** Further properties of the cue points *)

Lemma far_cue_kept (t c : Q) :
  ~ Qabs (c - t) < 1 # 10 -> Qgeb (Math_abs (c - t)) (1 # 10) = true.
Proof.
  intro H. apply Qgeb_true. apply Qnot_lt_le. exact H.
Qed.

Lemma filter_all_kept (p : Q -> bool) (l : list Q) :
  (forall c, In c l -> p c = true) -> filter p l = l.
Proof.
  induction l as [|x l IH]; intro H; [reflexivity|].
  cbn. rewrite (H x (or_introl eq_refl)). f_equal.
  apply IH. intros c Hc. apply H. right. exact Hc.
Qed.

(** X8: setting a cue and deleting it at the same position is a round
    trip: when the cue list is ascending and no stored cue lies within
    0.1 s of the current time, [addCuePoint] then [removeCuePoint] gives
    back the cue list unchanged. *)
Theorem add_then_remove_cue_round_trip :
  forall d : Deck,
    Sorted Qle (cuePoints d) ->
    (forall c, In c (cuePoints d) -> ~ Qabs (c - currentTime d) < 1 # 10) ->
    cuePoints (removeCuePoint (addCuePoint d)) = cuePoints d /\
    In (currentTime d) (cuePoints (addCuePoint d)) /\
    currentTime (removeCuePoint (addCuePoint d)) = currentTime d.
Proof.
  intros d Hsorted Hfar.
  pose proof (addCuePoint_far d Hfar) as Hadd.
  destruct (js_sort_snoc_sorted (cuePoints d) (currentTime d)
              (Sorted_Qle_strong _ Hsorted)) as (l1 & l2 & Hl & Hsort).
  assert (Hct : currentTime (addCuePoint d) = currentTime d).
  { unfold addCuePoint. destruct (negb _); destruct d; reflexivity. }
  split; [|split].
  - unfold removeCuePoint. cbn [cuePoints setCuePoints].
    rewrite Hct, Hadd, Hsort, filter_app. cbn [filter].
    assert (Hself : Qgeb (Math_abs (currentTime d - currentTime d)) (1 # 10) = false).
    { apply Qgeb_false.
      assert (He : currentTime d - currentTime d == 0) by ring.
      unfold Math_abs. rewrite He. reflexivity. }
    rewrite Hself, !filter_all_kept.
    + symmetry. exact Hl.
    + intros c Hc. apply far_cue_kept, Hfar. rewrite Hl.
      apply in_or_app. right. exact Hc.
    + intros c Hc. apply far_cue_kept, Hfar. rewrite Hl.
      apply in_or_app. left. exact Hc.
  - rewrite Hadd, Hsort. apply in_or_app. right. left. reflexivity.
  - unfold removeCuePoint. cbn [currentTime setCuePoints]. exact Hct.
Qed.

Lemma add_then_remove_cue_round_trip_witness :
  cuePoints (removeCuePoint (addCuePoint cue_deck)) = cuePoints cue_deck /\
  In (currentTime cue_deck) (cuePoints (addCuePoint cue_deck)) /\
  currentTime (removeCuePoint (addCuePoint cue_deck)) = currentTime cue_deck.
Proof.
  apply (add_then_remove_cue_round_trip cue_deck).
  - repeat constructor. vm_compute. discriminate.
  - intros c [Hc | [Hc | []]]; subst c; vm_compute; discriminate.
Defined.


(** ** Further properties of loading *)

(** X10: a load whose decode succeeds resets the deck whatever its prior
    state: the new buffer and its duration are installed, the deck is
    stopped at 0 with no live source and no scratch, the cue list is empty,
    the rate is 1 and the tempo is unknown (0) until the analysis
    completes; a poll then changes nothing. *)
Theorem loadFile_success_resets :
  forall (d : Deck) (f : File) (b : AudioBuffer) (now : Q),
    file_decode f = Some b ->
    let d' := loadFile f d in
    buffer d' = Some b /\ duration d' = buffer_duration b /\
    fileName d' = Some (file_name f) /\
    cuePoints d' = [] /\ playbackRate d' = 1 /\ bpm d' = 0 /\
    pausedAt d' = 0 /\ currentTime d' = 0 /\
    isPlaying d' = false /\ isScratching d' = false /\ source d' = None /\
    update now d' = d'.
Proof.
  intros d f b now Hf. cbv zeta.
  destruct (loadFile_resume_decoded f b (loadFile_sync f d) Hf)
    as (H1 & H2 & H3 & H4 & H5 & H6 & H7 & H8 & H9 & _ & _ & _ & _ & _ & H15 & H16).
  fold (loadFile f d) in H1, H2, H3, H4, H5, H6, H7, H8, H9, H15, H16.
  assert (Hsync : isPlaying (loadFile_sync f d) = false /\
                  isScratching (loadFile_sync f d) = false /\
                  source (loadFile_sync f d) = None /\
                  fileName (loadFile_sync f d) = Some (file_name f)).
  { destruct d as [ip ct bu du cu fn bp pr [s|] st pa sc cs ts wp pc];
      repeat split; reflexivity. }
  destruct Hsync as (Hp & Hs & Hsrc & Hfn).
  rewrite Hp in H8. rewrite Hs in H9. rewrite Hfn in H15.
  specialize (H16 Hsrc).
  repeat split; try assumption.
  unfold update. rewrite H9, H8. reflexivity.
Qed.

Lemma loadFile_success_resets_witness :
  let d := handlePlay 0 (addCuePoint (seek 3 0 (loadFile (demo_file "a.wav" 10) initial_deck))) in
  let d' := loadFile (demo_file "b.wav" 20) d in
  buffer d' = Some (demo_buffer 20) /\ duration d' = buffer_duration (demo_buffer 20) /\
  fileName d' = Some "b.wav"%string /\
  cuePoints d' = [] /\ playbackRate d' = 1 /\ bpm d' = 0 /\
  pausedAt d' = 0 /\ currentTime d' = 0 /\
  isPlaying d' = false /\ isScratching d' = false /\ source d' = None /\
  update 7 d' = d'.
Proof.
  exact (loadFile_success_resets
           (handlePlay 0 (addCuePoint (seek 3 0 (loadFile (demo_file "a.wav" 10) initial_deck))))
           (demo_file "b.wav" 20) (demo_buffer 20) 7 eq_refl).
Defined.

(** ** Further properties of the render callback *)

Lemma floor_frac_range (idx : Q) :
  0 <= idx - inject_Z (Qfloor idx) /\ idx - inject_Z (Qfloor idx) < 1.
Proof.
  pose proof (Qfloor_le idx) as H1. pose proof (Qlt_floor idx) as H2.
  rewrite inject_Z_plus in H2. change (inject_Z 1) with 1 in H2.
  split; lra.
Qed.

Lemma convex_between (lo hi f : Q) :
  0 <= f -> f <= 1 ->
  Qmin lo hi <= lo * (1 - f) + hi * f /\ lo * (1 - f) + hi * f <= Qmax lo hi.
Proof.
  intros H0 H1.
  destruct (Qlt_le_dec hi lo) as [H | H].
  - rewrite (Q.min_r lo hi), (Q.max_l lo hi) by lra.
    assert (Hd : 0 <= (lo - hi) * f) by (apply Qmult_le_0_compat; lra).
    assert (Hd' : 0 <= (lo - hi) * (1 - f)) by (apply Qmult_le_0_compat; lra).
    split; lra.
  - rewrite (Q.min_l lo hi), (Q.max_r lo hi) by lra.
    assert (Hd : 0 <= (hi - lo) * f) by (apply Qmult_le_0_compat; lra).
    assert (Hd' : 0 <= (hi - lo) * (1 - f)) by (apply Qmult_le_0_compat; lra).
    split; lra.
Qed.

(** X11: a mono buffer is rendered identically on both output channels;
    every sample written for a position inside the buffer lies between
    the two buffer samples it is interpolated from; and at a whole
    position the sample written is the buffer's sample there. *)
Theorem render_frame_mono_and_between :
  forall (b : AudioBuffer) (idx : Q),
    wf_buffer b ->
    let maxSample := (buffer_length b - 1)%Z in
    let chanL := getChannelData b 0 in
    let fr := render_frame b idx in
    (numberOfChannels b = 1%nat -> outR fr = outL fr) /\
    (0 <= idx -> idx <= inject_Z maxSample ->
     exists v,
       outL fr = Some v /\
       Qmin (sample chanL (Qfloor idx))
            (sample chanL (Z.min (Qfloor idx + 1) maxSample)) <= v /\
       v <= Qmax (sample chanL (Qfloor idx))
                 (sample chanL (Z.min (Qfloor idx + 1) maxSample))) /\
    (forall k : Z, idx = inject_Z k -> (0 <= k <= maxSample)%Z ->
     exists v, outL fr = Some v /\ v == sample chanL k).
Proof.
  intros b idx Hwf maxSample chanL fr.
  destruct (render_frame_cases b idx Hwf) as (Hout & Hin & _).
  fold maxSample chanL fr in Hout, Hin.
  split; [|split].
  - intro Hmono. unfold fr, render_frame. rewrite Hmono. cbn [Nat.ltb Nat.leb].
    destruct (_ || _); reflexivity.
  - intros H0 H1.
    assert (Hn : ~ (idx < 0 \/ inject_Z maxSample < idx)).
    { intros [H | H]; [apply (Qlt_not_le _ _ H H0) | apply (Qlt_not_le _ _ H H1)]. }
    destruct (Hin Hn) as (HL & _ & _). cbv zeta in HL. unfold Math_floor in HL.
    eexists. split; [exact HL|].
    destruct (floor_frac_range idx) as [Hf0 Hf1].
    apply convex_between; lra.
  - intros k Hk Hrange. subst idx.
    assert (Hn : ~ (inject_Z k < 0 \/ inject_Z maxSample < inject_Z k)).
    { intros [H | H].
      - change 0 with (inject_Z 0) in H. rewrite <- Zlt_Qlt in H. lia.
      - rewrite <- Zlt_Qlt in H. lia. }
    destruct (Hin Hn) as (HL & _ & _). cbv zeta in HL. unfold Math_floor in HL.
    rewrite Qfloor_Z in HL.
    eexists. split; [exact HL|]. ring.
Qed.

Lemma render_frame_mono_and_between_witness :
  let fr := render_frame stereo_buffer (3 # 2) in
  (exists v, outL fr = Some v /\
             Qmin (sample [1; 2; 3; 4] 1) (sample [1; 2; 3; 4] 2) <= v /\
             v <= Qmax (sample [1; 2; 3; 4] 1) (sample [1; 2; 3; 4] 2)) /\
  (exists v, outL (render_frame stereo_buffer (inject_Z 2)) = Some v /\
             v == sample [1; 2; 3; 4] 2).
Proof.
  assert (Hwf : wf_buffer stereo_buffer).
  { unfold wf_buffer. cbn. repeat split; try lia. repeat constructor. }
  split.
  - apply (proj1 (proj2 (render_frame_mono_and_between stereo_buffer (3 # 2) Hwf)));
      vm_compute; discriminate.
  - apply (proj2 (proj2 (render_frame_mono_and_between stereo_buffer (inject_Z 2) Hwf)) 2%Z);
      [reflexivity | cbn; lia].
Defined.

(** ** Further properties of the BPM estimator *)

(** Whatever is folded ends in [[70, 160]]. *)
Lemma folded_range (x y : Q) : folded x y -> 70 <= y /\ y <= 160.
Proof.
  intros (m & (k & Hm & Hge & _) & (j & Hy & Hle & Hmin)).
  split; [|apply Qnot_lt_le; exact Hle].
  assert (Hm70 : 70 <= m) by (apply Qnot_lt_le; exact Hge).
  destruct j as [|j].
  - rewrite Hy. change (inject_Z (2 ^ Z.of_nat 0)) with 1.
    unfold Qdiv. change (/ 1) with 1. lra.
  - assert (Hprev : 160 < m / inject_Z (2 ^ Z.of_nat j)) by (apply Hmin; lia).
    rewrite pow2_succ_div in Hy.
    assert (He : m / 2 / inject_Z (2 ^ Z.of_nat j)
                 == m / inject_Z (2 ^ Z.of_nat j) * (1 # 2)).
    { pose proof (pow2_pos j). field. lra. }
    rewrite He in Hy. lra.
Qed.

Lemma round_range (y : Q) (lo hi : Z) :
  inject_Z lo <= y -> y <= inject_Z hi ->
  (lo <= Math_round y <= hi)%Z.
Proof.
  intros Hlo Hhi. unfold Math_round. split.
  - rewrite <- (Qfloor_Z lo). apply Qfloor_resp_le. lra.
  - apply Z.lt_succ_r. rewrite Zlt_Qlt.
    apply Qle_lt_trans with (y + (1 # 2)); [apply Qfloor_le|].
    unfold Z.succ. rewrite inject_Z_plus. change (inject_Z 1) with 1. lra.
Qed.

Lemma lag_to_bpm_range (fuel : nat) (rate : Q) (L : Z) (v : Q) :
  lag_to_bpm fuel rate L = Some v ->
  exists k : Z, v = inject_Z k /\ (70 <= k <= 160)%Z.
Proof.
  unfold lag_to_bpm. cbv zeta.
  change (js_div (inject_Z (Math_round (js_mul
            (js_div (js_mul 60 rate) (inject_Z L)) 10))) 10)
    with (one_decimal_tempo rate L).
  assert (Hx : is_double (one_decimal_tempo rate L)) by apply fl_idempotent.
  destruct (double_while fuel _) as [m|] eqn:Hd; [|discriminate].
  destruct (halve_while fuel m) as [y|] eqn:Hh; [|discriminate].
  intro H. injection H as <-.
  exists (Math_round y). split; [reflexivity|].
  assert (Hm : is_double m).
  { clear Hh. revert Hd Hx. generalize (one_decimal_tempo rate L).
    induction fuel as [|fuel IH]; intros x0 Hd Hx0; cbn [double_while] in Hd;
      destruct (Qltb x0 70); try discriminate.
    - injection Hd as <-. exact Hx0.
    - apply (IH (js_mul x0 2)); [exact Hd | apply fl_idempotent].
    - injection Hd as <-. exact Hx0. }
  assert (Hf : folded (one_decimal_tempo rate L) y).
  { exists m. split; [apply (double_while_sound fuel); assumption
                     | apply (halve_while_sound fuel); assumption]. }
  destruct (folded_range _ _ Hf) as [H70 H160].
  apply round_range; [change (inject_Z 70) with 70 | change (inject_Z 160) with 160];
    assumption.
Qed.

(** X12: for a buffer sampled at 6000 Hz or more the analysis always
    returns, whatever the offline rendering produces or whether it fails,
    and its result is 0 (undetected) or a whole number of beats per
    minute between 70 and 160; the completion handler therefore never
    stores a negative or fractional tempo. *)
Theorem analyzeBPM_result_range :
  forall (startRendering : Z -> list Q -> option (list Q))
         (fuel : nat) (b : AudioBuffer) (d : Deck),
    (6000 <= sampleRate b)%Z ->
    (1 <= fuel)%nat ->
    exists v,
      analyzeBPM startRendering fuel b = Some v /\
      (v = 0 \/ exists k : Z, v = inject_Z k /\ (70 <= k <= 160)%Z) /\
      bpm (onAnalysed v d) = v.
Proof.
  intros startRendering fuel b d Hsr Hfuel.
  assert (Hcore : exists v,
             analyzeBPM startRendering fuel b = Some v /\
             (v = 0 \/ exists k : Z, v = inject_Z k /\ (70 <= k <= 160)%Z)).
  { unfold analyzeBPM.
    destruct (Qltb (buffer_duration b) 10) eqn:E; [exists 0; auto|].
    destruct (filtered_segment startRendering b) as [filtered|]; [|exists 0; auto].
    apply Qltb_false in E.
    destruct (bpm_of_filtered_reference fuel (sampleRate b) filtered
                (buffer_duration b) Hsr Hfuel) as (v & Hv & _).
    { intro H. apply (Qlt_not_le _ _ H E). }
    exists v. split; [exact Hv|].
    unfold bpm_of_filtered in Hv.
    destruct (sampleRate b / 6000 <=? 0)%Z; [discriminate|].
    destruct (search_lags _ _ _) as [mc bestLag].
    destruct (bestLag =? 0)%Z.
    - injection Hv as <-. left. reflexivity.
    - right. apply (lag_to_bpm_range _ _ _ _ Hv). }
  destruct Hcore as (v & Hv & Hrange).
  exists v. split; [exact Hv|]. split; [exact Hrange|].
  unfold onAnalysed. cbn [bpm setBpm].
  destruct Hrange as [-> | (k & -> & Hk)]; [reflexivity|].
  assert (Hpos : Qgtb (inject_Z k) 0 = true).
  { apply Qgtb_true. change 0 with (inject_Z 0). rewrite <- Zlt_Qlt. lia. }
  rewrite Hpos. reflexivity.
Qed.

Lemma analyzeBPM_result_range_witness :
  exists v,
    analyzeBPM passthrough_rendering 1 silent_track = Some v /\
    (v = 0 \/ exists k : Z, v = inject_Z k /\ (70 <= k <= 160)%Z) /\
    bpm (onAnalysed v initial_deck) = v.
Proof.
  apply (analyzeBPM_result_range passthrough_rendering 1 silent_track initial_deck).
  - cbn. lia.
  - apply le_n.
Defined.

Lemma count_up_length (n : nat) (start step : Z) :
  List.length (count_up n start step) = n.
Proof.
  revert start. induction n as [|n IH]; intro start; cbn; [reflexivity|].
  rewrite IH. reflexivity.
Qed.

(** The number of iterations of a counting loop with a positive step. *)
Lemma for_range_count (stop step : Z) (k : Z) :
  (0 < step)%Z -> (0 <= k)%Z ->
  (k < (stop - 0 + step - 1) / step <-> k * step < stop)%Z.
Proof.
  intros Hs Hk. split; intro H.
  - assert (Hle : (k + 1 <= (stop - 0 + step - 1) / step)%Z) by lia.
    assert (Hm : (step * ((stop - 0 + step - 1) / step) <= stop - 0 + step - 1)%Z)
      by (apply Z.mul_div_le; lia).
    nia.
  - assert (Hle : (k + 1 <= (stop - 0 + step - 1) / step)%Z); [|lia].
    apply Z.div_le_lower_bound; [lia | nia].
Qed.


(** The scan of the windows [start + k * step], [k < n]: the state after
    it is the initial one if no window had positive energy, else the
    first window of maximal energy. *)
Lemma energy_scan_inv (f : Z -> Q) (step : Z) (n : nat) :
  let st :=
    fold_left (fun '(maxEnergy, bestOffset) i =>
                 let sum := f i in
                 if Qgtb sum maxEnergy then (sum, i) else (maxEnergy, bestOffset))
              (count_up n 0 step) (0, 0%Z) in
  (st = (0, 0%Z) /\ forall k, (0 <= k < Z.of_nat n)%Z -> f (k * step)%Z <= 0) \/
  (exists kb, (0 <= kb < Z.of_nat n)%Z /\ snd st = (kb * step)%Z /\
              fst st = f (snd st) /\ 0 < fst st /\
              (forall k, (0 <= k < Z.of_nat n)%Z -> f (k * step)%Z <= fst st) /\
              (forall k, (0 <= k < kb)%Z -> f (k * step)%Z < fst st)).
Proof.
  induction n as [|n IH]; cbv zeta in *.
  - left. split; [reflexivity|]. intros; lia.
  - rewrite count_up_snoc, fold_left_app. cbn [fold_left].
    replace (0 + Z.of_nat n * step)%Z with (Z.of_nat n * step)%Z by lia.
    destruct (fold_left _ (count_up n 0 step) (0, 0%Z)) as [m bo].
    cbn [fst snd] in *.
    destruct (Qgtb (f (Z.of_nat n * step)%Z) m) eqn:E.
    + apply Qgtb_true in E. right. exists (Z.of_nat n). cbn [fst snd].
      split; [lia|]. split; [reflexivity|]. split; [reflexivity|].
      destruct IH as [[Hst Hall] | (kb & Hkb & Hbo & Hm & Hpos & Hmax & Hfirst)].
      * injection Hst as -> ->.
        split; [exact E|]. split.
        -- intros k Hk. destruct (Z.eq_dec k (Z.of_nat n)) as [-> | Hne];
             [apply Qle_refl|].
           apply Qle_trans with 0; [apply Hall; lia | apply Qlt_le_weak, E].
        -- intros k Hk. apply Qle_lt_trans with 0; [apply Hall; lia | exact E].
      * split; [apply Qlt_trans with m; assumption|]. split.
        -- intros k Hk. destruct (Z.eq_dec k (Z.of_nat n)) as [-> | Hne];
             [apply Qle_refl|].
           apply Qle_trans with m; [apply Hmax; lia | apply Qlt_le_weak, E].
        -- intros k Hk. apply Qle_lt_trans with m; [apply Hmax; lia | exact E].
    + apply Qgtb_false in E.
      destruct IH as [[Hst Hall] | (kb & Hkb & Hbo & Hm & Hpos & Hmax & Hfirst)].
      * left. split; [exact Hst|]. injection Hst as -> ->.
        intros k Hk. destruct (Z.eq_dec k (Z.of_nat n)) as [-> | Hne];
          [exact E | apply Hall; lia].
      * right. exists kb. split; [lia|]. split; [exact Hbo|].
        split; [exact Hm|]. split; [exact Hpos|]. split; [|exact Hfirst].
        intros k Hk. destruct (Z.eq_dec k (Z.of_nat n)) as [-> | Hne];
          [exact E | apply Hmax; lia].
Qed.



Lemma duration_at_least_ten (b : AudioBuffer) :
  (0 < sampleRate b)%Z -> ~ buffer_duration b < 10 ->
  (sampleRate b * 10 <= buffer_length b)%Z.
Proof.
  intros Hsr Hdur. apply Qnot_lt_le in Hdur. unfold buffer_duration in Hdur.
  assert (Hq : 0 < inject_Z (sampleRate b)).
  { change 0 with (inject_Z 0). rewrite <- Zlt_Qlt. exact Hsr. }
  assert (Hm : 10 * inject_Z (sampleRate b) <= inject_Z (buffer_length b)).
  { apply (Qmult_le_compat_r _ _ (inject_Z (sampleRate b))) in Hdur; [|lra].
    assert (He : inject_Z (buffer_length b) / inject_Z (sampleRate b)
                 * inject_Z (sampleRate b) == inject_Z (buffer_length b))
      by (field; lra).
    rewrite He in Hdur. exact Hdur. }
  change 10 with (inject_Z 10) in Hm. rewrite <- inject_Z_mult, <- Zle_Qle in Hm.
  lia.
Qed.

(** The selected window fits in the track. *)
Lemma loudest_offset_fits (rawData : list Q) (sr : Z) :
  (0 < sr)%Z ->
  (sr * 10 <= Z.of_nat (List.length rawData))%Z ->
  (0 <= loudest_offset rawData sr /\
   loudest_offset rawData sr + sr * 10 <= Z.of_nat (List.length rawData))%Z.
Proof.
  intros Hsr Hlen.
  set (len := Z.of_nat (List.length rawData)) in *.
  assert (Hstep : (0 < sr * 2)%Z) by lia.
  pose proof (energy_scan_inv (window_energy rawData (sr * 10)) (sr * 2)
                (Z.to_nat ((len - sr * 10 - 0 + sr * 2 - 1) / (sr * 2)))) as Hinv.
  cbv zeta in Hinv.
  assert (Ho : loudest_offset rawData sr
               = snd (fold_left
                        (fun '(maxEnergy, bestOffset) i =>
                           let sum := window_energy rawData (sr * 10) i in
                           if Qgtb sum maxEnergy then (sum, i) else (maxEnergy, bestOffset))
                        (count_up (Z.to_nat ((len - sr * 10 - 0 + sr * 2 - 1) / (sr * 2)))
                                  0 (sr * 2)) (0, 0%Z))) by reflexivity.
  rewrite Ho. clear Ho.
  destruct (fold_left _ _ (0, 0%Z)) as [m bo]. cbn [fst snd] in *.
  destruct Hinv as [[Hst _] | (kb & Hkb & Hbo & _)].
  - injection Hst as -> ->. lia.
  - assert (Hq : (0 <= (len - sr * 10 - 0 + sr * 2 - 1) / (sr * 2))%Z) by lia.
    rewrite Z2Nat.id in Hkb by exact Hq.
    assert (Hb : (kb * (sr * 2) < len - sr * 10)%Z).
    { apply (for_range_count (len - sr * 10) (sr * 2) kb Hstep); lia. }
    rewrite Hbo. nia.
Qed.

(** X14: for a track of at least ten seconds, the segment handed to the
    offline filter is exactly the ten seconds of channel 0 that start at
    the selected offset: it has [sampleRate * 10] samples, none of them
    padding, and its [j]-th sample is sample [offset + j] of the track. *)
Theorem analysis_segment_exact :
  forall (b : AudioBuffer),
    (0 < sampleRate b)%Z ->
    ~ buffer_duration b < 10 ->
    let rawData := getChannelData b 0 in
    let windowSize := (sampleRate b * 10)%Z in
    let o := loudest_offset rawData (sampleRate b) in
    let seg := segment rawData o windowSize in
    Z.of_nat (List.length seg) = windowSize /\
    seg = firstn (Z.to_nat windowSize) (skipn (Z.to_nat o) rawData) /\
    (forall j, (0 <= j < windowSize)%Z ->
       sample seg j = sample rawData (o + j) /\
       (0 <= o + j < Z.of_nat (List.length rawData))%Z).
Proof.
  intros b Hsr Hdur rawData windowSize o seg.
  pose proof (duration_at_least_ten b Hsr Hdur) as Hlen.
  unfold buffer_length in Hlen. fold rawData in Hlen.
  destruct (loudest_offset_fits rawData (sampleRate b) Hsr Hlen) as [Ho0 Ho1].
  fold windowSize o in Ho0, Ho1.
  assert (Hslice : List.length (firstn (Z.to_nat windowSize)
                                       (skipn (Z.to_nat o) rawData))
                   = Z.to_nat windowSize).
  { rewrite length_firstn, length_skipn. lia. }
  assert (Hseg : seg = firstn (Z.to_nat windowSize) (skipn (Z.to_nat o) rawData)).
  { unfold seg, segment. rewrite Hslice, Nat.sub_diag. cbn [repeat].
    apply app_nil_r. }
  split; [rewrite Hseg, Hslice; lia|]. split; [exact Hseg|].
  intros j Hj. split; [|lia].
  rewrite Hseg. unfold sample.
  rewrite nth_firstn.
  destruct (Nat.ltb_spec (Z.to_nat j) (Z.to_nat windowSize)) as [_ | Hge]; [|lia].
  rewrite nth_skipn. f_equal. lia.
Qed.

Lemma analysis_segment_exact_witness :
  let o := loudest_offset (getChannelData silent_track 0) 6000 in
  let seg := segment (getChannelData silent_track 0) o 60000 in
  Z.of_nat (List.length seg) = 60000%Z /\
  seg = firstn (Z.to_nat 60000) (skipn (Z.to_nat o) (getChannelData silent_track 0)) /\
  (forall j, (0 <= j < 60000)%Z ->
     sample seg j = sample (getChannelData silent_track 0) (o + j) /\
     (0 <= o + j < Z.of_nat (List.length (getChannelData silent_track 0)))%Z).
Proof.
  apply (analysis_segment_exact silent_track).
  - reflexivity.
  - vm_compute. discriminate.
Defined.

Lemma nth_count_up (n k : nat) (start step d : Z) :
  (k < n)%nat -> nth k (count_up n start step) d = (start + Z.of_nat k * step)%Z.
Proof.
  revert k start. induction n as [|n IH]; intros k start Hk; [lia|].
  destruct k as [|k]; cbn [count_up nth]; [lia|].
  rewrite IH by lia. lia.
Qed.

Lemma sample_map_in_range (f : Z -> Q) (l : list Z) (i : Z) :
  (0 <= i < Z.of_nat (List.length l))%Z ->
  sample (map f l) i = f (nth (Z.to_nat i) l 0%Z).
Proof.
  intro Hi. unfold sample.
  rewrite (nth_indep _ 0 (f 0%Z)) by (rewrite length_map; lia).
  apply map_nth.
Qed.

Lemma sample_out_of_range (l : list Q) (i : Z) :
  (Z.of_nat (List.length l) <= i)%Z -> sample l i = 0.
Proof.
  intro Hi. unfold sample. apply nth_overflow. lia.
Qed.

(** With a step of 1 the envelope is the rectified signal. *)
Lemma envelope_unit_step (filtered : list Q) :
  List.length (envelope filtered 1) = List.length filtered /\
  forall i, (0 <= i < Z.of_nat (List.length filtered))%Z ->
            sample (envelope filtered 1) i = Math_abs (sample filtered i).
Proof.
  unfold envelope. rewrite for_range_unit, Z.sub_0_r, Nat2Z.id.
  split; [rewrite length_map; apply count_up_length|].
  intros i Hi.
  rewrite sample_map_in_range by (rewrite count_up_length; exact Hi).
  rewrite nth_count_up by lia. do 2 f_equal. lia.
Qed.

Lemma sample_impulse_train (period : Z) (n : nat) (amp : Q) (i : Z) :
  (0 <= i < Z.of_nat n)%Z ->
  sample (impulse_train period n amp) i
  = if (i mod period =? 0)%Z then amp else 0.
Proof.
  intro Hi. unfold impulse_train, sample.
  set (f := fun k : nat => if (Z.of_nat k mod period =? 0)%Z then amp else 0).
  rewrite (nth_indep _ 0 (f O)) by (rewrite length_map, length_seq; lia).
  rewrite (map_nth f), seq_nth by lia. unfold f. cbn [Nat.add].
  rewrite Z2Nat.id by lia. reflexivity.
Qed.

Lemma corr_sum_nonneg (env : list Q) (lag : Z) (m : nat) :
  (forall i, 0 <= sample env i) -> 0 <= corr_sum env lag m.
Proof.
  intro Hnn. induction m as [|m IH]; cbn [corr_sum]; [apply Qle_refl|].
  pose proof (Qmult_le_0_compat _ _ (Hnn (Z.of_nat m)) (Hnn (Z.of_nat m + lag)%Z)).
  lra.
Qed.

Lemma corr_sum_zero (env : list Q) (lag : Z) (m : nat) :
  (forall i, (0 <= i < Z.of_nat m)%Z ->
             sample env i * sample env (i + lag) == 0) ->
  corr_sum env lag m == 0.
Proof.
  induction m as [|m IH]; intro H; cbn [corr_sum]; [reflexivity|].
  rewrite IH by (intros i Hi; apply H; lia).
  rewrite (H (Z.of_nat m)) by lia. reflexivity.
Qed.

Lemma corr_sum_first_term (env : list Q) (lag : Z) (m : nat) :
  (forall i, 0 <= sample env i) ->
  sample env 0 * sample env (0 + lag) <= corr_sum env lag (S m).
Proof.
  intro Hnn. induction m as [|m IH].
  - cbn [corr_sum]. change (Z.of_nat 0) with 0%Z. lra.
  - change (corr_sum env lag (S (S m)))
      with (corr_sum env lag (S m)
            + sample env (Z.of_nat (S m)) * sample env (Z.of_nat (S m) + lag)).
    pose proof (Qmult_le_0_compat _ _ (Hnn (Z.of_nat (S m)))
                  (Hnn (Z.of_nat (S m) + lag)%Z)).
    lra.
Qed.

Lemma envelope_nonneg (filtered : list Q) (step i : Z) :
  0 <= sample (envelope filtered step) i.
Proof.
  unfold sample.
  destruct (Nat.lt_ge_cases (Z.to_nat i) (List.length (envelope filtered step)))
    as [Hlt | Hge].
  - pose proof (nth_In (envelope filtered step) 0 Hlt) as Hin.
    unfold envelope in Hin at 2. apply in_map_iff in Hin.
    destruct Hin as (j & Hj & _). rewrite <- Hj. apply Qabs_nonneg.
  - rewrite nth_overflow by exact Hge. apply Qle_refl.
Qed.

(** The envelope of an impulse train: [|amp|] at the multiples of the
    period, 0 elsewhere. *)
Lemma impulse_envelope (period : Z) (n : nat) (amp : Q) (i : Z) :
  (0 <= i < Z.of_nat n)%Z ->
  sample (envelope (impulse_train period n amp) 1) i
  == if (i mod period =? 0)%Z then Qabs amp else 0.
Proof.
  intro Hi.
  assert (Hlen : List.length (impulse_train period n amp) = n).
  { unfold impulse_train. rewrite length_map, length_seq. reflexivity. }
  destruct (envelope_unit_step (impulse_train period n amp)) as [_ Hs].
  rewrite Hs by (rewrite Hlen; exact Hi).
  rewrite sample_impulse_train by exact Hi.
  destruct (i mod period =? 0)%Z; reflexivity.
Qed.

Lemma impulse_correlation_off_period (period : Z) (n : nat) (amp : Q) (lag : Z) :
  (0 < period)%Z -> (0 <= lag)%Z -> (lag mod period <> 0)%Z ->
  corr_ref (envelope (impulse_train period n amp) 1) lag == 0.
Proof.
  intros HP Hlag Hoff.
  assert (Hlen : List.length (envelope (impulse_train period n amp) 1) = n).
  { destruct (envelope_unit_step (impulse_train period n amp)) as [Hl _].
    rewrite Hl. unfold impulse_train. rewrite length_map, length_seq. reflexivity. }
  unfold corr_ref. rewrite Hlen. apply corr_sum_zero.
  intros i Hi.
  rewrite (impulse_envelope period n amp i) by lia.
  rewrite (impulse_envelope period n amp (i + lag)) by lia.
  destruct (Z.eqb_spec (i mod period) 0) as [Hi0 | Hi0]; [|ring].
  destruct (Z.eqb_spec ((i + lag) mod period) 0) as [Hl0 | Hl0]; [|ring].
  exfalso. apply Hoff.
  rewrite Z.add_mod, Hi0, Z.add_0_l, Z.mod_mod in Hl0 by lia. exact Hl0.
Qed.

Lemma impulse_correlation_on_period (period : Z) (n : nat) (amp : Q) :
  (0 < period < Z.of_nat n)%Z -> ~ amp == 0 ->
  0 < corr_ref (envelope (impulse_train period n amp) 1) period.
Proof.
  intros HP Hamp.
  assert (Hlen : List.length (envelope (impulse_train period n amp) 1) = n).
  { destruct (envelope_unit_step (impulse_train period n amp)) as [Hl _].
    rewrite Hl. unfold impulse_train. rewrite length_map, length_seq. reflexivity. }
  unfold corr_ref. rewrite Hlen.
  destruct (Z.to_nat (Z.of_nat n - period)) as [|m] eqn:Hm; [lia|].
  apply Qlt_le_trans
    with (sample (envelope (impulse_train period n amp) 1) 0
          * sample (envelope (impulse_train period n amp) 1) (0 + period)).
  - rewrite (impulse_envelope period n amp 0) by lia.
    rewrite (impulse_envelope period n amp (0 + period)) by lia.
    rewrite Z.mod_0_l by lia. rewrite Z.add_0_l, Z.mod_same by lia. cbn [Z.eqb].
    assert (Hpos : 0 < Qabs amp).
    { destruct (Qlt_le_dec amp 0) as [H | H].
      - rewrite Qabs_neg by (apply Qlt_le_weak; exact H). lra.
      - rewrite Qabs_pos by exact H.
        destruct (Qle_lt_or_eq _ _ H) as [Hlt | Heq]; [exact Hlt|].
        exfalso. apply Hamp. symmetry. exact Heq. }
    apply Qmult_lt_0_compat; exact Hpos.
  - apply corr_sum_first_term. intro i. apply envelope_nonneg.
Qed.

(** On a train of impulses sampled at 6000 Hz whose period the search
    window contains once, the search locks on the period. *)
Lemma impulse_train_best_lag (period : Z) (n : nat) (amp : Q) :
  (2572 <= period <= 5142)%Z ->
  (period < Z.of_nat n)%Z ->
  ~ amp == 0 ->
  let filtered := impulse_train period n amp in
  let rate := inject_Z 6000 / inject_Z (6000 / 6000) in
  snd (search_lags (envelope filtered 1) (minLag_of rate) (maxLag_of rate)) = period.
Proof.
  intros HP Hn Hamp. cbv zeta.
  change (6000 / 6000)%Z with 1%Z.
  set (filtered := impulse_train period n amp).
  set (rate := inject_Z 6000 / inject_Z 1).
  assert (Hlo : minLag_of rate = 2250%Z) by (vm_compute; reflexivity).
  assert (Hhi : maxLag_of rate = 5142%Z) by (vm_compute; reflexivity).
  rewrite Hlo, Hhi.
  pose proof (search_lags_spec (envelope filtered 1) 2250 5142 eq_refl) as Hspec.
  cbv zeta in Hspec.
  pose proof (impulse_correlation_on_period period n amp ltac:(lia) Hamp) as Hon.
  fold filtered in Hon.
  destruct Hspec as [[_ Hno] | [_ (Hr & Hpos & _)]].
  - exfalso. apply (Qlt_not_le _ _ Hon). apply Hno. lia.
  - set (L := snd (search_lags (envelope filtered 1) 2250 5142)) in *.
    destruct (Z.eq_dec (L mod period) 0) as [Hdiv | Hoff].
    + apply Z.mod_divide in Hdiv; [|lia]. destruct Hdiv as [q Hq].
      clearbody L.
      assert (Hq1 : (0 < q)%Z) by nia.
      assert (Hq2 : (q < 2)%Z) by nia.
      assert (q = 1%Z) by lia. subst q. lia.
    + exfalso.
      pose proof (impulse_correlation_off_period period n amp L
                    ltac:(lia) ltac:(lia) Hoff) as Hz.
      fold filtered in Hz. rewrite Hz in Hpos. apply (Qlt_irrefl 0 Hpos).
Qed.

(** At 6000 Hz, steps 3 to 5 return the tempo of the lag the search
    found. *)
Lemma bpm_of_filtered_at_lag (fuel : nat) (filtered : list Q) (L : Z) :
  let rate := inject_Z 6000 / inject_Z (6000 / 6000) in
  snd (search_lags (envelope filtered 1) (minLag_of rate) (maxLag_of rate)) = L ->
  L <> 0%Z ->
  bpm_of_filtered fuel 6000 filtered = lag_to_bpm fuel rate L.
Proof.
  cbv zeta. change (6000 / 6000)%Z with 1%Z.
  set (rate := inject_Z 6000 / inject_Z 1).
  intros Hbest HL. unfold bpm_of_filtered.
  change (6000 / 6000 <=? 0)%Z with false. cbv iota.
  change (6000 / 6000)%Z with 1%Z.
  replace (js_div (inject_Z 6000) (inject_Z 1)) with rate
    by (vm_compute; reflexivity).
  clearbody rate. revert Hbest.
  destruct (search_lags (envelope filtered 1) (minLag_of rate) (maxLag_of rate))
    as [mc bl].
  cbn [snd]. intro Hbest. subst bl.
  destruct (Z.eqb_spec L 0) as [He | _]; [contradiction | reflexivity].
Qed.



(** X15: on a filtered segment sampled at 6000 Hz that consists of
    impulses every [period] samples (a period the search window contains
    once, with at least two impulses), steps 3 to 5 lock on the lag
    [period] and return the tempo of that lag; for a period of 3000
    samples, half a second, the result is 120. *)
Theorem bpm_of_impulse_train :
  forall (period : Z) (n : nat) (amp : Q) (fuel : nat),
    (2572 <= period <= 5142)%Z ->
    (period < Z.of_nat n)%Z ->
    ~ amp == 0 ->
    (1 <= fuel)%nat ->
    let filtered := impulse_train period n amp in
    let rate := inject_Z 6000 / inject_Z (6000 / 6000) in
    snd (search_lags (envelope filtered 1) (minLag_of rate) (maxLag_of rate)) = period /\
    bpm_of_filtered fuel 6000 filtered = lag_to_bpm fuel rate period /\
    (period = 3000%Z -> bpm_of_filtered fuel 6000 filtered = Some 120).
Proof.
  intros period n amp fuel HP Hn Hamp Hfuel. cbv zeta.
  pose proof (impulse_train_best_lag period n amp HP Hn Hamp) as Hbest.
  cbv zeta in Hbest.
  assert (Hres : bpm_of_filtered fuel 6000 (impulse_train period n amp)
                 = lag_to_bpm fuel (inject_Z 6000 / inject_Z (6000 / 6000)) period).
  { apply bpm_of_filtered_at_lag; [exact Hbest | lia]. }
  split; [exact Hbest|]. split; [exact Hres|].
  intro H3000. rewrite Hres, H3000.
  destruct fuel as [|[|fuel]]; [lia | vm_compute; reflexivity | vm_compute; reflexivity].
Qed.

Lemma bpm_of_impulse_train_witness :
  let filtered := impulse_train 3000 (Z.to_nat 6001) (-(1 # 2)) in
  let rate := inject_Z 6000 / inject_Z (6000 / 6000) in
  snd (search_lags (envelope filtered 1) (minLag_of rate) (maxLag_of rate)) = 3000%Z /\
  bpm_of_filtered 1 6000 filtered = lag_to_bpm 1 rate 3000 /\
  bpm_of_filtered 1 6000 filtered = Some 120.
Proof.
  pose proof (bpm_of_impulse_train 3000 (Z.to_nat 6001) (-(1 # 2)) 1) as H.
  cbv zeta in H.
  destruct H as (H1 & H2 & H3).
  - lia.
  - rewrite Z2Nat.id; lia.
  - intro He. discriminate He.
  - apply le_n.
  - split; [exact H1|]. split; [exact H2|]. apply H3. reflexivity.
Defined.

(** * EQ, volume and the mixer *)

(** X16: [setEQ] maps a control value to [(value - 0.5) * 30] dB on the
    filter of its band and touches nothing else: control values in
    [[0, 1]] give gains in [[-15, 15]] dB, the centre is flat, the last
    setting of a band wins and settings of different bands commute. *)
Theorem setEQ_band_gain :
  forall (type other : Band) (v w : Q) (r : DeckNodes),
    band_gain type (setEQ type v r) = (v - (1 # 2)) * 30 /\
    (other <> type -> band_gain other (setEQ type v r) = band_gain other r) /\
    volumeNode_gain (setEQ type v r) = volumeNode_gain r /\
    gainNode_gain (setEQ type v r) = gainNode_gain r /\
    (0 <= v -> v <= 1 ->
     -(15) <= band_gain type (setEQ type v r) /\
     band_gain type (setEQ type v r) <= 15) /\
    (v == 1 # 2 -> band_gain type (setEQ type v r) == 0) /\
    setEQ type w (setEQ type v r) = setEQ type w r /\
    (other <> type ->
     setEQ other w (setEQ type v r) = setEQ type v (setEQ other w r)).
Proof.
  intros type other v w r.
  assert (Hg : band_gain type (setEQ type v r) = (v - (1 # 2)) * 30)
    by (destruct type; reflexivity).
  split; [exact Hg|]. split.
  { intro Hne. destruct type, other; try reflexivity; contradiction. }
  split; [destruct type; reflexivity|]. split; [destruct type; reflexivity|].
  split; [intros H0 H1; rewrite Hg; split; lra|].
  split; [intro Hv; rewrite Hg, Hv; reflexivity|].
  split; [destruct type; reflexivity|].
  intro Hne. destruct type, other; try reflexivity; contradiction.
Qed.

Lemma setEQ_band_gain_witness :
  -(15) <= band_gain Low (setEQ Low (1 # 4) initial_nodes) /\
  band_gain Low (setEQ Low (1 # 4) initial_nodes) <= 15 /\
  band_gain High (setEQ Low (1 # 4) initial_nodes) = band_gain High initial_nodes /\
  setEQ High 1 (setEQ Low (1 # 4) initial_nodes)
  = setEQ Low (1 # 4) (setEQ High 1 initial_nodes).
Proof.
  pose proof (setEQ_band_gain Low High (1 # 4) 1 initial_nodes)
    as (_ & Hother & _ & _ & Hrange & _ & _ & Hcomm).
  assert (Hne : High <> Low) by discriminate.
  destruct Hrange as [H1 H2]; [vm_compute; discriminate | vm_compute; discriminate |].
  split; [exact H1|]. split; [exact H2|].
  split; [exact (Hother Hne) | exact (Hcomm Hne)].
Defined.

(** X17: the crossfader always hands the mixer a value in [[0, 1]], 0 at
    the left edge of its track and 1 at the right edge, and the mixer
    sets the two decks' crossfade gains to [1 - value] and [value]: each
    lies in [[0, 1]] and they sum to 1; EQ and volume stay as they were. *)
Theorem crossfader_gains :
  forall (rect : Rect) (clientX : Q) (m : Mixer),
    0 < rect_width rect ->
    exists value,
      crossfader_handleMove (Some rect) clientX = Some value /\
      0 <= value /\ value <= 1 /\
      (clientX <= rect_left rect -> value == 0) /\
      (rect_left rect + rect_width rect <= clientX -> value == 1) /\
      let m' := updateCrossfader value m in
      gainNode_gain (nodesA m') = 1 - value /\
      gainNode_gain (nodesB m') = value /\
      gainNode_gain (nodesA m') + gainNode_gain (nodesB m') == 1 /\
      (0 <= gainNode_gain (nodesA m') /\ gainNode_gain (nodesA m') <= 1) /\
      (forall band deck,
          band_gain band (deck_nodes deck m') = band_gain band (deck_nodes deck m)) /\
      (forall deck,
          volumeNode_gain (deck_nodes deck m') = volumeNode_gain (deck_nodes deck m)).
Proof.
  intros rect clientX m Hw.
  eexists. split; [reflexivity|].
  set (x := (clientX - rect_left rect) / rect_width rect).
  assert (H0 : 0 <= Math_max 0 (Math_min 1 x)) by apply Q.le_max_l.
  assert (H1 : Math_max 0 (Math_min 1 x) <= 1).
  { apply Q.max_lub; [lra | apply Q.le_min_l]. }
  split; [exact H0|]. split; [exact H1|]. split; [|split].
  - intro Hleft.
    assert (Hx : x <= 0).
    { unfold x. apply Qle_shift_div_r; [exact Hw | lra]. }
    unfold Math_max, Math_min. rewrite (Q.min_r 1 x) by lra.
    rewrite Q.max_l by exact Hx. reflexivity.
  - intro Hright.
    assert (Hx : 1 <= x).
    { unfold x. apply Qle_shift_div_l; [exact Hw | lra]. }
    unfold Math_max, Math_min. rewrite (Q.min_l 1 x) by exact Hx.
    rewrite Q.max_r by lra. reflexivity.
  - cbv zeta. cbn [updateCrossfader nodesA nodesB set_gainNode gainNode_gain].
    split; [reflexivity|]. split; [reflexivity|].
    split; [ring|]. split; [split; lra|].
    split; [intros [] []; reflexivity | intros []; reflexivity].
Qed.

Lemma crossfader_gains_witness :
  exists value,
    crossfader_handleMove (Some (mkRect 100 0 200 40)) 150 = Some value /\
    0 <= value /\ value <= 1 /\
    (150 <= 100 -> value == 0) /\
    (100 + 200 <= 150 -> value == 1) /\
    let m' := updateCrossfader value initial_mixer in
    gainNode_gain (nodesA m') = 1 - value /\
    gainNode_gain (nodesB m') = value /\
    gainNode_gain (nodesA m') + gainNode_gain (nodesB m') == 1 /\
    (0 <= gainNode_gain (nodesA m') /\ gainNode_gain (nodesA m') <= 1) /\
    (forall band deck,
        band_gain band (deck_nodes deck m')
        = band_gain band (deck_nodes deck initial_mixer)) /\
    (forall deck,
        volumeNode_gain (deck_nodes deck m')
        = volumeNode_gain (deck_nodes deck initial_mixer)).
Proof.
  apply (crossfader_gains (mkRect 100 0 200 40) 150 initial_mixer).
  vm_compute. reflexivity.
Defined.

(** X18: the mixer's volume and EQ handlers act on one deck only: the
    volume stage of that deck gets [4/3] of the control value, so the
    default position 0.75 is unity gain and the control range [[0, 1]]
    gives gains in [[0, 4/3]]; the other deck's nodes and both crossfade
    gains are untouched, and the mixer starts at unity volume with the
    crossfader centred. *)
Theorem mixer_volume_and_eq_per_deck :
  forall (deck other : DeckId) (band : Band) (val : Q) (m : Mixer),
    other <> deck ->
    let mv := handleVolumeChange deck val m in
    let me := handleEqChange deck band val m in
    volumeNode_gain (deck_nodes deck mv) == val * (4 # 3) /\
    (val == 3 # 4 -> volumeNode_gain (deck_nodes deck mv) == 1) /\
    (0 <= val -> val <= 1 ->
     0 <= volumeNode_gain (deck_nodes deck mv) /\
     volumeNode_gain (deck_nodes deck mv) <= 4 # 3) /\
    deck_nodes other mv = deck_nodes other m /\
    gainNode_gain (deck_nodes deck mv) = gainNode_gain (deck_nodes deck m) /\
    band_gain band (deck_nodes deck me) = (val - (1 # 2)) * 30 /\
    deck_nodes other me = deck_nodes other m /\
    volumeNode_gain (deck_nodes deck me) = volumeNode_gain (deck_nodes deck m) /\
    (volumeNode_gain (nodesA initial_mixer) == 1 /\
     volumeNode_gain (nodesB initial_mixer) == 1 /\
     gainNode_gain (nodesA initial_mixer) == 1 # 2 /\
     gainNode_gain (nodesB initial_mixer) == 1 # 2).
Proof.
  intros deck other band val m Hne mv me.
  assert (Hv : volumeNode_gain (deck_nodes deck mv) = val * GAIN_SCALER)
    by (destruct deck; reflexivity).
  assert (Hs : GAIN_SCALER == 4 # 3) by reflexivity.
  split; [rewrite Hv, Hs; reflexivity|].
  split; [intro H; rewrite Hv, Hs, H; reflexivity|].
  split; [intros H0 H1; rewrite Hv, Hs; split; lra|].
  split; [destruct deck, other; try reflexivity; contradiction|].
  split; [destruct deck; reflexivity|].
  split; [destruct deck, band; reflexivity|].
  split; [destruct deck, other; try reflexivity; contradiction|].
  split; [destruct deck, band; reflexivity|].
  repeat split; reflexivity.
Qed.

Lemma mixer_volume_and_eq_per_deck_witness :
  let mv := handleVolumeChange DeckA (3 # 4) initial_mixer in
  volumeNode_gain (deck_nodes DeckA mv) == 1 /\
  deck_nodes DeckB mv = deck_nodes DeckB initial_mixer.
Proof.
  assert (Hne : DeckB <> DeckA) by discriminate.
  pose proof (mixer_volume_and_eq_per_deck DeckA DeckB Low (3 # 4) initial_mixer Hne)
    as (_ & Hunity & _ & Hother & _).
  split; [apply Hunity; reflexivity | exact Hother].
Defined.

(** X19: the fill bar of the crossfader spans from the thumb to the
    centre of the track: it starts at the smaller of the value and 0.5 and
    ends at the larger, in percent. *)
Theorem crossfader_fill_spans_to_centre :
  forall value : Q,
    fillLeft value == Qmin value (1 # 2) * 100 /\
    fillLeft value + fillWidth value == Qmax value (1 # 2) * 100 /\
    0 <= fillWidth value.
Proof.
  intro value. unfold fillLeft, fillWidth, Math_abs.
  destruct (Qltb value (1 # 2)) eqn:E.
  - apply Qltb_true in E.
    rewrite Q.min_l, Q.max_r by lra.
    assert (Ha : Qabs (value - (1 # 2)) == (1 # 2) - value).
    { rewrite Qabs_neg by lra. ring. }
    rewrite Ha. repeat split; lra.
  - apply Qltb_false in E.
    rewrite Q.min_r, Q.max_l by lra.
    rewrite Qabs_pos by lra. repeat split; lra.
Qed.

(** * The controls of a deck *)

(** X20: a knob being dragged always reports a value inside its range,
    which its dial shows between -135 and +135 degrees; a drag of 200
    pixels upwards from the minimum reaches the maximum, and a pointer
    back at the height of the press reports the value of the press. *)
Theorem knob_drag_in_range :
  forall (min max clientY0 value0 clientY : Q),
    min < max ->
    min <= value0 -> value0 <= max ->
    let k := knob_handleStart clientY0 value0 in
    exists v,
      knob_handleMove min max k clientY = Some v /\
      min <= v /\ v <= max /\
      -(135) <= knob_rotation v min max /\ knob_rotation v min max <= 135 /\
      (clientY == clientY0 -> v == value0) /\
      (value0 == min -> clientY0 - clientY == 200 -> v == max).
Proof.
  intros min max clientY0 value0 clientY Hmm Hv0 Hv1 k.
  exists (Math_max min (Math_min max
            (value0 + (clientY0 - clientY) / 200 * (max - min)))).
  split; [reflexivity|].
  set (newValue := value0 + (clientY0 - clientY) / 200 * (max - min)).
  assert (Hlo : min <= Math_max min (Math_min max newValue)) by apply Q.le_max_l.
  assert (Hhi : Math_max min (Math_min max newValue) <= max).
  { apply Q.max_lub; [lra | apply Q.le_min_l]. }
  split; [exact Hlo|]. split; [exact Hhi|].
  assert (Hrot : forall v, min <= v -> v <= max ->
                           -(135) <= knob_rotation v min max /\
                           knob_rotation v min max <= 135).
  { intros v Ha Hb. unfold knob_rotation.
    assert (Hn0 : 0 <= (v - min) / (max - min)) by (apply Qle_shift_div_l; lra).
    assert (Hn1 : (v - min) / (max - min) <= 1) by (apply Qle_shift_div_r; lra).
    split; lra. }
  destruct (Hrot _ Hlo Hhi) as [Hr0 Hr1].
  split; [exact Hr0|]. split; [exact Hr1|]. split.
  - intro He.
    assert (Hn : newValue == value0).
    { unfold newValue. rewrite He. field. }
    unfold Math_max, Math_min. rewrite Hn.
    rewrite (Q.min_r max value0) by exact Hv1. rewrite Q.max_r by exact Hv0.
    reflexivity.
  - intros Hmin Hd.
    assert (Hn : newValue == max).
    { unfold newValue. rewrite Hd, Hmin. field. }
    unfold Math_max, Math_min. rewrite Hn.
    rewrite (Q.min_l max max) by apply Qle_refl. rewrite Q.max_r by lra.
    reflexivity.
Qed.

Lemma knob_drag_in_range_witness :
  exists v,
    knob_handleMove 0 1 (knob_handleStart 300 (1 # 2)) 250 = Some v /\
    0 <= v /\ v <= 1 /\
    -(135) <= knob_rotation v 0 1 /\ knob_rotation v 0 1 <= 135 /\
    (250 == 300 -> v == 1 # 2) /\
    ((1 # 2) == 0 -> 300 - 250 == 200 -> v == 1).
Proof.
  apply (knob_drag_in_range 0 1 300 (1 # 2) 250); vm_compute;
    try reflexivity; discriminate.
Defined.

Lemma Math_PI_pos : 0 < Math_PI.
Proof. reflexivity. Qed.

(** X21: for two pointer angles in [[-pi, pi]], the angular step of a
    platter move is their difference up to a whole turn and lies in
    [[-pi, pi]]: crossing the seam of the angle does not produce a jump.
    The time step it stands for is at most 0.9 s either way (half a
    revolution), and the drawn rotation follows it by the same angle. *)
Theorem lp_delta_unwraps :
  forall (currentAngle lastAngle t : Q),
    - Math_PI <= currentAngle -> currentAngle <= Math_PI ->
    - Math_PI <= lastAngle -> lastAngle <= Math_PI ->
    let delta := lp_delta currentAngle lastAngle in
    (delta == currentAngle - lastAngle \/
     delta == currentAngle - lastAngle - 2 * Math_PI \/
     delta == currentAngle - lastAngle + 2 * Math_PI) /\
    - Math_PI <= delta /\ delta <= Math_PI /\
    -(9 # 10) <= lp_timeDelta delta /\ lp_timeDelta delta <= 9 # 10 /\
    (t + lp_timeDelta delta) / SECONDS_PER_REVOLUTION * 360
    - t / SECONDS_PER_REVOLUTION * 360
    == delta / Math_PI * 180.
Proof.
  intros currentAngle lastAngle t Hc0 Hc1 Hl0 Hl1 delta.
  pose proof Math_PI_pos as Hpi.
  assert (Hcases : (delta == currentAngle - lastAngle \/
                    delta == currentAngle - lastAngle - 2 * Math_PI \/
                    delta == currentAngle - lastAngle + 2 * Math_PI) /\
                   - Math_PI <= delta /\ delta <= Math_PI).
  { unfold delta, lp_delta.
    destruct (Qgtb (currentAngle - lastAngle) Math_PI) eqn:E1.
    - apply Qgtb_true in E1.
      destruct (Qltb (currentAngle - lastAngle - 2 * Math_PI) (- Math_PI)) eqn:E2.
      + apply Qltb_true in E2. exfalso. lra.
      + apply Qltb_false in E2. split; [right; left; reflexivity|]. split; lra.
    - apply Qgtb_false in E1.
      destruct (Qltb (currentAngle - lastAngle) (- Math_PI)) eqn:E2.
      + apply Qltb_true in E2. split; [right; right; reflexivity|]. split; lra.
      + apply Qltb_false in E2. split; [left; reflexivity|]. split; lra. }
  destruct Hcases as (Hk & Hd0 & Hd1).
  split; [exact Hk|]. split; [exact Hd0|]. split; [exact Hd1|].
  clearbody delta.
  assert (Ht : lp_timeDelta delta == delta / Math_PI * (9 # 10)).
  { unfold lp_timeDelta, SECONDS_PER_REVOLUTION. field. lra. }
  assert (Hq0 : -(1) <= delta / Math_PI) by (apply Qle_shift_div_l; lra).
  assert (Hq1 : delta / Math_PI <= 1) by (apply Qle_shift_div_r; lra).
  split; [rewrite Ht; lra|]. split; [rewrite Ht; lra|].
  rewrite Ht. unfold SECONDS_PER_REVOLUTION. field. lra.
Qed.

Lemma lp_delta_unwraps_witness :
  let delta := lp_delta (-(3)) 3 in
  (delta == -(3) - 3 \/ delta == -(3) - 3 - 2 * Math_PI \/
   delta == -(3) - 3 + 2 * Math_PI) /\
  - Math_PI <= delta /\ delta <= Math_PI /\
  -(9 # 10) <= lp_timeDelta delta /\ lp_timeDelta delta <= 9 # 10 /\
  (5 + lp_timeDelta delta) / SECONDS_PER_REVOLUTION * 360
  - 5 / SECONDS_PER_REVOLUTION * 360
  == delta / Math_PI * 180.
Proof.
  apply (lp_delta_unwraps (-(3)) 3 5); vm_compute; discriminate.
Defined.

Lemma lp_delta_cases (currentAngle lastAngle : Q) :
  - Math_PI <= currentAngle -> currentAngle <= Math_PI ->
  - Math_PI <= lastAngle -> lastAngle <= Math_PI ->
  - Math_PI <= lp_delta currentAngle lastAngle /\
  lp_delta currentAngle lastAngle <= Math_PI.
Proof.
  intros Hc0 Hc1 Hl0 Hl1. pose proof Math_PI_pos as Hpi. unfold lp_delta.
  destruct (Qgtb (currentAngle - lastAngle) Math_PI) eqn:E1.
  - apply Qgtb_true in E1.
    destruct (Qltb (currentAngle - lastAngle - 2 * Math_PI) (- Math_PI)) eqn:E2.
    + apply Qltb_true in E2. exfalso. lra.
    + apply Qltb_false in E2. split; lra.
  - apply Qgtb_false in E1.
    destruct (Qltb (currentAngle - lastAngle) (- Math_PI)) eqn:E2.
    + apply Qltb_true in E2. split; lra.
    + apply Qltb_false in E2. split; lra.
Qed.

Lemma lp_timeDelta_bound (delta : Q) :
  - Math_PI <= delta -> delta <= Math_PI ->
  -(9 # 10) <= lp_timeDelta delta /\ lp_timeDelta delta <= 9 # 10.
Proof.
  intros Hd0 Hd1. pose proof Math_PI_pos as Hpi.
  assert (Ht : lp_timeDelta delta == delta / Math_PI * (9 # 10)).
  { unfold lp_timeDelta, SECONDS_PER_REVOLUTION. field. lra. }
  assert (Hq0 : -(1) <= delta / Math_PI) by (apply Qle_shift_div_l; lra).
  assert (Hq1 : delta / Math_PI <= 1) by (apply Qle_shift_div_r; lra).
  rewrite Ht. split; lra.
Qed.

Lemma seek_scratch_fields (d : Deck) (b : AudioBuffer) (t now : Q) :
  buffer d = Some b -> isScratching d = true ->
  targetSample (seek t now d) = clamp t 0 (duration d) * inject_Z (sampleRate b) /\
  currentSample (seek t now d) = currentSample d /\
  currentTime (seek t now d) = currentTime d /\
  pausedAt (seek t now d) = pausedAt d.
Proof.
  intros Hb Hs. unfold seek, seek_closure, clamp. rewrite Hb, Hs.
  destruct d; repeat split; reflexivity.
Qed.

Lemma clamp_nonexpansive (t delta hi : Q) :
  0 <= t -> t <= hi ->
  Qabs (clamp (t + delta) 0 hi - t) <= Qabs delta.
Proof.
  intros H0 H1. unfold clamp.
  destruct (Qlt_le_dec hi (t + delta)) as [Ha | Ha].
  - rewrite (Q.min_r (t + delta) hi) by lra. rewrite Q.max_r by lra.
    rewrite (Qabs_pos (hi - t)) by lra. rewrite (Qabs_pos delta) by lra. lra.
  - rewrite (Q.min_l (t + delta) hi) by exact Ha.
    destruct (Qlt_le_dec (t + delta) 0) as [Hb | Hb].
    + rewrite Q.max_l by lra.
      rewrite (Qabs_neg (0 - t)) by lra. rewrite (Qabs_neg delta) by lra. lra.
    + rewrite Q.max_r by exact Hb.
      assert (He : t + delta - t == delta) by ring. rewrite He. apply Qle_refl.
Qed.

(** X22: one move of the platter during a scrub leaves the position and
    the displayed time alone, records the pointer angle, and puts the
    scratch target inside the track at no more than 0.9 s from the
    displayed time; without a press before it, a move does nothing. *)
Theorem handleLpMove_target_near :
  forall (ui : DeckUI) (d : Deck) (b : AudioBuffer) (currentAngle now : Q),
    buffer d = Some b ->
    isScratching d = true ->
    isScrubbing ui = true ->
    - Math_PI <= currentAngle -> currentAngle <= Math_PI ->
    - Math_PI <= lastAngleRef ui -> lastAngleRef ui <= Math_PI ->
    0 <= currentTime d -> currentTime d <= duration d ->
    let s' := handleLpMove currentAngle now (ui, d) in
    lastAngleRef (fst s') = currentAngle /\
    currentSample (snd s') = currentSample d /\
    currentTime (snd s') = currentTime d /\
    pausedAt (snd s') = pausedAt d /\
    (exists T,
        targetSample (snd s') = T * inject_Z (sampleRate b) /\
        0 <= T /\ T <= duration d /\
        Qabs (T - currentTime d) <= 9 # 10) /\
    handleLpMove currentAngle now
      (mkDeckUI false (lastAngleRef ui) (tapTimesRef ui) (cueTimerRef ui), d)
    = (mkDeckUI false (lastAngleRef ui) (tapTimesRef ui) (cueTimerRef ui), d).
Proof.
  intros ui d b currentAngle now Hb Hs Hscrub Hc0 Hc1 Hl0 Hl1 Ht0 Ht1 s'.
  destruct (lp_delta_cases currentAngle (lastAngleRef ui) Hc0 Hc1 Hl0 Hl1)
    as (Hd0 & Hd1).
  destruct (seek_scratch_fields d b
              (currentTime d + lp_timeDelta (lp_delta currentAngle (lastAngleRef ui)))
              now Hb Hs) as (H1 & H2 & H3 & H4).
  unfold s', handleLpMove. rewrite Hscrub, Hb. cbn [negb fst snd lastAngleRef].
  split; [reflexivity|]. split; [exact H2|]. split; [exact H3|]. split; [exact H4|].
  split; [|reflexivity].
  eexists. split; [exact H1|].
  assert (Hdur : 0 <= duration d) by lra.
  destruct (clamp_in_range
              (currentTime d + lp_timeDelta (lp_delta currentAngle (lastAngleRef ui)))
              (duration d) Hdur) as [Hk0 Hk1].
  split; [exact Hk0|]. split; [exact Hk1|].
  apply Qle_trans
    with (Qabs (lp_timeDelta (lp_delta currentAngle (lastAngleRef ui)))).
  - apply clamp_nonexpansive; assumption.
  - apply Qabs_Qle_condition.
    apply lp_timeDelta_bound; assumption.
Qed.

Lemma handleLpMove_target_near_witness :
  let ui := mkDeckUI true 3 [] None in
  let d := startScratch
             (loadFile (mkFile "s.wav" (Some stereo_buffer)) initial_deck) in
  let s' := handleLpMove (-(3)) 0 (ui, d) in
  lastAngleRef (fst s') = -(3) /\
  currentSample (snd s') = currentSample d /\
  currentTime (snd s') = currentTime d /\
  pausedAt (snd s') = pausedAt d /\
  (exists T,
      targetSample (snd s') = T * inject_Z (sampleRate stereo_buffer) /\
      0 <= T /\ T <= duration d /\
      Qabs (T - currentTime d) <= 9 # 10).
Proof.
  pose proof (handleLpMove_target_near
                (mkDeckUI true 3 [] None)
                (startScratch (loadFile (mkFile "s.wav" (Some stereo_buffer)) initial_deck))
                stereo_buffer (-(3)) 0 eq_refl eq_refl eq_refl) as H.
  cbv zeta in H.
  destruct H as (H1 & H2 & H3 & H4 & H5 & _).
  1-6: (vm_compute; discriminate).
  exact (conj H1 (conj H2 (conj H3 (conj H4 H5)))).
Defined.

(** X23: the tempo slider always sets a rate between 0.92 and 1.08,
    hence a positive one: 1.08 at the top of the slider, 0.92 at the
    bottom; the thumb is then drawn where the pointer is, in percent of
    the slider height, the transport position is untouched, and a pitch
    reset puts the thumb at the middle. *)
Theorem tempo_slider_range :
  forall (rect : Rect) (clientY : Q) (d : Deck),
    0 < rect_height rect ->
    let d' := handleTempoMove (Some rect) clientY d in
    let normalized :=
      Math_max 0 (Math_min 1 ((clientY - rect_top rect) / rect_height rect)) in
    92 # 100 <= playbackRate d' /\ playbackRate d' <= 108 # 100 /\
    0 < playbackRate d' /\
    sliderPercent d' == normalized * 100 /\
    (0 <= sliderPercent d' /\ sliderPercent d' <= 100) /\
    (clientY <= rect_top rect -> playbackRate d' == 108 # 100) /\
    (rect_top rect + rect_height rect <= clientY -> playbackRate d' == 92 # 100) /\
    pausedAt d' = pausedAt d /\ startTime d' = startTime d /\
    currentTime d' = currentTime d /\
    sliderPercent (handlePitchReset d) == 50.
Proof.
  intros rect clientY d Hh d' normalized.
  destruct (setPlaybackRate_fields (tempo_rate rect clientY) d)
    as (Hpa & Hst & _ & _ & _ & Hra & Hct).
  destruct (setPlaybackRate_fields 1 d) as (_ & _ & _ & _ & _ & Hreset & _).
  fold (handlePitchReset d) in Hreset.
  change (setPlaybackRate (tempo_rate rect clientY) d) with d' in Hpa, Hst, Hra, Hct.
  set (x := (clientY - rect_top rect) / rect_height rect) in *.
  assert (Hrate : playbackRate d' == (108 # 100) - normalized * (16 # 100)).
  { rewrite Hra. unfold tempo_rate, PITCH_RANGE. fold x. fold normalized. ring. }
  assert (Hn0 : 0 <= normalized) by apply Q.le_max_l.
  assert (Hn1 : normalized <= 1).
  { apply Q.max_lub; [lra | apply Q.le_min_l]. }
  assert (Hsl : sliderPercent d' == normalized * 100).
  { unfold sliderPercent. rewrite Hrate. unfold PITCH_RANGE. field. }
  split; [rewrite Hrate; lra|]. split; [rewrite Hrate; lra|].
  split; [rewrite Hrate; lra|]. split; [exact Hsl|].
  split; [rewrite Hsl; split; lra|]. split; [|split].
  - intro Htop. rewrite Hrate.
    assert (Hx : x <= 0) by (unfold x; apply Qle_shift_div_r; lra).
    assert (Hz : normalized == 0).
    { unfold normalized, Math_max, Math_min. rewrite (Q.min_r 1 x) by lra.
      rewrite Q.max_l by exact Hx. reflexivity. }
    rewrite Hz. reflexivity.
  - intro Hbot. rewrite Hrate.
    assert (Hx : 1 <= x) by (unfold x; apply Qle_shift_div_l; lra).
    assert (Hz : normalized == 1).
    { unfold normalized, Math_max, Math_min. rewrite (Q.min_l 1 x) by exact Hx.
      rewrite Q.max_r by lra. reflexivity. }
    rewrite Hz. reflexivity.
  - split; [exact Hpa|]. split; [exact Hst|]. split; [exact Hct|].
    unfold sliderPercent. rewrite Hreset. reflexivity.
Qed.

Lemma tempo_slider_range_witness :
  let d := loadFile (demo_file "a.wav" 10) initial_deck in
  let d' := handleTempoMove (Some (mkRect 0 20 30 200)) 70 d in
  92 # 100 <= playbackRate d' /\ playbackRate d' <= 108 # 100 /\
  0 < playbackRate d' /\
  sliderPercent d' == Math_max 0 (Math_min 1 ((70 - 20) / 200)) * 100 /\
  sliderPercent d' == 25.
Proof.
  pose proof (tempo_slider_range (mkRect 0 20 30 200) 70
                (loadFile (demo_file "a.wav" 10) initial_deck)) as H.
  cbv zeta in H. destruct H as (H1 & H2 & H3 & H4 & _); [reflexivity|].
  split; [exact H1|]. split; [exact H2|]. split; [exact H3|].
  split; [exact H4|]. vm_compute. reflexivity.
Defined.

(** ** Tap tempo *)

Lemma rev_head_last (l : list Q) :
  l <> [] -> exists r, rev l = last l 0 :: r.
Proof.
  intro Hne. destruct (exists_last Hne) as (l' & a & ->).
  rewrite rev_app_distr, last_last. cbn [rev app]. eauto.
Qed.

Lemma interval_sum_telescopes (l : list Q) :
  l <> [] -> interval_sum l == last l 0 - hd 0 l.
Proof.
  induction l as [|t0 [|t1 rest] IH]; intro Hne.
  - congruence.
  - cbn. ring.
  - change (interval_sum (t0 :: t1 :: rest))
      with ((t1 - t0) + interval_sum (t1 :: rest)).
    change (last (t0 :: t1 :: rest) 0) with (last (t1 :: rest) 0).
    rewrite IH by discriminate. cbn [hd]. ring.
Qed.

Lemma kept_taps_facts (times : list Q) (now : Q) :
  times <> [] -> (List.length times <= 5)%nat ->
  let kept := kept_taps times now in
  (2 <= List.length kept)%nat /\ (List.length kept <= 5)%nat /\
  last kept 0 = now /\
  (In (hd 0 kept) times).
Proof.
  intros Hne Hlen. unfold kept_taps.
  destruct times as [|t0 [|t1 rest]]; [congruence| |].
  - cbn. repeat split; auto.
  - rewrite length_app. cbn [List.length Nat.add].
    destruct (5 <? S (S (List.length rest + 1)))%nat eqn:E.
    + apply Nat.ltb_lt in E. cbn [List.length] in Hlen.
      cbn [app tl]. change (t1 :: rest ++ [now]) with ((t1 :: rest) ++ [now]).
      rewrite length_app, last_last. cbn [List.length Nat.add app hd].
      repeat split; try lia. right; left; reflexivity.
    + apply Nat.ltb_ge in E.
      rewrite last_last, length_app. cbn [List.length Nat.add app hd].
      repeat split; try lia. left; reflexivity.
Qed.

(** The tempo [handleTap] stores for the taps [kept] at rate [rate]. *)
Lemma handleTap_accepted (ui : DeckUI) (d : Deck) (now : Q) :
  tapTimesRef ui <> [] -> (List.length (tapTimesRef ui) <= 5)%nat ->
  100 <= now - last (tapTimesRef ui) 0 ->
  now - last (tapTimesRef ui) 0 <= 2000 ->
  let kept := kept_taps (tapTimesRef ui) now in
  handleTap now (ui, d) =
    (mkDeckUI (isScrubbing ui) (lastAngleRef ui) kept (cueTimerRef ui),
     setBpm
       (js_div
          (js_div 60000
             (js_div (interval_sum kept)
                (inject_Z (Z.of_nat (List.length kept - 1)))))
          (playbackRate d)) d).
Proof.
  intros Hne Hlen Hlo Hhi kept.
  destruct (kept_taps_facts _ now Hne Hlen) as (H2 & _).
  fold kept in H2.
  unfold handleTap.
  destruct (rev_head_last _ Hne) as (r & ->).
  assert (E1 : Qltb (now - last (tapTimesRef ui) 0) 100 = false)
    by (apply Qltb_false; exact Hlo).
  assert (E2 : Qgtb (now - last (tapTimesRef ui) 0) 2000 = false)
    by (apply Qgtb_false; exact Hhi).
  rewrite E1, E2. fold (kept_taps (tapTimesRef ui) now). fold kept.
  assert (E3 : (1 <? List.length kept)%nat = true) by (apply Nat.ltb_lt; lia).
  rewrite E3. reflexivity.
Qed.

Lemma sorted_le_last (l : list Q) (x : Q) :
  Sorted Qle l -> In x l -> x <= last l 0.
Proof.
  intro Hs. apply Sorted_Qle_strong in Hs. revert x.
  induction Hs as [|a l Hs IH Hall]; intros x Hin; [destruct Hin|].
  destruct l as [|b l'].
  - destruct Hin as [<-|[]]. cbn. apply Qle_refl.
  - change (last (a :: b :: l') 0) with (last (b :: l') 0).
    destruct Hin as [<-|Hin]; [|exact (IH x Hin)].
    apply Qle_trans with b.
    + rewrite Forall_forall in Hall. apply Hall. left; reflexivity.
    + apply IH. left; reflexivity.
Qed.

Lemma js_div_comp (x x' y y' : Q) :
  x == x' -> y == y' -> js_div x y = js_div x' y'.
Proof. intros Hx Hy. unfold js_div. apply fl_comp. rewrite Hx, Hy. reflexivity. Qed.

Lemma js_mul_comp (x x' y y' : Q) :
  x == x' -> y == y' -> js_mul x y = js_mul x' y'.
Proof. intros Hx Hy. unfold js_mul. apply fl_comp. rewrite Hx, Hy. reflexivity. Qed.

Lemma js_div_double (x y : Q) : is_double (js_div x y).
Proof. apply fl_idempotent. Qed.

(** Dividing or multiplying a double by 1 returns it. *)
Lemma js_div_one (x r : Q) : is_double x -> r == 1 -> js_div x r == x.
Proof.
  intros Hx Hr. unfold js_div.
  rewrite (fl_comp (x / r) x); [exact Hx|]. rewrite Hr. field.
Qed.

Lemma js_mul_one (x r : Q) : is_double x -> r == 1 -> js_mul x r == x.
Proof.
  intros Hx Hr. unfold js_mul.
  rewrite (fl_comp (x * r) x); [exact Hx|]. rewrite Hr. ring.
Qed.

(** At rate 1 the tempo shown is the tempo stored. *)
Lemma effectiveBpm_rate_one (d : Deck) :
  is_double (bpm d) -> playbackRate d == 1 -> effectiveBpm d == bpm d.
Proof.
  intros Hb Hr. unfold effectiveBpm.
  destruct (Qeq_bool (bpm d) 0) eqn:E.
  - apply Qeq_bool_iff in E. symmetry. exact E.
  - apply js_mul_one; assumption.
Qed.

(** X24: a tap between 100 ms and 2 s after the previous one is kept with
    at most the four taps before it, and the tempo stored is computed
    from the time between the oldest tap kept and this one alone: 60000
    over the mean interval (at least 25 ms), over the rate, each quotient
    rounded; at rate 1 that is the tempo shown. *)
Theorem handleTap_tempo (ui : DeckUI) (d : Deck) (now : Q) :
  tapTimesRef ui <> [] -> (List.length (tapTimesRef ui) <= 5)%nat ->
  Sorted Qle (tapTimesRef ui) ->
  100 <= now - last (tapTimesRef ui) 0 ->
  now - last (tapTimesRef ui) 0 <= 2000 ->
  ~ playbackRate d == 0 ->
  let s' := handleTap now (ui, d) in
  let kept := tapTimesRef (fst s') in
  let avg :=
    js_div (now - hd 0 kept) (inject_Z (Z.of_nat (List.length kept - 1))) in
  kept = kept_taps (tapTimesRef ui) now /\
  (2 <= List.length kept <= 5)%nat /\
  last kept 0 = now /\
  playbackRate (snd s') = playbackRate d /\
  25 <= avg /\
  bpm (snd s') == js_div (js_div 60000 avg) (playbackRate d) /\
  (playbackRate d == 1 -> effectiveBpm (snd s') == js_div 60000 avg).
Proof.
  intros Hne Hlen Hs Hlo Hhi Hr. cbv zeta.
  rewrite (handleTap_accepted ui d now Hne Hlen Hlo Hhi).
  cbn [fst snd tapTimesRef].
  destruct (kept_taps_facts _ now Hne Hlen) as (H2 & H5 & Hlast & Hhd).
  cbv zeta in H2, H5, Hlast, Hhd.
  set (kept := kept_taps (tapTimesRef ui) now) in *.
  assert (Hfirst : hd 0 kept <= last (tapTimesRef ui) 0)
    by (apply sorted_le_last; assumption).
  assert (Hsum : interval_sum kept == now - hd 0 kept).
  { rewrite interval_sum_telescopes.
    - rewrite Hlast. reflexivity.
    - intro E. rewrite E in H2. cbn in H2. lia. }
  assert (Hn1 : 1 <= inject_Z (Z.of_nat (List.length kept - 1))).
  { change 1 with (inject_Z 1). rewrite <- Zle_Qle. lia. }
  assert (Hn4 : inject_Z (Z.of_nat (List.length kept - 1)) <= 4).
  { change 4 with (inject_Z 4). rewrite <- Zle_Qle. lia. }
  set (n := inject_Z (Z.of_nat (List.length kept - 1))) in *.
  rewrite (js_div_comp (interval_sum kept) (now - hd 0 kept) n n Hsum (Qeq_refl n)).
  set (avg := js_div (now - hd 0 kept) n).
  assert (Havg : 25 <= avg).
  { unfold avg, js_div.
    assert (H25 : fl 25 == 25) by (vm_compute; reflexivity).
    rewrite <- H25. apply fl_mono.
    set (h := hd 0 kept) in *. set (l := last (tapTimesRef ui) 0) in *.
    clearbody n h l. apply Qle_shift_div_l; lra. }
  deck_simpl.
  refine (conj eq_refl (conj (conj H2 H5) (conj Hlast (conj eq_refl
            (conj Havg (conj (Qeq_refl _) _)))))).
  intro Hone.
  rewrite effectiveBpm_rate_one.
  - deck_simpl. apply js_div_one; [apply js_div_double | exact Hone].
  - deck_simpl. apply js_div_double.
  - deck_simpl. exact Hone.
Qed.

Lemma handleTap_tempo_witness :
  let ui := mkDeckUI false 0 [0; 500; 1000] None in
  tapTimesRef (fst (handleTap 1500 (ui, initial_deck))) = [0; 500; 1000; 1500] /\
  bpm (snd (handleTap 1500 (ui, initial_deck))) == 120 /\
  effectiveBpm (snd (handleTap 1500 (ui, initial_deck))) == 120.
Proof.
  cbv zeta.
  set (ui := mkDeckUI false 0 [0; 500; 1000] None).
  assert (Hs : Sorted Qle (tapTimesRef ui)).
  { cbn. repeat constructor; discriminate. }
  assert (Hne : tapTimesRef ui <> []) by (cbn; discriminate).
  assert (Hlen : (List.length (tapTimesRef ui) <= 5)%nat) by (cbn; lia).
  assert (Hlo : 100 <= 1500 - last (tapTimesRef ui) 0) by (cbn; lra).
  assert (Hhi : 1500 - last (tapTimesRef ui) 0 <= 2000) by (cbn; lra).
  assert (Hr : ~ playbackRate initial_deck == 0) by (cbn; lra).
  destruct (handleTap_tempo ui initial_deck 1500 Hne Hlen Hs Hlo Hhi Hr)
    as (Hk & _ & _ & _ & _ & Hb & He).
  split; [|split].
  - rewrite Hk. reflexivity.
  - rewrite Hb, Hk. vm_compute. reflexivity.
  - rewrite He by reflexivity. rewrite Hk. vm_compute. reflexivity.
Defined.

Lemma evenly_sum (delta : Q) (l : list Q) :
  evenly delta l ->
  interval_sum l == inject_Z (Z.of_nat (List.length l - 1)) * delta.
Proof.
  induction l as [|t0 [|t1 rest] IH]; intro He.
  - cbn. ring.
  - cbn. ring.
  - change (interval_sum (t0 :: t1 :: rest))
      with ((t1 - t0) + interval_sum (t1 :: rest)).
    destruct He as [Hd He]. rewrite (IH He), Hd.
    cbn [List.length Nat.sub]. rewrite Nat.sub_0_r.
    rewrite (Nat2Z.inj_succ (List.length rest)). unfold Z.succ.
    rewrite inject_Z_plus. change (inject_Z 1) with 1. ring.
Qed.

Lemma evenly_snoc (delta : Q) (l : list Q) (now : Q) :
  l <> [] -> evenly delta l -> now - last l 0 == delta ->
  evenly delta (l ++ [now]).
Proof.
  induction l as [|t0 [|t1 rest] IH]; intros Hne He Hd.
  - congruence.
  - cbn in *. split; [exact Hd | exact I].
  - destruct He as [H01 He].
    change ((t0 :: t1 :: rest) ++ [now])
      with (t0 :: ((t1 :: rest) ++ [now])).
    change (evenly delta (t0 :: ((t1 :: rest) ++ [now])))
      with (t1 - t0 == delta /\ evenly delta ((t1 :: rest) ++ [now])).
    split; [exact H01|]. apply IH; [discriminate | exact He | exact Hd].
Qed.

Lemma evenly_tl (delta : Q) (l : list Q) :
  evenly delta l -> evenly delta (tl l).
Proof.
  destruct l as [|t0 [|t1 rest]]; cbn; try tauto.
Qed.

Lemma kept_taps_length (times : list Q) (now : Q) :
  (List.length times <= 5)%nat ->
  List.length (kept_taps times now) = Nat.min (S (List.length times)) 5.
Proof.
  intro Hle. unfold kept_taps.
  destruct (5 <? List.length (times ++ [now]))%nat eqn:E.
  - apply Nat.ltb_lt in E. rewrite length_app in E. cbn in E.
    destruct times as [|t0 rest]; [cbn in E; lia|].
    cbn [app tl]. rewrite length_app. cbn [List.length] in *. lia.
  - apply Nat.ltb_ge in E. rewrite length_app in *. cbn [List.length] in *. lia.
Qed.

(** One more tap of an evenly spaced run. *)
Lemma handleTap_even_step (ui : DeckUI) (d : Deck) (now delta : Q) :
  tapTimesRef ui <> [] -> (List.length (tapTimesRef ui) <= 5)%nat ->
  evenly delta (tapTimesRef ui) ->
  now - last (tapTimesRef ui) 0 == delta ->
  100 <= delta -> delta <= 2000 -> is_double delta ->
  let s' := handleTap now (ui, d) in
  tapTimesRef (fst s') = kept_taps (tapTimesRef ui) now /\
  evenly delta (tapTimesRef (fst s')) /\
  last (tapTimesRef (fst s')) 0 = now /\
  playbackRate (snd s') = playbackRate d /\
  bpm (snd s') = js_div (js_div 60000 delta) (playbackRate d).
Proof.
  intros Hne Hlen He Hd Hlo Hhi Hdbl. cbv zeta.
  assert (Hlo' : 100 <= now - last (tapTimesRef ui) 0) by (rewrite Hd; exact Hlo).
  assert (Hhi' : now - last (tapTimesRef ui) 0 <= 2000) by (rewrite Hd; exact Hhi).
  rewrite (handleTap_accepted ui d now Hne Hlen Hlo' Hhi').
  cbn [fst snd tapTimesRef]. deck_simpl.
  destruct (kept_taps_facts _ now Hne Hlen) as (H2 & H5 & Hlast & _).
  cbv zeta in H2, H5, Hlast.
  assert (Hev : evenly delta (kept_taps (tapTimesRef ui) now)).
  { unfold kept_taps.
    destruct (5 <? List.length (tapTimesRef ui ++ [now]))%nat.
    - apply evenly_tl. apply evenly_snoc; assumption.
    - apply evenly_snoc; assumption. }
  refine (conj eq_refl (conj Hev (conj Hlast (conj eq_refl _)))).
  assert (Hn : 1 <= inject_Z (Z.of_nat (List.length (kept_taps (tapTimesRef ui) now) - 1))).
  { change 1 with (inject_Z 1). rewrite <- Zle_Qle. lia. }
  pose proof (evenly_sum _ _ Hev) as Hsum.
  set (n := inject_Z _) in *. clearbody n.
  assert (Havg : js_div (interval_sum (kept_taps (tapTimesRef ui) now)) n == delta).
  { unfold js_div. rewrite (fl_comp _ delta); [exact Hdbl|].
    rewrite Hsum. field. lra. }
  rewrite (js_div_comp 60000 60000 _ delta (Qeq_refl _) Havg). reflexivity.
Qed.

(** The state of an evenly spaced run after its tap number [n] (from 0). *)
Lemma tap_run_even_inv (ui : DeckUI) (d : Deck) (t0 delta : Q) (n : nat) :
  tapTimesRef ui = [] -> 100 <= delta -> delta <= 2000 -> is_double delta ->
  let s' := tap_run (even_taps t0 delta (S n)) (ui, d) in
  List.length (tapTimesRef (fst s')) = Nat.min (S n) 5 /\
  evenly delta (tapTimesRef (fst s')) /\
  last (tapTimesRef (fst s')) 0 = t0 + inject_Z (Z.of_nat n) * delta /\
  playbackRate (snd s') = playbackRate d /\
  ((1 <= n)%nat -> bpm (snd s') = js_div (js_div 60000 delta) (playbackRate d)).
Proof.
  intros H0 Hlo Hhi Hdbl. cbv zeta.
  induction n as [|n IH].
  - unfold tap_run, even_taps. cbn [seq map fold_left].
    unfold handleTap. rewrite H0. cbn [rev app List.length Nat.ltb Nat.leb
      fst snd tapTimesRef last evenly].
    repeat split; try reflexivity. intro H; lia.
  - unfold even_taps in *. rewrite seq_S, map_app. cbn [map Nat.add].
    unfold tap_run in *. rewrite fold_left_app. cbn [fold_left].
    set (s := fold_left (fun s now => handleTap now s)
                (map (fun i => t0 + inject_Z (Z.of_nat i) * delta) (seq 0 (S n)))
                (ui, d)) in *.
    destruct IH as (Hlen & Hev & Hlast & Hrate & _).
    destruct s as [ui1 d1]. cbn [fst snd] in *.
    assert (Hne : tapTimesRef ui1 <> []).
    { intro E. rewrite E in Hlen. cbn in Hlen. lia. }
    assert (Hle : (List.length (tapTimesRef ui1) <= 5)%nat) by lia.
    assert (Hd : t0 + inject_Z (Z.of_nat (S n)) * delta
                 - last (tapTimesRef ui1) 0 == delta).
    { rewrite Hlast, (Nat2Z.inj_succ n). unfold Z.succ.
      rewrite inject_Z_plus. change (inject_Z 1) with 1. ring. }
    destruct (handleTap_even_step ui1 d1 _ delta Hne Hle Hev Hd Hlo Hhi Hdbl)
      as (Hk & Hev' & Hlast' & Hrate' & Hbpm').
    refine (conj _ (conj Hev' (conj Hlast' (conj _ _)))).
    + rewrite Hk, (kept_taps_length _ _ Hle), Hlen. lia.
    + rewrite Hrate'. exact Hrate.
    + intros _. rewrite Hbpm', Hrate. reflexivity.
Qed.

(** Rounding a number of at least 1, dividing it by a rate between 1/2
    and 2 and multiplying the quotient by that rate gives it back within
    one part in [2^51]. *)
Lemma js_div_mul_error (y r : Q) :
  1 <= y -> 1 # 2 <= r -> r <= 2 ->
  let e := js_mul (js_div (fl y) r) r in
  y * (1 - Qpow2 (-51)) <= e /\ e <= y * (1 + Qpow2 (-51)).
Proof.
  intros Hy Hr1 Hr2. cbv zeta.
  assert (Hmin : Qpow2 (-1022) <= 1 # 4).
  { apply Qle_bool_iff. vm_compute. reflexivity. }
  assert (F1 : fl 1 == 1) by (vm_compute; reflexivity).
  assert (F4 : fl (1 # 2) == 1 # 2) by (vm_compute; reflexivity).
  assert (Hu : Qpow2 (-53) <= 1 # 8).
  { apply Qle_bool_iff. vm_compute. reflexivity. }
  assert (Hu4 : Qpow2 (-51) == 4 * Qpow2 (-53)) by reflexivity.
  pose proof (Qpow2_pos (-53)) as Hu0.
  set (u := Qpow2 (-53)) in *.
  destruct (fl_error y ltac:(lra)) as [M1 M2]. fold u in M1, M2.
  assert (HM : 1 <= fl y) by (rewrite <- F1; apply fl_mono; exact Hy).
  set (M := fl y) in *.
  assert (Hq : 1 # 2 <= M / r) by (apply Qle_shift_div_l; lra).
  destruct (fl_error (M / r) ltac:(lra)) as [B1 B2]. fold u in B1, B2.
  unfold js_div, js_mul.
  assert (HB : 1 # 2 <= fl (M / r)) by (rewrite <- F4; apply fl_mono; exact Hq).
  set (B := fl (M / r)) in *.
  assert (Hqr : M / r * r == M) by (field; lra).
  set (q := M / r) in *.
  assert (Br1 : M * (1 - u) <= B * r).
  { rewrite <- Hqr. rewrite <- Qmult_assoc, (Qmult_comm r), Qmult_assoc.
    apply Qmult_le_compat_r; lra. }
  assert (Br2 : B * r <= M * (1 + u)).
  { rewrite <- Hqr. rewrite <- (Qmult_assoc q r), (Qmult_comm r), Qmult_assoc.
    apply Qmult_le_compat_r; lra. }
  assert (HBr : 1 # 4 <= B * r).
  { apply Qle_trans with ((1 # 2) * (1 # 2)); [lra|].
    apply Qle_trans with (B * (1 # 2)).
    - apply Qmult_le_compat_r; lra.
    - apply Qmult_le_nonneg_l; lra. }
  destruct (fl_error (B * r) ltac:(lra)) as [E1 E2]. fold u in E1, E2.
  set (E := fl (B * r)) in *.
  rewrite Hu4.
  destruct (three_roundings u Hu0 Hu) as [C1 C2].
  clearbody u M q B E.
  set (a := 1 + u) in *. set (b := 1 - u) in *.
  assert (Ha : 0 <= a) by (unfold a; lra).
  assert (Hb : 0 <= b) by (unfold b; lra).
  split.
  - apply Qle_trans with (y * (b * (b * b))).
    + apply Qmult_le_nonneg_l; [lra | exact C1].
    + apply Qle_trans with (B * r * b); [|exact E1].
      apply Qle_trans with (M * b * b).
      * rewrite (Qmult_assoc b b b), (Qmult_assoc y).
        apply Qmult_le_compat_r; [|exact Hb].
        rewrite Qmult_assoc. apply Qmult_le_compat_r; [exact M1 | exact Hb].
      * apply Qmult_le_compat_r; [exact Br1 | exact Hb].
  - apply Qle_trans with (y * (a * (a * a))).
    + apply Qle_trans with (B * r * a); [exact E2|].
      apply Qle_trans with (M * a * a).
      * apply Qmult_le_compat_r; [exact Br2 | exact Ha].
      * rewrite (Qmult_assoc a a a), (Qmult_assoc y).
        apply Qmult_le_compat_r; [|exact Ha].
        rewrite Qmult_assoc. apply Qmult_le_compat_r; [exact M2 | exact Ha].
    + apply Qmult_le_nonneg_l; [lra | exact C2].
Qed.

(** X25: two or more taps at a steady interval between 100 ms and 2 s,
    starting from an empty tap list, keep the last five taps at most and
    store 60000 over the interval, over the rate, both quotients rounded.
    The tempo shown is that value times the rate, rounded again: it is
    within one part in [2^51] of 60000 over the interval, and equal to the
    rounded quotient at rate 1. *)
Theorem tap_run_steady_tempo (ui : DeckUI) (d : Deck) (t0 delta : Q) (n : nat) :
  tapTimesRef ui = [] -> 100 <= delta -> delta <= 2000 -> is_double delta ->
  1 # 2 <= playbackRate d -> playbackRate d <= 2 ->
  let s' := tap_run (even_taps t0 delta (S (S n))) (ui, d) in
  let stored := js_div (js_div 60000 delta) (playbackRate d) in
  let shown := js_mul stored (playbackRate d) in
  bpm (snd s') = stored /\
  effectiveBpm (snd s') = shown /\
  displayedBpm (snd s') = Some (Math_round shown) /\
  60000 / delta * (1 - Qpow2 (-51)) <= shown /\
  shown <= 60000 / delta * (1 + Qpow2 (-51)) /\
  (playbackRate d == 1 -> shown == js_div 60000 delta) /\
  List.length (tapTimesRef (fst s')) = Nat.min (S (S n)) 5.
Proof.
  intros H0 Hlo Hhi Hdbl Hr1 Hr2. cbv zeta.
  destruct (tap_run_even_inv ui d t0 delta (S n) H0 Hlo Hhi Hdbl)
    as (Hlen & _ & _ & Hrate & Hbpm).
  set (s' := tap_run (even_taps t0 delta (S (S n))) (ui, d)) in *.
  specialize (Hbpm ltac:(lia)).
  assert (Hy : 1 <= 60000 / delta) by (apply Qle_shift_div_l; lra).
  destruct (js_div_mul_error (60000 / delta) (playbackRate d) Hy Hr1 Hr2)
    as [E1 E2].
  change (fl (60000 / delta)) with (js_div 60000 delta) in E1, E2.
  set (stored := js_div (js_div 60000 delta) (playbackRate d)) in *.
  set (shown := js_mul stored (playbackRate d)) in *.
  assert (Hpos : 0 < shown).
  { assert (Hu : Qpow2 (-51) <= 1 # 2).
    { apply Qle_bool_iff. vm_compute. reflexivity. }
    set (y := 60000 / delta) in *. clearbody y shown. nra. }
  assert (Hstored : ~ stored == 0).
  { intro Hz. unfold shown, js_mul in Hpos.
    rewrite (fl_of_zero (stored * playbackRate d)) in Hpos; [lra|].
    rewrite Hz. ring. }
  assert (Heff : effectiveBpm (snd s') = shown).
  { unfold effectiveBpm. rewrite Hbpm, Hrate.
    destruct (Qeq_bool stored 0) eqn:E; [|reflexivity].
    apply Qeq_bool_iff in E. contradiction. }
  refine (conj Hbpm (conj Heff (conj _ (conj E1 (conj E2 (conj _ Hlen)))))).
  - unfold displayedBpm. rewrite Heff.
    assert (Hg : Qgtb shown 0 = true) by (apply Qgtb_true; exact Hpos).
    rewrite Hg. reflexivity.
  - intro Hone. unfold shown.
    rewrite js_mul_one; [|apply js_div_double | exact Hone].
    unfold stored. apply js_div_one; [apply js_div_double | exact Hone].
Qed.

Lemma tap_run_steady_tempo_witness :
  let fast := setPlaybackRateState (js_literal (108 # 100)) initial_deck in
  bpm (snd (tap_run (even_taps 250 320 7) (initial_ui, fast)))
  = js_div (js_div 60000 320) (js_literal (108 # 100)) /\
  displayedBpm (snd (tap_run (even_taps 250 320 7) (initial_ui, fast)))
  = Some 187%Z /\
  displayedBpm (snd (tap_run (even_taps 250 320 7) (initial_ui, initial_deck)))
  = Some 188%Z /\
  List.length (tapTimesRef (fst (tap_run (even_taps 250 320 7) (initial_ui, fast))))
  = 5%nat.
Proof.
  cbv zeta.
  set (fast := setPlaybackRateState (js_literal (108 # 100)) initial_deck).
  assert (Hlo : 100 <= 320) by lra.
  assert (Hhi : 320 <= 2000) by lra.
  assert (Hdbl : is_double 320) by (vm_compute; reflexivity).
  assert (Hf1 : 1 # 2 <= playbackRate fast) by (vm_compute; discriminate).
  assert (Hf2 : playbackRate fast <= 2) by (vm_compute; discriminate).
  assert (Hi1 : 1 # 2 <= playbackRate initial_deck) by (vm_compute; discriminate).
  assert (Hi2 : playbackRate initial_deck <= 2) by (vm_compute; discriminate).
  destruct (tap_run_steady_tempo initial_ui fast 250 320 5
              eq_refl Hlo Hhi Hdbl Hf1 Hf2) as (Hb & _ & Hd & _ & _ & _ & Hl).
  destruct (tap_run_steady_tempo initial_ui initial_deck 250 320 5
              eq_refl Hlo Hhi Hdbl Hi1 Hi2) as (_ & _ & Hd1 & _).
  split; [exact Hb|]. split; [|split].
  - rewrite Hd. vm_compute. reflexivity.
  - rewrite Hd1. vm_compute. reflexivity.
  - rewrite Hl. reflexivity.
Defined.

(** X26: A tap less than 100 ms after the previous one changes nothing; a
    tap more than 2 s after it restarts the measurement: it is the only
    tap kept and the tempo is left as it was. *)
Theorem handleTap_debounce_and_restart (ui : DeckUI) (d : Deck) (now : Q) :
  tapTimesRef ui <> [] ->
  (now - last (tapTimesRef ui) 0 < 100 -> handleTap now (ui, d) = (ui, d)) /\
  (2000 < now - last (tapTimesRef ui) 0 ->
   tapTimesRef (fst (handleTap now (ui, d))) = [now] /\
   snd (handleTap now (ui, d)) = d).
Proof.
  intro Hne. destruct (rev_head_last _ Hne) as (r & Hrev).
  split; intro H; unfold handleTap; rewrite Hrev.
  - apply Qltb_true in H. rewrite H. reflexivity.
  - assert (E1 : Qltb (now - last (tapTimesRef ui) 0) 100 = false)
      by (apply Qltb_false; lra).
    apply Qgtb_true in H. rewrite E1, H. cbn. split; reflexivity.
Qed.

Lemma handleTap_debounce_and_restart_witness :
  let ui := mkDeckUI false 0 [0; 500] None in
  let d := setBpm 120 initial_deck in
  handleTap 560 (ui, d) = (ui, d) /\
  tapTimesRef (fst (handleTap 3000 (ui, d))) = [3000] /\
  bpm (snd (handleTap 3000 (ui, d))) = 120.
Proof.
  cbv zeta.
  set (ui := mkDeckUI false 0 [0; 500] None).
  set (d := setBpm 120 initial_deck).
  assert (Hne : tapTimesRef ui <> []) by (cbn; discriminate).
  destruct (handleTap_debounce_and_restart ui d 560 Hne) as [Ha _].
  destruct (handleTap_debounce_and_restart ui d 3000 Hne) as [_ Hb].
  split; [|split].
  - apply Ha. cbn. lra.
  - apply Hb. cbn. lra.
  - destruct Hb as [_ Hb]; [cbn; lra|]. rewrite Hb. reflexivity.
Defined.

(** ** The cue button *)


(** ** The waveform window *)

Lemma timeToX_range (s e width t : Q) :
  0 <= width -> s <= t -> t <= e ->
  0 <= timeToX s e width t /\ timeToX s e width t <= width.
Proof.
  intros Hw Hs He. unfold timeToX.
  destruct (Qle_bool (e - s) 0) eqn:E; [lra|].
  assert (Hr : 0 < e - s).
  { apply Qnot_le_lt. intro H. apply Qle_bool_iff in H. congruence. }
  assert (H0 : 0 <= (t - s) / (e - s)) by (apply Qle_shift_div_l; lra).
  assert (H1 : (t - s) / (e - s) <= 1) by (apply Qle_shift_div_r; lra).
  set (x := (t - s) / (e - s)) in *. clearbody x. nra.
Qed.

(** The window of a finite zoom level, by cases on where the playhead
    is. *)
Lemma getWindowParams_cases (ws ct : Q) (b : AudioBuffer) :
  0 < ws ->
  let w := getWindowParams (Some ws) ct (Some b) in
  let dur := buffer_duration b in
  win_duration w = dur /\ win_windowSize w = Some ws /\
  ((ct - ws / 2 < 0 /\ dur < ws /\
    win_startTime w = Math_max 0 (dur - ws) /\ win_endTime w = dur) \/
   (ct - ws / 2 < 0 /\ ws <= dur /\
    win_startTime w = 0 /\ win_endTime w = ws) \/
   (0 <= ct - ws / 2 /\ dur < ct + ws / 2 /\
    win_startTime w = Math_max 0 (dur - ws) /\ win_endTime w = dur) \/
   (0 <= ct - ws / 2 /\ ct + ws / 2 <= dur /\
    win_startTime w = ct - ws / 2 /\ win_endTime w = ct + ws / 2)).
Proof.
  intro Hws. cbv zeta. unfold getWindowParams.
  destruct (Qltb (ct - ws / 2) 0) eqn:E1.
  - apply Qltb_true in E1.
    destruct (Qgtb ws (buffer_duration b)) eqn:E2;
      cbn [win_duration win_windowSize win_startTime win_endTime].
    + apply Qgtb_true in E2. split; [reflexivity|]. split; [reflexivity|].
      left. auto.
    + apply Qgtb_false in E2. split; [reflexivity|]. split; [reflexivity|].
      right; left. auto.
  - apply Qltb_false in E1.
    destruct (Qgtb (ct + ws / 2) (buffer_duration b)) eqn:E2;
      cbn [win_duration win_windowSize win_startTime win_endTime].
    + apply Qgtb_true in E2. split; [reflexivity|]. split; [reflexivity|].
      right; right; left. auto.
    + apply Qgtb_false in E2. split; [reflexivity|]. split; [reflexivity|].
      right; right; right. auto.
Qed.

Lemma half_sum (x : Q) : x / 2 + x / 2 == x.
Proof. field. Qed.

Lemma getWindowParams_bounds (ws ct : Q) (b : AudioBuffer) :
  wf_buffer b -> 0 < ws -> 0 <= ct -> ct <= buffer_duration b ->
  let w := getWindowParams (Some ws) ct (Some b) in
  0 <= win_startTime w /\ win_startTime w <= ct /\
  ct <= win_endTime w /\ win_endTime w <= buffer_duration b /\
  win_endTime w - win_startTime w == Qmin ws (buffer_duration b).
Proof.
  intros Hwf Hws Hct0 Hct1. cbv zeta.
  destruct (wf_buffer_duration_pos b Hwf) as [Hdur _].
  destruct (getWindowParams_cases ws ct b Hws) as (_ & _ & Hcases).
  cbv zeta in Hcases.
  set (w := getWindowParams (Some ws) ct (Some b)) in *.
  generalize (half_sum ws). intro Hh.
  set (h := ws / 2) in *. set (dur := buffer_duration b) in *.
  clearbody h dur.
  destruct Hcases as [(H1 & H2 & -> & ->) | [(H1 & H2 & -> & ->) |
                     [(H1 & H2 & -> & ->) | (H1 & H2 & -> & ->)]]].
  - unfold Math_max. rewrite (Q.max_l 0 (dur - ws)) by lra.
    rewrite (Q.min_r ws dur) by lra. repeat split; lra.
  - rewrite (Q.min_l ws dur) by lra. repeat split; lra.
  - unfold Math_max.
    destruct (Q.max_spec 0 (dur - ws)) as [[Ha ->] | [Ha ->]].
    + rewrite (Q.min_l ws dur) by lra. repeat split; lra.
    + rewrite (Q.min_r ws dur) by lra. repeat split; lra.
  - rewrite (Q.min_l ws dur) by lra. repeat split; lra.
Qed.

(** Where half a window fits on both sides of the playhead, the window is
    centred on it. *)
Lemma getWindowParams_centred (ws ct : Q) (b : AudioBuffer) :
  0 < ws -> ws / 2 <= ct -> ct <= buffer_duration b - ws / 2 ->
  let w := getWindowParams (Some ws) ct (Some b) in
  win_startTime w == ct - ws / 2 /\ win_endTime w == ct + ws / 2.
Proof.
  intros Hws Hlo Hhi. cbv zeta.
  destruct (getWindowParams_cases ws ct b Hws) as (_ & _ & Hcases).
  cbv zeta in Hcases.
  set (w := getWindowParams (Some ws) ct (Some b)) in *.
  generalize (half_sum ws). intro Hh.
  set (h := ws / 2) in *. set (dur := buffer_duration b) in *.
  clearbody h dur.
  destruct Hcases as [(H1 & H2 & E1 & E2) | [(H1 & H2 & E1 & E2) |
                     [(H1 & H2 & E1 & E2) | (H1 & H2 & E1 & E2)]]];
    rewrite E1, E2.
  - lra.
  - split; lra.
  - assert (Hd : dur == ct + h) by lra.
    split; [|lra]. unfold Math_max.
    rewrite (Q.max_r 0 (dur - ws)) by lra. lra.
  - split; reflexivity.
Qed.

(** X28: For a finite zoom level and a playhead inside the track, the
    window drawn lies inside the track, contains the playhead, and is as
    long as the zoom level or the whole track, whichever is shorter; the
    playhead is drawn inside the canvas, and in its middle whenever half a
    window fits on both sides of it. *)
Theorem getWindowParams_window (ws ct width : Q) (b : AudioBuffer) :
  wf_buffer b -> 0 < ws -> 0 <= width ->
  0 <= ct -> ct <= buffer_duration b ->
  let w := getWindowParams (Some ws) ct (Some b) in
  let x := timeToX (win_startTime w) (win_endTime w) width ct in
  0 <= win_startTime w /\ win_startTime w <= ct /\
  ct <= win_endTime w /\ win_endTime w <= buffer_duration b /\
  win_endTime w - win_startTime w == Qmin ws (buffer_duration b) /\
  0 <= x /\ x <= width /\
  (ws / 2 <= ct -> ct <= buffer_duration b - ws / 2 -> x == width / 2).
Proof.
  intros Hwf Hws Hwidth Hct0 Hct1. cbv zeta.
  destruct (getWindowParams_bounds ws ct b Hwf Hws Hct0 Hct1)
    as (B1 & B2 & B3 & B4 & B5).
  cbv zeta in B1, B2, B3, B4, B5.
  set (w := getWindowParams (Some ws) ct (Some b)) in *.
  destruct (timeToX_range (win_startTime w) (win_endTime w) width ct
              Hwidth B2 B3) as [P0 P1].
  refine (conj B1 (conj B2 (conj B3 (conj B4 (conj B5 (conj P0 (conj P1 _))))))).
  intros Hlo Hhi.
  destruct (getWindowParams_centred ws ct b Hws Hlo Hhi) as [Es Ee].
  fold w in Es, Ee. unfold timeToX.
  generalize (half_sum ws). intro Hh.
  assert (Hr : win_endTime w - win_startTime w == ws).
  { rewrite Es, Ee. set (h := ws / 2) in *. clearbody h. lra. }
  destruct (Qle_bool (win_endTime w - win_startTime w) 0) eqn:E.
  - apply Qle_bool_iff in E. lra.
  - rewrite Hr, Es.
    assert (Hq : (ct - (ct - ws / 2)) / ws == 1 # 2) by (field; lra).
    rewrite Hq. unfold Qdiv. change (/ 2) with (1 # 2). ring.
Qed.

Lemma getWindowParams_window_witness :
  let w := getWindowParams (Some 10) 2 (Some (demo_buffer 30)) in
  let w' := getWindowParams (Some 10) 12 (Some (demo_buffer 30)) in
  win_startTime w == 0 /\ win_endTime w == 10 /\
  timeToX (win_startTime w) (win_endTime w) 600 2 == 120 /\
  timeToX (win_startTime w') (win_endTime w') 600 12 == 600 / 2.
Proof.
  cbv zeta.
  assert (Hwf : wf_buffer (demo_buffer 30)).
  { unfold wf_buffer. cbn. repeat split; try lia.
    constructor; [reflexivity | constructor]. }
  assert (H1 : 0 < 10) by lra.
  assert (H2 : 0 <= 600) by lra.
  assert (H3 : 0 <= 12) by lra.
  assert (H4 : 12 <= buffer_duration (demo_buffer 30)) by (vm_compute; discriminate).
  destruct (getWindowParams_window 10 12 600 (demo_buffer 30) Hwf H1 H2 H3 H4)
    as (_ & _ & _ & _ & _ & _ & _ & Hmid).
  split; [vm_compute; reflexivity|].
  split; [vm_compute; reflexivity|].
  split; [vm_compute; reflexivity|].
  apply Hmid; vm_compute; discriminate.
Defined.

(** X29: A drag of the waveform with a finite zoom level asks for a time
    inside the track, which a deck that is not scratching takes as its
    current time; and as long as half a window fits on both sides of the
    playhead before and after, every point of the waveform moves on the
    canvas by exactly the distance the pointer moved. *)
Theorem waveform_drag_follows_pointer
        (ws width lastX clientX ct t now : Q) (b : AudioBuffer) (d : Deck) :
  wf_buffer b -> 0 < ws -> 0 < width ->
  buffer d = Some b -> duration d = buffer_duration b ->
  isScratching d = false ->
  exists newTime,
    handleDragMove true (Some b) (Some ws) width lastX clientX ct
    = Some newTime /\
    0 <= newTime /\ newTime <= buffer_duration b /\
    currentTime (seek newTime now d) == newTime /\
    (let moved := ct + (lastX - clientX) / width * ws in
     let w0 := getWindowParams (Some ws) ct (Some b) in
     let w1 := getWindowParams (Some ws) newTime (Some b) in
     ws / 2 <= ct -> ct <= buffer_duration b - ws / 2 ->
     ws / 2 <= moved -> moved <= buffer_duration b - ws / 2 ->
     newTime == moved /\
     timeToX (win_startTime w1) (win_endTime w1) width t
     - timeToX (win_startTime w0) (win_endTime w0) width t
     == clientX - lastX).
Proof.
  intros Hwf Hws Hwidth Hb Hdu Hsc.
  destruct (wf_buffer_duration_pos b Hwf) as [Hdur _].
  destruct (getWindowParams_cases ws ct b Hws) as (Hwd & Hwz & _).
  cbv zeta in Hwd, Hwz.
  unfold handleDragMove. cbn [negb]. rewrite Hwd, Hwz.
  set (moved := ct + (lastX - clientX) / width * ws).
  set (dur := buffer_duration b) in *.
  exists (Math_max 0 (Math_min dur moved)).
  set (newTime := Math_max 0 (Math_min dur moved)).
  assert (Hn0 : 0 <= newTime) by apply Q.le_max_l.
  assert (Hn1 : newTime <= dur).
  { apply Q.max_lub; [lra | apply Q.le_min_l]. }
  refine (conj eq_refl (conj Hn0 (conj Hn1 (conj _ _)))).
  - unfold seek, seek_closure. rewrite Hb, Hsc, Hdu. fold dur.
    assert (Hc : Math_max 0 (Math_min newTime dur) == newTime).
    { unfold Math_max, Math_min. rewrite (Q.min_l newTime dur) by exact Hn1.
      apply Q.max_r. exact Hn0. }
    destruct (isPlaying d); deck_simpl; exact Hc.
  - cbv zeta. intros Hlo Hhi Hlo' Hhi'.
    generalize (half_sum ws). intro Hh.
    assert (Hnm : newTime == moved).
    { unfold newTime, Math_max, Math_min.
      set (h := ws / 2) in *. clearbody h moved dur.
      rewrite (Q.min_r dur moved) by lra. apply Q.max_r. lra. }
    split; [exact Hnm|].
    assert (Hlo1 : ws / 2 <= newTime) by (rewrite Hnm; exact Hlo').
    assert (Hhi1 : newTime <= buffer_duration b - ws / 2)
      by (rewrite Hnm; exact Hhi').
    destruct (getWindowParams_centred ws ct b Hws Hlo Hhi) as [Es0 Ee0].
    destruct (getWindowParams_centred ws newTime b Hws Hlo1 Hhi1) as [Es1 Ee1].
    cbv zeta in Es0, Ee0, Es1, Ee1.
    set (w0 := getWindowParams (Some ws) ct (Some b)) in *.
    set (w1 := getWindowParams (Some ws) newTime (Some b)) in *.
    assert (Hr0 : win_endTime w0 - win_startTime w0 == ws).
    { rewrite Es0, Ee0. set (h := ws / 2) in *. clearbody h. lra. }
    assert (Hr1 : win_endTime w1 - win_startTime w1 == ws).
    { rewrite Es1, Ee1. set (h := ws / 2) in *. clearbody h. lra. }
    unfold timeToX.
    destruct (Qle_bool (win_endTime w1 - win_startTime w1) 0) eqn:E1;
      [apply Qle_bool_iff in E1; lra|].
    destruct (Qle_bool (win_endTime w0 - win_startTime w0) 0) eqn:E0;
      [apply Qle_bool_iff in E0; lra|].
    rewrite Hr0, Hr1, Es0, Es1, Hnm. unfold moved. field. split; lra.
Qed.

Lemma waveform_drag_follows_pointer_witness :
  let b := demo_buffer 30 in
  let d := loadFile (demo_file "a.wav" 30) initial_deck in
  exists newTime,
    handleDragMove true (Some b) (Some 10) 600 300 240 12 = Some newTime /\
    newTime == 13 /\
    currentTime (seek newTime 0 d) == newTime /\
    timeToX (win_startTime (getWindowParams (Some 10) newTime (Some b)))
            (win_endTime (getWindowParams (Some 10) newTime (Some b))) 600 15
    - timeToX (win_startTime (getWindowParams (Some 10) 12 (Some b)))
              (win_endTime (getWindowParams (Some 10) 12 (Some b))) 600 15
    == 240 - 300.
Proof.
  cbv zeta.
  assert (Hwf : wf_buffer (demo_buffer 30)).
  { unfold wf_buffer. cbn. repeat split; try lia.
    constructor; [reflexivity | constructor]. }
  assert (H1 : 0 < 10) by lra.
  assert (H2 : 0 < 600) by lra.
  set (d := loadFile (demo_file "a.wav" 30) initial_deck).
  assert (Hb : buffer d = Some (demo_buffer 30)) by (vm_compute; reflexivity).
  assert (Hdu : duration d = buffer_duration (demo_buffer 30))
    by (vm_compute; reflexivity).
  assert (Hsc : isScratching d = false) by (vm_compute; reflexivity).
  destruct (waveform_drag_follows_pointer 10 600 300 240 12 15 0
              (demo_buffer 30) d Hwf H1 H2 Hb Hdu Hsc)
    as (nt & Hdrag & _ & _ & Hseek & Hfollow).
  cbv zeta in Hfollow.
  assert (Ha : 10 / 2 <= 12) by (vm_compute; discriminate).
  assert (Hb' : 12 <= buffer_duration (demo_buffer 30) - 10 / 2)
    by (vm_compute; discriminate).
  assert (Hc : 10 / 2 <= 12 + (300 - 240) / 600 * 10)
    by (vm_compute; discriminate).
  assert (Hd : 12 + (300 - 240) / 600 * 10
               <= buffer_duration (demo_buffer 30) - 10 / 2)
    by (vm_compute; discriminate).
  destruct (Hfollow Ha Hb' Hc Hd) as [Hnt Hmove].
  exists nt.
  split; [exact Hdrag|].
  split; [rewrite Hnt; vm_compute; reflexivity|].
  split; [exact Hseek | exact Hmove].
Defined.

(** X30: The zoom buttons keep the zoom index inside [ZOOM_LEVELS], undo
    each other except at the two ends, and zooming out never shortens the
    stretch of track drawn, which is never longer than the track. *)
Theorem zoom_steps_window (i : Z) (ct : Q) (b : AudioBuffer) :
  wf_buffer b -> (0 <= i <= 4)%Z -> 0 <= ct -> ct <= buffer_duration b ->
  (0 <= handleZoomIn i <= 4)%Z /\ (0 <= handleZoomOut i <= 4)%Z /\
  handleZoomIn (handleZoomOut i) = Z.min i 3 /\
  handleZoomOut (handleZoomIn i) = Z.max i 1 /\
  exists lin l lout,
    window_shown (handleZoomIn i) ct b = Some lin /\
    window_shown i ct b = Some l /\
    window_shown (handleZoomOut i) ct b = Some lout /\
    lin <= l /\ l <= lout /\ lout <= buffer_duration b.
Proof.
  intros Hwf Hi H0 H1.
  assert (Hlen : (Z.of_nat (List.length ZOOM_LEVELS) - 1 = 4)%Z) by reflexivity.
  split; [unfold handleZoomIn; lia|].
  split; [unfold handleZoomOut; rewrite Hlen; lia|].
  split; [unfold handleZoomIn, handleZoomOut; rewrite Hlen; lia|].
  split; [unfold handleZoomIn, handleZoomOut; rewrite Hlen; lia|].
  assert (L5 : window_length (Some 5) ct b == Qmin 5 (buffer_duration b)).
  { apply getWindowParams_bounds; [exact Hwf | lra | exact H0 | exact H1]. }
  assert (L10 : window_length (Some 10) ct b == Qmin 10 (buffer_duration b)).
  { apply getWindowParams_bounds; [exact Hwf | lra | exact H0 | exact H1]. }
  assert (L30 : window_length (Some 30) ct b == Qmin 30 (buffer_duration b)).
  { apply getWindowParams_bounds; [exact Hwf | lra | exact H0 | exact H1]. }
  assert (L60 : window_length (Some 60) ct b == Qmin 60 (buffer_duration b)).
  { apply getWindowParams_bounds; [exact Hwf | lra | exact H0 | exact H1]. }
  assert (LI : window_length None ct b == buffer_duration b).
  { unfold window_length, getWindowParams.
    cbn [win_startTime win_endTime]. ring. }
  set (dur := buffer_duration b) in *.
  assert (M1 : Qmin 5 dur <= Qmin 10 dur)
    by (apply Q.min_le_compat_r; lra).
  assert (M2 : Qmin 10 dur <= Qmin 30 dur)
    by (apply Q.min_le_compat_r; lra).
  assert (M3 : Qmin 30 dur <= Qmin 60 dur)
    by (apply Q.min_le_compat_r; lra).
  assert (M4 : Qmin 60 dur <= dur) by apply Q.le_min_r.
  assert (Hcase : (i = 0 \/ i = 1 \/ i = 2 \/ i = 3 \/ i = 4)%Z) by lia.
  clearbody dur.
  destruct Hcase as [-> | [-> | [-> | [-> | ->]]]].
  - exists (window_length (Some 5) ct b), (window_length (Some 5) ct b),
      (window_length (Some 10) ct b).
    repeat (split; [reflexivity|]). rewrite L5, L10. lra.
  - exists (window_length (Some 5) ct b), (window_length (Some 10) ct b),
      (window_length (Some 30) ct b).
    repeat (split; [reflexivity|]). rewrite L5, L10, L30. lra.
  - exists (window_length (Some 10) ct b), (window_length (Some 30) ct b),
      (window_length (Some 60) ct b).
    repeat (split; [reflexivity|]). rewrite L10, L30, L60. lra.
  - exists (window_length (Some 30) ct b), (window_length (Some 60) ct b),
      (window_length None ct b).
    repeat (split; [reflexivity|]). rewrite L30, L60, LI. lra.
  - exists (window_length (Some 60) ct b), (window_length None ct b),
      (window_length None ct b).
    repeat (split; [reflexivity|]). rewrite L60, LI. lra.
Qed.

Lemma zoom_steps_window_witness :
  handleZoomIn 0 = 0%Z /\ handleZoomOut 4 = 4%Z /\
  handleZoomIn (handleZoomOut 2) = 2%Z /\
  exists l lout,
    window_shown 1 7 (demo_buffer 30) = Some l /\ l == 10 /\
    window_shown (handleZoomOut 3) 7 (demo_buffer 30) = Some lout /\
    lout == 30.
Proof.
  assert (Hwf : wf_buffer (demo_buffer 30)).
  { unfold wf_buffer. cbn. repeat split; try lia.
    constructor; [reflexivity | constructor]. }
  assert (Hi : (0 <= 2 <= 4)%Z) by lia.
  assert (H0 : 0 <= 7) by lra.
  assert (H1 : 7 <= buffer_duration (demo_buffer 30)) by (vm_compute; discriminate).
  destruct (zoom_steps_window 2 7 (demo_buffer 30) Hwf Hi H0 H1)
    as (_ & _ & Hio & _).
  split; [reflexivity|]. split; [reflexivity|]. split; [exact Hio|].
  exists (window_length (Some 10) 7 (demo_buffer 30)),
    (window_length None 7 (demo_buffer 30)).
  split; [reflexivity|]. split; [vm_compute; reflexivity|].
  split; [reflexivity|]. vm_compute. reflexivity.
Defined.
